(** * embedded-tf: batch prediction server (Server.go)

    A shallow embedding of the request handler [LoadAndPredict] and of the
    functions it calls, together with the parts of the Go standard library
    the handler relies on (strings, bytes, unicode/utf8, bufio.Scanner and
    encoding/json), and the properties of the specification proved or
    refuted against that embedding.

    Go strings and byte slices are sequences of bytes: both are modelled by
    [list ascii].  Go functions returning [(T, error)] return a pair whose
    second component is an [option error] ([None] is Go's nil error). *)

From Stdlib Require Import Ascii String NArith ZArith Bool Lia List.
Import ListNotations.

Set Implicit Arguments.
Set Warnings "-register-all".

(* ================================================================= *)
(** ** Bytes *)

Definition bytes := list ascii.

(** The bytes of a string literal. *)
Definition B (s : string) : bytes := list_ascii_of_string s.

Definition code (c : ascii) : N := N_of_ascii c.
Definition chr (n : N) : ascii := ascii_of_N n.

Definition LF : ascii := Eval cbv in chr 10.
Definition CR : ascii := Eval cbv in chr 13.
Definition TAB : ascii := Eval cbv in chr 9.
Definition SPACE : ascii := Eval cbv in chr 32.
Definition QUOTE : ascii := Eval cbv in chr 34.
Definition APOSTROPHE : ascii := Eval cbv in chr 39.
Definition BACKSLASH : ascii := Eval cbv in chr 92.

(** JSON texts in the examples are written with apostrophes in place of
    double quotes; [js] puts the double quotes back. *)
Definition js (s : string) : bytes :=
  map (fun c => if Ascii.eqb c APOSTROPHE then QUOTE else c) (B s).

Fixpoint beq (a b : bytes) : bool :=
  match a, b with
  | [], [] => true
  | x :: a', y :: b' => Ascii.eqb x y && beq a' b'
  | _, _ => false
  end.

(** Byte-wise lexicographic order, Go's [<] on strings. *)
Fixpoint bltb (a b : bytes) : bool :=
  match a, b with
  | _, [] => false
  | [], _ :: _ => true
  | x :: a', y :: b' =>
      if N.ltb (code x) (code y) then true
      else if N.ltb (code y) (code x) then false
      else bltb a' b'
  end.

(** Go's [len], as an integer. *)
Definition len (s : bytes) : Z := Z.of_nat (length s).

(** Outcome of Go code that may panic. *)
Inductive go (A : Type) : Type :=
| Return (a : A)
| Panic (msg : bytes).
Arguments Return {A} a.
Arguments Panic {A} msg.

(** Go's [error] values, as far as the program tells them apart. *)
Inductive error : Type :=
| errorString (msg : bytes)   (* errors.New(msg) *)
| SyntaxError                 (* *json.SyntaxError *)
| UnmarshalTypeError          (* *json.UnmarshalTypeError *)
| ErrTooLong                  (* bufio.ErrTooLong *)
| External (msg : bytes).     (* an error returned by the operating system,
                                 the object store or the HTTP client *)

(* ================================================================= *)
(** ** Package strings (and bytes.ReplaceAll) *)

Module strings.

Fixpoint HasPrefix (s prefix : bytes) : bool :=
  match prefix, s with
  | [], _ => true
  | p :: prefix', c :: s' => Ascii.eqb c p && HasPrefix s' prefix'
  | _ :: _, [] => false
  end.

Definition HasSuffix (s suffix : bytes) : bool :=
  HasPrefix (rev s) (rev suffix).

(** [Index s substr]: index of the first instance of [substr], or -1. *)
Fixpoint Index_from (i : Z) (s substr : bytes) : Z :=
  if HasPrefix s substr then i
  else match s with
       | [] => (-1)%Z
       | _ :: s' => Index_from (i + 1) s' substr
       end.

Definition Index (s substr : bytes) : Z := Index_from 0 s substr.

Definition Contains (s substr : bytes) : bool := (0 <=? Index s substr)%Z.

(** [LastIndex s substr]: index of the last instance of [substr], or -1. *)
Fixpoint LastIndex_from (i : Z) (last : Z) (s substr : bytes) : Z :=
  let last' := if HasPrefix s substr then i else last in
  match s with
  | [] => last'
  | _ :: s' => LastIndex_from (i + 1) last' s' substr
  end.

Definition LastIndex (s substr : bytes) : Z := LastIndex_from 0 (-1) s substr.

(** The slice expression [s[i:]], for [0 <= i <= len s]; out of that
    range Go panics. *)
Definition slice_from (s : bytes) (i : Z) : go bytes :=
  if ((0 <=? i) && (i <=? len s))%Z then Return (skipn (Z.to_nat i) s)
  else Panic (B "slice bounds out of range").

(** [cut s sep]: the text before the first instance of [sep] and the text
    after it, when there is one. *)
Fixpoint cut_go (acc : bytes) (s sep : bytes) : option (bytes * bytes) :=
  if HasPrefix s sep then Some (rev acc, skipn (length sep) s)
  else match s with
       | [] => None
       | c :: s' => cut_go (c :: acc) s' sep
       end.

Definition cut (s sep : bytes) : option (bytes * bytes) := cut_go [] s sep.

(** [SplitN s sep n] for a non-empty separator: at most [n] pieces, the
    last one the unsplit remainder; no piece at all for [n = 0]. *)
Fixpoint SplitN_go (pieces : nat) (s sep : bytes) : list bytes :=
  match pieces with
  | 0 => []
  | 1 => [s]
  | S k => match cut s sep with
           | Some (a, rest) => a :: SplitN_go k rest sep
           | None => [s]
           end
  end.

Definition SplitN (s sep : bytes) (n : nat) : list bytes := SplitN_go n s sep.

(** [bytes.ReplaceAll s old new] for a non-empty [old]: the matches of
    [old] are found left to right without overlap ([skip] bytes of the
    current match are still to be dropped). *)
Fixpoint ReplaceAll_go (skip : nat) (s old new : bytes) : bytes :=
  match s with
  | [] => []
  | c :: s' =>
      match skip with
      | S k => ReplaceAll_go k s' old new
      | 0 =>
          if HasPrefix s old
          then new ++ ReplaceAll_go (pred (length old)) s' old new
          else c :: ReplaceAll_go 0 s' old new
      end
  end.

Definition ReplaceAll (s old new : bytes) : bytes := ReplaceAll_go 0 s old new.

End strings.

(** Indexing a slice of strings, [s[i]]; out of range Go panics. *)
Definition index (s : list bytes) (i : nat) : go bytes :=
  match nth_error s i with
  | Some x => Return x
  | None => Panic (B "index out of range")
  end.

(* ================================================================= *)
(** ** Package unicode/utf8 *)

Module utf8.

Definition RuneError : N := 65533.   (* U+FFFD *)
Definition RuneSelf : N := 128.
Definition MaxRune : N := 1114111.   (* U+10FFFF *)

(** The table [first] with [acceptRanges]: for a leading byte, the length
    of the sequence it starts and the range its second byte must lie in;
    [None] for a byte that starts no multi-byte sequence. *)
Definition first (p0 : N) : option (nat * N * N) :=
  if (p0 <? 194)%N then None                          (* 0x00-0xC1 *)
  else if (p0 <? 224)%N then Some (2%nat, 128, 191)%N     (* 0xC2-0xDF *)
  else if (p0 =? 224)%N then Some (3%nat, 160, 191)%N     (* 0xE0 *)
  else if (p0 <? 237)%N then Some (3%nat, 128, 191)%N     (* 0xE1-0xEC *)
  else if (p0 =? 237)%N then Some (3%nat, 128, 159)%N     (* 0xED *)
  else if (p0 <? 240)%N then Some (3%nat, 128, 191)%N     (* 0xEE-0xEF *)
  else if (p0 =? 240)%N then Some (4%nat, 144, 191)%N     (* 0xF0 *)
  else if (p0 <? 244)%N then Some (4%nat, 128, 191)%N     (* 0xF1-0xF3 *)
  else if (p0 =? 244)%N then Some (4%nat, 128, 143)%N     (* 0xF4 *)
  else None.                                          (* 0xF5-0xFF *)

Definition within (lo hi b : N) : bool := ((lo <=? b) && (b <=? hi))%N.

(** A continuation byte: 0x80-0xBF. *)
Definition cont (b : N) : bool := within 128 191 b.

(** [DecodeRune p]: the first rune of [p] and its width in bytes;
    [(RuneError, 1)] for an invalid encoding, [(RuneError, 0)] for no
    input. *)
Definition DecodeRune (p : bytes) : N * nat :=
  match p with
  | [] => (RuneError, 0)
  | c0 :: p1 =>
      let p0 := code c0 in
      if (p0 <? RuneSelf)%N then (p0, 1)
      else
        match first p0 with
        | None => (RuneError, 1)
        | Some (sz, lo, hi) =>
            if Nat.ltb (length p) sz then (RuneError, 1)
            else
              match p1 with
              | [] => (RuneError, 1)
              | c1 :: p2 =>
                  let b1 := code c1 in
                  if negb (within lo hi b1) then (RuneError, 1)
                  else if Nat.leb sz 2
                  then (N.lor (N.shiftl (N.land p0 31) 6) (N.land b1 63), 2)
                  else
                    match p2 with
                    | [] => (RuneError, 1)
                    | c2 :: p3 =>
                        let b2 := code c2 in
                        if negb (cont b2) then (RuneError, 1)
                        else if Nat.leb sz 3
                        then (N.lor (N.shiftl (N.land p0 15) 12)
                                (N.lor (N.shiftl (N.land b1 63) 6) (N.land b2 63)), 3)
                        else
                          match p3 with
                          | [] => (RuneError, 1)
                          | c3 :: _ =>
                              let b3 := code c3 in
                              if negb (cont b3) then (RuneError, 1)
                              else (N.lor (N.shiftl (N.land p0 7) 18)
                                      (N.lor (N.shiftl (N.land b1 63) 12)
                                         (N.lor (N.shiftl (N.land b2 63) 6)
                                            (N.land b3 63))), 4)
                          end
                    end
              end
        end
  end.

Definition enc3 (r : N) : bytes :=
  [chr (N.lor 224 (N.shiftr r 12));
   chr (N.lor 128 (N.land (N.shiftr r 6) 63));
   chr (N.lor 128 (N.land r 63))].

(** [EncodeRune r]: the UTF-8 encoding of [r]; of U+FFFD when [r] is a
    surrogate or out of range. *)
Definition EncodeRune (r : N) : bytes :=
  if (r <=? 127)%N then [chr r]
  else if (r <=? 2047)%N then
    [chr (N.lor 192 (N.shiftr r 6)); chr (N.lor 128 (N.land r 63))]
  else if ((MaxRune <? r) || ((55296 <=? r) && (r <=? 57343)))%N then enc3 RuneError
  else if (r <=? 65535)%N then enc3 r
  else
    [chr (N.lor 240 (N.shiftr r 18));
     chr (N.lor 128 (N.land (N.shiftr r 12) 63));
     chr (N.lor 128 (N.land (N.shiftr r 6) 63));
     chr (N.lor 128 (N.land r 63))].

End utf8.

(* ================================================================= *)
(** ** Package encoding/json *)

Module json.

Definition isDigit (c : ascii) : bool := utf8.within 48 57 (code c).

Definition isHex (c : ascii) : bool :=
  isDigit c || utf8.within 97 102 (code c) || utf8.within 65 70 (code c).

(** A decimal: sign, digits (the first one not zero) and the position of
    the decimal point; the value is 0.d1d2...dn * 10^dp, and zero has no
    digit. *)
Record decimal : Type := mkDecimal {
  neg : bool;
  d : list N;
  dp : Z
}.

(** The float64 type with the two conversions of package strconv that the
    decoder and the encoder use.  [ParseFloat] is applied to number
    literals the scanner has accepted and fails on a value out of range;
    [Shortest] gives the shortest decimal that reads back as the same
    float64, the digits [FormatFloat] prints. *)
Class Float64 : Type := {
  float64 : Type;
  ParseFloat : bytes -> option float64;
  Shortest : float64 -> decimal
}.

(** *** Scanner (scanner.go)

    The scanner reads one byte at a time.  Its state is the step function
    to apply to the next byte and the stack of the containers that are
    open; here each stack entry also holds what has been read of its
    container and each step state the bytes of the literal being read, so
    that the scan yields the syntax tree of the text. *)

Inductive text : Type :=
| TNull
| TBool (b : bool)
| TNumber (lit : bytes)
| TString (s : bytes)
| TArray (elems : list text)
| TObject (fields : list (bytes * text)).

Inductive frame : Type :=
| parseArrayValue (acc : list text)
| parseObjectKey (acc : list (bytes * text)) (key : option bytes)
| parseObjectValue (acc : list (bytes * text)) (key : bytes) (v : option text).

Inductive lex : Type :=
| stateBeginValue
| stateBeginValueOrEmpty
| stateBeginStringOrEmpty
| stateBeginString
| stateEndValue
| stateEndTop
| stateInString (raw : bytes)
| stateInStringEsc (raw : bytes)
| stateInStringEscU (raw : bytes) (left : nat)
| stateNeg (lit : bytes)
| state0 (lit : bytes)
| state1 (lit : bytes)
| stateDot (lit : bytes)
| stateDot0 (lit : bytes)
| stateE (lit : bytes)
| stateESign (lit : bytes)
| stateE0 (lit : bytes)
| stateLit (rest : bytes) (v : text).

Record scanner : Type := mkScanner {
  step : lex;
  parseState : list frame;
  top : option text
}.

Definition isSpace (c : ascii) : bool :=
  Ascii.eqb c SPACE || Ascii.eqb c TAB || Ascii.eqb c CR || Ascii.eqb c LF.

Definition hexval (c : ascii) : N :=
  let b := code c in
  if isDigit c then b - 48
  else if utf8.within 97 102 b then b - 87
  else b - 55.

(** [getu4]: the value of four hexadecimal digits. *)
Definition getu4 (a b c d : ascii) : N :=
  hexval a * 4096 + hexval b * 256 + hexval c * 16 + hexval d.

(** [unquote]: the string a literal stands for, from the bytes between
    its quotes.  Escapes are replaced, a surrogate pair becomes one rune,
    and bytes that are not valid UTF-8 become U+FFFD.  [skip] bytes have
    already been accounted for. *)
Fixpoint unquote_go (skip : nat) (s : bytes) : option bytes :=
  match s with
  | [] => Some []
  | c :: s' =>
      match skip with
      | S k => unquote_go k s'
      | 0 =>
          let emit (out : bytes) (k : nat) :=
            option_map (app out) (unquote_go k s') in
          if Ascii.eqb c BACKSLASH then
            match s' with
            | [] => None
            | e :: s'' =>
                if Ascii.eqb e QUOTE || Ascii.eqb e BACKSLASH || Ascii.eqb e "/"
                   || Ascii.eqb e APOSTROPHE then emit [e] 1
                else if Ascii.eqb e "b" then emit [chr 8] 1
                else if Ascii.eqb e "f" then emit [chr 12] 1
                else if Ascii.eqb e "n" then emit [LF] 1
                else if Ascii.eqb e "r" then emit [CR] 1
                else if Ascii.eqb e "t" then emit [TAB] 1
                else if Ascii.eqb e "u" then
                  match s'' with
                  | h1 :: h2 :: h3 :: h4 :: rest =>
                      if isHex h1 && isHex h2 && isHex h3 && isHex h4 then
                        let rr := getu4 h1 h2 h3 h4 in
                        if utf8.within 55296 57343 rr then
                          match rest with
                          | b' :: u' :: g1 :: g2 :: g3 :: g4 :: _ =>
                              let rr1 := getu4 g1 g2 g3 g4 in
                              if Ascii.eqb b' BACKSLASH && Ascii.eqb u' "u"
                                 && isHex g1 && isHex g2 && isHex g3 && isHex g4
                                 && utf8.within 55296 56319 rr
                                 && utf8.within 56320 57343 rr1
                              then emit (utf8.EncodeRune
                                           ((rr - 55296) * 1024 + (rr1 - 56320) + 65536)) 11
                              else emit (utf8.EncodeRune utf8.RuneError) 5
                          | _ => emit (utf8.EncodeRune utf8.RuneError) 5
                          end
                        else emit (utf8.EncodeRune rr) 5
                      else None
                  | _ => None
                  end
                else None
            end
          else if Ascii.eqb c QUOTE || (code c <? 32)%N then None
          else if (code c <? utf8.RuneSelf)%N then emit [c] 0
          else
            let (rr, size) := utf8.DecodeRune s in
            emit (utf8.EncodeRune rr) (pred size)
      end
  end.

Definition unquote (raw : bytes) : option bytes := unquote_go 0 raw.

(** A value is complete: it goes to the container on top of the stack,
    or it is the value of the whole text. *)
Definition endOfValue (v : text) (st : list frame) (t : option text) : option scanner :=
  match st with
  | [] => Some (mkScanner stateEndValue [] (Some v))
  | parseArrayValue acc :: st' =>
      Some (mkScanner stateEndValue (parseArrayValue (v :: acc) :: st') t)
  | parseObjectKey acc None :: st' =>
      match v with
      | TString k => Some (mkScanner stateEndValue (parseObjectKey acc (Some k) :: st') t)
      | _ => None
      end
  | parseObjectValue acc k None :: st' =>
      Some (mkScanner stateEndValue (parseObjectValue acc k (Some v) :: st') t)
  | _ => None
  end.

(** [stateEndValue]: the byte after a value. *)
Definition endValue (s : scanner) (c : ascii) : option scanner :=
  match parseState s with
  | [] =>
      (* the top-level value was complete before this byte *)
      if isSpace c then Some (mkScanner stateEndTop [] (top s)) else None
  | f :: st' =>
      if isSpace c then Some (mkScanner stateEndValue (parseState s) (top s))
      else
        match f with
        | parseObjectKey acc (Some k) =>
            if Ascii.eqb c ":"
            then Some (mkScanner stateBeginValue (parseObjectValue acc k None :: st') (top s))
            else None
        | parseObjectValue acc k (Some v) =>
            if Ascii.eqb c ","
            then Some (mkScanner stateBeginString
                         (parseObjectKey ((k, v) :: acc) None :: st') (top s))
            else if Ascii.eqb c "}"
            then endOfValue (TObject (rev' ((k, v) :: acc))) st' (top s)
            else None
        | parseArrayValue acc =>
            if Ascii.eqb c ","
            then Some (mkScanner stateBeginValue (parseState s) (top s))
            else if Ascii.eqb c "]"
            then endOfValue (TArray (rev' acc)) st' (top s)
            else None
        | _ => None
        end
  end.

(** The end of a number literal: the number is complete and the byte that
    ended it is read in [stateEndValue]. *)
Definition endNumber (lit : bytes) (s : scanner) (c : ascii) : option scanner :=
  match endOfValue (TNumber (rev' lit)) (parseState s) (top s) with
  | Some s' => endValue s' c
  | None => None
  end.

Definition beginValue (s : scanner) (c : ascii) : option scanner :=
  let goto (l : lex) := Some (mkScanner l (parseState s) (top s)) in
  if isSpace c then goto stateBeginValue
  else if Ascii.eqb c "{" then
    Some (mkScanner stateBeginStringOrEmpty (parseObjectKey [] None :: parseState s) (top s))
  else if Ascii.eqb c "[" then
    Some (mkScanner stateBeginValueOrEmpty (parseArrayValue [] :: parseState s) (top s))
  else if Ascii.eqb c QUOTE then goto (stateInString [])
  else if Ascii.eqb c "-" then goto (stateNeg [c])
  else if Ascii.eqb c "0" then goto (state0 [c])
  else if Ascii.eqb c "t" then goto (stateLit (B "rue") (TBool true))
  else if Ascii.eqb c "f" then goto (stateLit (B "alse") (TBool false))
  else if Ascii.eqb c "n" then goto (stateLit (B "ull") TNull)
  else if utf8.within 49 57 (code c) then goto (state1 [c])
  else None.

Definition beginString (s : scanner) (c : ascii) : option scanner :=
  if isSpace c then Some (mkScanner stateBeginString (parseState s) (top s))
  else if Ascii.eqb c QUOTE
  then Some (mkScanner (stateInString []) (parseState s) (top s))
  else None.

(** One byte. *)
Definition scan (s : scanner) (c : ascii) : option scanner :=
  let goto (l : lex) := Some (mkScanner l (parseState s) (top s)) in
  let isE := Ascii.eqb c "e" || Ascii.eqb c "E" in
  match step s with
  | stateBeginValue => beginValue s c
  | stateBeginValueOrEmpty =>
      if isSpace c then goto stateBeginValueOrEmpty
      else if Ascii.eqb c "]" then endValue s c
      else beginValue s c
  | stateBeginStringOrEmpty =>
      if isSpace c then goto stateBeginStringOrEmpty
      else if Ascii.eqb c "}" then
        match parseState s with
        | parseObjectKey acc None :: st' => endOfValue (TObject (rev' acc)) st' (top s)
        | _ => None
        end
      else beginString s c
  | stateBeginString => beginString s c
  | stateEndValue => endValue s c
  | stateEndTop => if isSpace c then goto stateEndTop else None
  | stateInString raw =>
      if Ascii.eqb c QUOTE then
        match unquote (rev' raw) with
        | Some str => endOfValue (TString str) (parseState s) (top s)
        | None => None
        end
      else if Ascii.eqb c BACKSLASH then goto (stateInStringEsc (c :: raw))
      else if (code c <? 32)%N then None
      else goto (stateInString (c :: raw))
  | stateInStringEsc raw =>
      if Ascii.eqb c "b" || Ascii.eqb c "f" || Ascii.eqb c "n" || Ascii.eqb c "r"
         || Ascii.eqb c "t" || Ascii.eqb c BACKSLASH || Ascii.eqb c "/"
         || Ascii.eqb c QUOTE
      then goto (stateInString (c :: raw))
      else if Ascii.eqb c "u" then goto (stateInStringEscU (c :: raw) 4)
      else None
  | stateInStringEscU raw n =>
      if isHex c then
        match n with
        | 0 | 1 => goto (stateInString (c :: raw))
        | S k => goto (stateInStringEscU (c :: raw) k)
        end
      else None
  | stateNeg lit =>
      if Ascii.eqb c "0" then goto (state0 (c :: lit))
      else if utf8.within 49 57 (code c) then goto (state1 (c :: lit))
      else None
  | state1 lit =>
      if isDigit c then goto (state1 (c :: lit))
      else if Ascii.eqb c "." then goto (stateDot (c :: lit))
      else if isE then goto (stateE (c :: lit))
      else endNumber lit s c
  | state0 lit =>
      if Ascii.eqb c "." then goto (stateDot (c :: lit))
      else if isE then goto (stateE (c :: lit))
      else endNumber lit s c
  | stateDot lit =>
      if isDigit c then goto (stateDot0 (c :: lit)) else None
  | stateDot0 lit =>
      if isDigit c then goto (stateDot0 (c :: lit))
      else if isE then goto (stateE (c :: lit))
      else endNumber lit s c
  | stateE lit =>
      if Ascii.eqb c "+" || Ascii.eqb c "-" then goto (stateESign (c :: lit))
      else if isDigit c then goto (stateE0 (c :: lit))
      else None
  | stateESign lit =>
      if isDigit c then goto (stateE0 (c :: lit)) else None
  | stateE0 lit =>
      if isDigit c then goto (stateE0 (c :: lit))
      else endNumber lit s c
  | stateLit rest v =>
      match rest with
      | [] => None
      | x :: rest' =>
          if Ascii.eqb c x then
            match rest' with
            | [] => endOfValue v (parseState s) (top s)
            | _ => goto (stateLit rest' v)
            end
          else None
      end
  end.

Fixpoint scanAll (s : scanner) (data : bytes) : option scanner :=
  match data with
  | [] => Some s
  | c :: data' =>
      match scan s c with
      | Some s' => scanAll s' data'
      | None => None
      end
  end.

(** [eof]: the text is over; the scanner is given one space so that a
    number at the end is completed. *)
Definition eof (s : scanner) : option text :=
  match scan s SPACE with
  | Some s' =>
      match step s', parseState s' with
      | stateEndTop, [] => top s'
      | _, _ => None
      end
  | None => None
  end.

(** [checkValid], yielding the syntax tree of a valid text. *)
Definition checkValid (data : bytes) : option text :=
  match scanAll (mkScanner stateBeginValue [] None) data with
  | Some s => eof s
  | None => None
  end.

(** *** Go values (decode.go)

    What [Unmarshal] stores in an [interface{}]: nil, bool, float64,
    string, []interface{} and map[string]interface{}.  A map is kept as
    the list of its entries in increasing key order, the order in which
    the encoder writes them. *)

Section Values.
Context {F : Float64}.

Inductive value : Type :=
| VNil
| VBool (b : bool)
| VFloat (f : float64)
| VString (s : bytes)
| VSlice (elems : list value)
| VMap (entries : list (bytes * value)).

(** [m[key] = v]. *)
Fixpoint mapassign (key : bytes) (v : value) (m : list (bytes * value))
  : list (bytes * value) :=
  match m with
  | [] => [(key, v)]
  | (k, x) :: m' =>
      if beq key k then (key, v) :: m'
      else if bltb key k then (key, v) :: m
      else (k, x) :: mapassign key v m'
  end.

(** [valueInterface]: the Go value of a syntax tree; [None] when a number
    is out of the range of float64 (an UnmarshalTypeError). *)
Fixpoint valueInterface (t : text) : option value :=
  match t with
  | TNull => Some VNil
  | TBool b => Some (VBool b)
  | TNumber lit => option_map VFloat (ParseFloat lit)
  | TString s => Some (VString s)
  | TArray elems =>
      option_map VSlice
        ((fix arrayInterface (l : list text) : option (list value) :=
            match l with
            | [] => Some []
            | x :: l' =>
                match valueInterface x, arrayInterface l' with
                | Some v, Some vs => Some (v :: vs)
                | _, _ => None
                end
            end) elems)
  | TObject fields =>
      option_map VMap
        ((fix objectInterface (m : list (bytes * value)) (l : list (bytes * text))
            : option (list (bytes * value)) :=
            match l with
            | [] => Some m
            | (k, x) :: l' =>
                match valueInterface x with
                | Some v => objectInterface (mapassign k v m) l'
                | None => None
                end
            end) [] fields)
  end.

Fixpoint arrayInterface (l : list text) : option (list value) :=
  match l with
  | [] => Some []
  | x :: l' =>
      match valueInterface x, arrayInterface l' with
      | Some v, Some vs => Some (v :: vs)
      | _, _ => None
      end
  end.

(** [Unmarshal(data, &o)] for [o] of type [interface{}]. *)
Definition Unmarshal (data : bytes) : value * option error :=
  match checkValid data with
  | None => (VNil, Some SyntaxError)
  | Some t =>
      match valueInterface t with
      | Some v => (v, None)
      | None => (VNil, Some UnmarshalTypeError)
      end
  end.

(** *** Encoder (encode.go) *)

(** [htmlSafeSet]: the ASCII bytes written as they are. *)
Definition htmlSafe (c : ascii) : bool :=
  utf8.within 32 127 (code c)
  && negb (Ascii.eqb c QUOTE || Ascii.eqb c BACKSLASH || Ascii.eqb c "<"
           || Ascii.eqb c ">" || Ascii.eqb c "&").

(** [hex[n]]. *)
Definition hex (n : N) : ascii :=
  nth (N.to_nat n) (B "0123456789abcdef") "0"%char.

Definition digit (n : N) : ascii :=
  nth (N.to_nat n) (B "0123456789") "0"%char.

(** The digit at position [i] of a decimal, 0 outside of its digits. *)
Definition digitAt (ds : list N) (i : Z) : ascii :=
  if (i <? 0)%Z then "0"%char
  else match nth_error ds (Z.to_nat i) with
       | Some x => digit x
       | None => "0"%char
       end.

Definition digitsFrom (ds : list N) (from : Z) (n : nat) : bytes :=
  map (fun i => digitAt ds (from + Z.of_nat i)) (seq 0 n).

(** A natural number in decimal, most significant digit first. *)
Fixpoint decimalDigits (fuel : nat) (n : N) (acc : bytes) : bytes :=
  match fuel with
  | 0 => acc
  | S fuel' =>
      let acc' := digit (N.modulo n 10) :: acc in
      if (n <? 10)%N then acc' else decimalDigits fuel' (n / 10) acc'
  end.

Definition itoa (n : N) : bytes := decimalDigits (S (N.to_nat (N.log2 n))) n [].

(** Format 'f' with the shortest digits: [%f] of strconv.FormatFloat with
    precision -1. *)
Definition fmtF (x : decimal) : bytes :=
  let nd := Z.of_nat (length (d x)) in
  (if neg x then B "-" else [])
    ++ (if (0 <? dp x)%Z then digitsFrom (d x) 0 (Z.to_nat (dp x)) else B "0")
    ++ (if (dp x <? nd)%Z
        then B "." ++ digitsFrom (d x) (dp x) (Z.to_nat (nd - dp x))
        else []).

(** Format 'e' with the shortest digits, the exponent written with two
    digits at least; the encoder then turns e-0X into e-X. *)
Definition fmtE (x : decimal) : bytes :=
  let nd := length (d x) in
  let exp := match d x with [] => 0%Z | _ => (dp x - 1)%Z end in
  let ex := itoa (Z.to_N (Z.abs exp)) in
  (if neg x then B "-" else [])
    ++ [digitAt (d x) 0]
    ++ (if Nat.ltb 1 nd then B "." ++ digitsFrom (d x) 1 (nd - 1) else [])
    ++ B "e"
    ++ (if (exp <? 0)%Z
        then B "-" ++ ex
        else B "+" ++ (if Nat.ltb (length ex) 2 then B "0" ++ ex else ex)).

(** [floatEncoder]: format 'e' for a magnitude below 1e-6 or of 1e21 and
    more, format 'f' otherwise. *)
Definition floatEncoder (f : float64) : bytes :=
  let x := Shortest f in
  match d x with
  | [] => fmtF x
  | _ => if ((dp x <? -5) || (21 <? dp x))%Z then fmtE x else fmtF x
  end.

(** What is left of a multi-byte rune: bytes to copy, or bytes to leave
    out because the rune has been written as an escape. *)
Inductive pending : Type :=
| Copy (n : nat)
| Drop (n : nat).

Fixpoint encodeString_go (p : pending) (s : bytes) : bytes :=
  match s with
  | [] => []
  | c :: s' =>
      match p with
      | Copy (S k) => c :: encodeString_go (Copy k) s'
      | Drop (S k) => encodeString_go (Drop k) s'
      | _ =>
          if (code c <? utf8.RuneSelf)%N then
            (if htmlSafe c then [c]
             else if Ascii.eqb c BACKSLASH || Ascii.eqb c QUOTE then [BACKSLASH; c]
             else if Ascii.eqb c LF then BACKSLASH :: B "n"
             else if Ascii.eqb c CR then BACKSLASH :: B "r"
             else if Ascii.eqb c TAB then BACKSLASH :: B "t"
             else BACKSLASH :: B "u00"
                    ++ [hex (N.shiftr (code c) 4); hex (N.land (code c) 15)])
            ++ encodeString_go (Copy 0) s'
          else
            let (r, size) := utf8.DecodeRune s in
            if (r =? utf8.RuneError)%N && Nat.eqb size 1 then
              BACKSLASH :: B "ufffd" ++ encodeString_go (Copy 0) s'
            else if (r =? 8232)%N || (r =? 8233)%N then
              BACKSLASH :: B "u202" ++ [hex (N.land r 15)]
                ++ encodeString_go (Drop (pred size)) s'
            else c :: encodeString_go (Copy (pred size)) s'
      end
  end.

(** [encodeState.string(s, escapeHTML = true)]. *)
Definition encodeString (s : bytes) : bytes :=
  QUOTE :: encodeString_go (Copy 0) s ++ [QUOTE].

Fixpoint join (parts : list bytes) (sep : bytes) : bytes :=
  match parts with
  | [] => []
  | [x] => x
  | x :: parts' => x ++ sep ++ join parts' sep
  end.

(** The encoding of a Go value: compact, map keys in increasing order. *)
Fixpoint encode (v : value) : bytes :=
  match v with
  | VNil => B "null"
  | VBool true => B "true"
  | VBool false => B "false"
  | VFloat f => floatEncoder f
  | VString s => encodeString s
  | VSlice elems => B "[" ++ join (map encode elems) (B ",") ++ B "]"
  | VMap entries =>
      B "{"
        ++ join (map (fun kv => encodeString (fst kv) ++ B ":" ++ encode (snd kv))
                   entries) (B ",")
        ++ B "}"
  end.

(** [Marshal(v)] for a value that [Unmarshal] has produced.  Such a value
    holds no NaN, no infinity and nothing that cannot be encoded, so the
    error is always nil. *)
Definition Marshal (v : value) : bytes * option error := (encode v, None).

(** A field of type [[]interface{}]: [None] is the nil slice. *)
Definition slice : Type := option (list value).

Definition encodeSlice (s : slice) : bytes :=
  match s with
  | None => B "null"
  | Some elems => encode (VSlice elems)
  end.

End Values.

(** *** Struct fields (fold.go)

    A key of a JSON object names a struct field when it is the field's
    name up to the case of its letters. *)

Definition caseMask (c : ascii) : N := N.land (code c) 223.

Definition isLetter (c : ascii) : bool := utf8.within 65 90 (caseMask c).

(** [simpleLetterEqualFold], for a name made of letters other than k
    and s. *)
Fixpoint simpleLetterEqualFold (s t : bytes) : bool :=
  match s, t with
  | [], [] => true
  | a :: s', b :: t' => (caseMask a =? caseMask b)%N && simpleLetterEqualFold s' t'
  | _, _ => false
  end.

(** [equalFoldRight], for a name with a k or an s in it: in the key, the
    Kelvin sign U+212A stands for k and the long s U+017F for s. *)
Fixpoint equalFoldRight (s t : bytes) : bool :=
  match s with
  | [] => match t with [] => true | _ => false end
  | sb :: s' =>
      match t with
      | [] => false
      | tb :: t' =>
          if (code tb <? utf8.RuneSelf)%N then
            (Ascii.eqb sb tb || (isLetter sb && (caseMask sb =? caseMask tb)%N))
            && equalFoldRight s' t'
          else
            let (tr, size) := utf8.DecodeRune t in
            if (Ascii.eqb sb "s" || Ascii.eqb sb "S") && (tr =? 383)%N
            then equalFoldRight s' (skipn size t)
            else if (Ascii.eqb sb "k" || Ascii.eqb sb "K") && (tr =? 8490)%N
            then equalFoldRight s' (skipn size t)
            else false
      end
  end.

End json.

(* ================================================================= *)
(** ** Streams: io.Reader, ioutil.ReadAll and bufio.Scanner *)

(** What a reader delivers: its bytes, followed by io.EOF ([None]) or by an
    error. *)
Record Reader : Type := mkReader {
  data : bytes;
  failure : option error
}.

Definition NewReader (s : bytes) : Reader := mkReader s None.

Module ioutil.

Definition ReadAll (r : Reader) : bytes * option error := (data r, failure r).

End ioutil.

Module bufio.

(** The largest buffer a Scanner allocates. *)
Definition MaxScanTokenSize : N := 65536.

Definition dropCR (line : bytes) : bytes :=
  match rev line with
  | c :: r => if Ascii.eqb c CR then rev r else line
  | [] => line
  end.

(** A Scanner with the split function [ScanLines] and the default buffer,
    run to its end: the tokens of the successive calls of [Scan] that
    return true, and the value of [Err] afterwards.

    [line] holds, in reverse, the [n] bytes read since the last newline.
    A line ends at a newline, and the last line need not have one; one
    carriage return before the newline is dropped.  The buffer grows up to
    [MaxScanTokenSize] bytes: when it is full and holds no newline the scan
    stops with [ErrTooLong].  When the reader fails, what is left in the
    buffer is the last token and [Err] is the reader's error. *)
Fixpoint scanLines (line : bytes) (n : N) (input : bytes) (final : option error)
  : list bytes * option error :=
  match input with
  | [] => (if (n =? 0)%N then [] else [dropCR (rev line)], final)
  | c :: input' =>
      if Ascii.eqb c LF then
        let (tokens, err) := scanLines [] 0 input' final in
        (dropCR (rev line) :: tokens, err)
      else if (MaxScanTokenSize <=? n + 1)%N then ([], Some ErrTooLong)
      else scanLines (c :: line) (n + 1) input' final
  end.

Definition Scanner (r : Reader) : list bytes * option error :=
  scanLines [] 0 (data r) (failure r).

End bufio.

(* ================================================================= *)
(** ** Server.go: constants and the JSON-line transcoder *)

Definition MODEL_NAME : bytes := B "mymodel".
Definition LOCAL_MODEL_PATH : bytes := B "/tmp/model/".
Definition MODEL_DUMMY_VERSION : bytes := B "000000/".
Definition LOCAL_INPUT_PATH : bytes := B "/tmp/input/".
Definition LOCAL_OUTPUT_PATH : bytes := B "/tmp/output/".
Definition BUCKET_PREFIX : bytes := B "gs://".
Definition OUTPUT_PREFIX : bytes := B "prediction_".
Definition TF_PORT : bytes := B "8501".
Definition TF_URL : bytes :=
  B "http://localhost:" ++ TF_PORT ++ B "/v1/models/" ++ MODEL_NAME ++ B ":predict".
Definition TF_CONTENT_TYPE : bytes := B "application/json".
Definition TF_TIMEOUT : N := 30.

(** [errors.New]. *)
Definition errors_New (msg : bytes) : error := errorString msg.

(** [err.Error()]: the message of an error; for the errors of the
    libraries, a text that stands for their message. *)
Definition Error_ (e : error) : bytes :=
  match e with
  | errorString msg => msg
  | SyntaxError => B "invalid character in JSON input"
  | UnmarshalTypeError => B "json: cannot unmarshal value"
  | ErrTooLong => B "bufio.Scanner: token too long"
  | External msg => msg
  end.

(** Extract the location from Param. *)
Definition extractLocation (location : bytes) : go (bytes * bytes * option error) :=
  if negb (strings.HasPrefix location BUCKET_PREFIX) then
    Return ([], [], Some (errors_New (B "location must start with '" ++ BUCKET_PREFIX ++ B "'")))
  else
    match strings.slice_from location (len BUCKET_PREFIX) with
    | Panic m => Panic m
    | Return location =>
        let s := strings.SplitN location (B "/") 2 in
        match index s 0 with
        | Panic m => Panic m
        | Return s0 =>
            match index s 1 with
            | Panic m => Panic m
            | Return s1 => Return (s0, s1, None)
            end
        end
    end.

Section Transcoder.
Context {F : json.Float64}.

Record tfAnswer : Type := mkAnswer {
  Prediction : json.slice;        (* `json:"predictions"` *)
  Error : bytes                   (* `json:"error"` *)
}.

Record inputPrediction : Type := mkInput {
  Instances : json.slice          (* `json:"instances"` *)
}.

Inductive tfAnswerField : Type := fPrediction | fError.

(** The field of [tfAnswer] a key names: the field with that very name,
    or else the first field whose name matches up to case. *)
Definition tfAnswer_field (key : bytes) : option tfAnswerField :=
  if beq key (B "predictions") then Some fPrediction
  else if beq key (B "error") then Some fError
  else if json.equalFoldRight (B "predictions") key then Some fPrediction
  else if json.simpleLetterEqualFold (B "error") key then Some fError
  else None.

(** One member of the object is stored in its field.  The boolean tells
    that an UnmarshalTypeError has been recorded: the decoder goes on and
    reports it at the end. *)
Definition tfAnswer_store (st : tfAnswer * bool) (member : bytes * json.text)
  : tfAnswer * bool :=
  let (a, bad) := st in
  let (key, t) := member in
  match tfAnswer_field key with
  | None => (a, bad)
  | Some fPrediction =>
      match t with
      | json.TNull => (mkAnswer None (Error a), bad)
      | json.TArray elems =>
          match json.arrayInterface elems with
          | Some vs => (mkAnswer (Some vs) (Error a), bad)
          | None => (a, true)
          end
      | _ => (a, true)
      end
  | Some fError =>
      match t with
      | json.TNull => (a, bad)
      | json.TString s => (mkAnswer (Prediction a) s, bad)
      | _ => (a, true)
      end
  end.

(** [json.Unmarshal(data, &answer)]. *)
Definition Unmarshal_tfAnswer (data : bytes) (answer : tfAnswer) : tfAnswer * option error :=
  match json.checkValid data with
  | None => (answer, Some SyntaxError)
  | Some json.TNull => (answer, None)
  | Some (json.TObject members) =>
      let (a, bad) := fold_left tfAnswer_store members (answer, false) in
      (a, if bad then Some UnmarshalTypeError else None)
  | Some _ => (answer, Some UnmarshalTypeError)
  end.

(** [json.Marshal(i)] for an [inputPrediction]. *)
Definition Marshal_inputPrediction (i : inputPrediction) : bytes * option error :=
  (B "{" ++ json.encodeString (B "instances") ++ B ":"
     ++ json.encodeSlice (Instances i) ++ B "}", None).

(** [append(s, o)]. *)
Definition append (s : json.slice) (o : json.value) : json.slice :=
  match s with
  | None => Some [o]
  | Some l => Some (l ++ [o])
  end.

(** The loop of [formatOutput] over [answer.Prediction]. *)
Fixpoint formatOutput_loop (ps : list json.value) (ret : bytes) : bytes * option error :=
  match ps with
  | [] => (ret, None)
  | p :: ps' =>
      let (b, err) := json.Marshal p in
      match err with
      | Some e => ([], Some e)
      | None => formatOutput_loop ps' (ret ++ b ++ [LF])
      end
  end.

(** Format the output as JSON lines: remove the predictions array around
    the elements of the response body. *)
Definition formatOutput (input : Reader) : bytes * option error :=
  let (output, err) := ioutil.ReadAll input in
  match err with
  | Some e => ([], Some e)
  | None =>
      (* Fix JSON unmarshal in case of error *)
      let output := strings.ReplaceAll output [BACKSLASH] [BACKSLASH; BACKSLASH] in
      let (answer, err) := Unmarshal_tfAnswer output (mkAnswer None []) in
      match err with
      | Some e => ([], Some e)
      | None =>
          if negb (beq (Error answer) []) then ([], Some (errors_New (Error answer)))
          else
            match Prediction answer with
            | None => ([], None)
            | Some ps => formatOutput_loop ps []
            end
      end
  end.

(** The loop of [formatInput] over the lines of the scanner. *)
Fixpoint formatInput_loop (tokens : list bytes) (i : inputPrediction)
  : inputPrediction * option error :=
  match tokens with
  | [] => (i, None)
  | line :: tokens' =>
      let (o, err) := json.Unmarshal line in
      match err with
      | Some e => (i, Some e)
      | None => formatInput_loop tokens' (mkInput (append (Instances i) o))
      end
  end.

(** Get the JSON lines and put them in an instances array, as the
    Tensorflow server expects them. *)
Definition formatInput (input : Reader) : bytes * option error :=
  let i := mkInput (Some []) in
  let (tokens, scanErr) := bufio.Scanner input in
  let (i, err) := formatInput_loop tokens i in
  match err with
  | Some e => ([], Some e)
  | None =>
      match scanErr with
      | Some e => ([], Some e)
      | None =>
          let (b, err) := Marshal_inputPrediction i in
          match err with
          | Some e => ([], Some e)
          | None => (b, None)
          end
      end
  end.

End Transcoder.

(* ================================================================= *)
(** ** A float64 instance for the worked examples

    [Dec64] carries a number as the decimal it is written as.  That is the
    float64 nearest to the literal, printed with its shortest digits, for
    every literal of at most 15 significant digits in the normal range of
    float64; the examples stay within those.  A literal beyond the largest
    float64 is out of range. *)

Module Dec64.

Fixpoint span (p : ascii -> bool) (s : bytes) : bytes * bytes :=
  match s with
  | [] => ([], [])
  | c :: s' =>
      if p c then let (a, b) := span p s' in (c :: a, b) else ([], s)
  end.

Definition digitsOf (s : bytes) : list N := map (fun c => (code c - 48)%N) s.

Definition number (s : bytes) : Z :=
  Z.of_N (fold_left (fun acc x => (acc * 10 + x)%N) (digitsOf s) 0%N).

Fixpoint dropZeros (l : list N) : list N :=
  match l with
  | x :: l' => if (x =? 0)%N then dropZeros l' else l
  | [] => []
  end.

Definition parse (lit : bytes) : json.decimal :=
  let (sign, s) :=
    match lit with
    | c :: r => if Ascii.eqb c "-" then (true, r) else (false, lit)
    | [] => (false, lit)
    end in
  let (ip, s1) := span json.isDigit s in
  let (fp, s2) :=
    match s1 with
    | c :: r => if Ascii.eqb c "." then span json.isDigit r else ([], s1)
    | [] => ([], s1)
    end in
  let exp :=
    match s2 with
    | _ :: c :: r =>
        if Ascii.eqb c "-" then (- number r)%Z
        else if Ascii.eqb c "+" then number r
        else number (c :: r)
    | _ => 0%Z
    end in
  let ds := digitsOf (ip ++ fp) in
  let ds1 := dropZeros ds in
  let lead := Z.of_nat (length ds - length ds1) in
  let ds2 := rev (dropZeros (rev ds1)) in
  match ds2 with
  | [] => json.mkDecimal sign [] 0
  | _ => json.mkDecimal sign ds2 (Z.of_nat (length ip) - lead + exp)
  end.

(** Values from 2^1024 - 2^970 on round to an infinity. *)
Definition overflows (x : json.decimal) : bool :=
  if (json.dp x <? 309)%Z then false
  else if (309 <? json.dp x)%Z then true
  else
    let n := Z.of_N (fold_left (fun acc y => (acc * 10 + y)%N) (json.d x) 0%N) in
    let k := (309 - Z.of_nat (length (json.d x)))%Z in
    let t := (2 ^ 1024 - 2 ^ 970)%Z in
    if (0 <=? k)%Z then (t <=? n * 10 ^ k)%Z else (t * 10 ^ (- k) <=? n)%Z.

Definition ParseFloat (lit : bytes) : option json.decimal :=
  let x := parse lit in
  if overflows x then None else Some x.

#[export] Instance float64 : json.Float64 := {|
  json.float64 := json.decimal;
  json.ParseFloat := ParseFloat;
  json.Shortest := fun x => x
|}.

(** The float64 of a positive decimal. *)
Definition num (digits : list N) (dp : Z) : json.float64 :=
  json.mkDecimal false digits dp.

End Dec64.

(* ================================================================= *)
(** ** The world outside the program

    The object store, the local file system, the child process and the
    HTTP client are not part of the program: they are a record of
    operations over a state [W] of the world, and every property below
    holds for every such record.  Each call is also written to a trace, so
    that what the program does, and in which order, can be stated.

    Log output is not modelled, nor is the closing of local files. *)

Record FileInfo : Type := mkFileInfo {
  Name : bytes;
  IsDir : bool
}.

(** [*os.Process]. *)
Inductive Process : Type := mkProcess (Pid : N).

(** [*exec.Cmd]: [Process] is nil until the command has been started. *)
Record Cmd : Type := mkCmd {
  Args : list bytes;
  Process_ : option Process
}.

(** One [Read] of the standard error of the child process: the time it
    blocks, in seconds, the bytes it returns (1024 at most), its error, and
    the error of copying the bytes to the standard error of the server. *)
Record StderrRead : Type := mkStderrRead {
  blocks : N;
  chunk : bytes;
  readErr : option error;
  writeErr : option error
}.

Inductive event : Type :=
| EvRemoveAll (path : bytes)
| EvMkdirAll (path : bytes)
| EvNewClient
| EvObjects (bucket prefix : bytes)
| EvNewReader (bucket name : bytes)
| EvCreate (path : bytes)
| EvWriteFile (path content : bytes)
| EvReadDir (path : bytes)
| EvOpen (path : bytes)
| EvWriteObject (bucket name content : bytes)
| EvCloseObject (bucket name : bytes)
| EvStart (args : list bytes) (r : Process + error)
| EvStderr (p : Process)
| EvKill (p : Process)
| EvPost (url contentType body : bytes).

Record Env (W : Type) : Type := mkEnv {
  (* os *)
  os_RemoveAll : bytes -> W -> option error * W;
  os_MkdirAll : bytes -> W -> option error * W;
  os_Create : bytes -> W -> option error * W;
  os_Write : bytes -> bytes -> W -> option error * W;
  os_ReadDir : bytes -> W -> (list FileInfo * option error) * W;
  os_Open : bytes -> W -> (Reader * option error) * W;
  (* cloud.google.com/go/storage *)
  storage_NewClient : W -> option error * W;
  (* the names an object iterator yields before iterator.Done ([None]) or
     an error *)
  storage_Objects : bytes -> bytes -> W -> (list bytes * option error) * W;
  storage_NewReader : bytes -> bytes -> W -> (Reader * option error) * W;
  storage_Write : bytes -> bytes -> bytes -> W -> option error * W;
  storage_Close : bytes -> bytes -> W -> option error * W;
  (* os/exec *)
  exec_Start : list bytes -> W -> (Process + error) * W;
  exec_Stderr : Process -> W -> list StderrRead * W;
  exec_Kill : Process -> W -> option error * W;
  (* net/http *)
  http_Post : bytes -> bytes -> bytes -> W -> (Reader * option error) * W
}.

(** A request: the values of each query parameter, [r.URL.Query()]. *)
Record Request : Type := mkRequest {
  Query : list (bytes * list bytes)
}.

Fixpoint Query_get (q : list (bytes * list bytes)) (key : bytes) : option (list bytes) :=
  match q with
  | [] => None
  | (k, vs) :: q' => if beq k key then Some vs else Query_get q' key
  end.

Definition StatusOK : Z := 200.
Definition StatusBadRequest : Z := 400.
Definition StatusInternalServerError : Z := 500.

(** *** The monad of the handler *)

Section Monad.
Variable W : Type.

(** The state of a run: the world, the calls made so far (oldest first),
    and the response written so far. *)
Record State : Type := mkState {
  world : W;
  trace : list event;
  header : option Z;
  body : bytes
}.

(** How a run ends: with a value, in a panic, or without an end within the
    recursion budget given to the model. *)
Inductive outcome (A : Type) : Type :=
| Value (a : A)
| Panicking (msg : bytes)
| Unfinished.

Definition M (A : Type) : Type := State -> outcome A * State.

Definition ret {A} (a : A) : M A := fun s => (Value a, s).

Definition bind {A B} (m : M A) (f : A -> M B) : M B :=
  fun s =>
    match m s with
    | (Value a, s') => f a s'
    | (Panicking _ msg, s') => (Panicking _ msg, s')
    | (Unfinished _, s') => (Unfinished _, s')
    end.

Definition unfinished {A} : M A := fun s => (Unfinished A, s).

Definition panic {A} (msg : bytes) : M A := fun s => (Panicking A msg, s).

(** Pure code that may panic. *)
Definition lift {A} (g : go A) : M A :=
  match g with
  | Return a => ret a
  | Panic msg => panic msg
  end.

(** A call to the world, written to the trace. *)
Definition call {A} (ev : A -> event) (op : W -> A * W) : M A :=
  fun s =>
    let (a, w) := op (world s) in
    (Value a, mkState w (trace s ++ [ev a]) (header s) (body s)).

(** [defer d] followed by [rest], the remainder of the function: [d] runs
    when [rest] returns and when it panics. *)
Definition defer {A} (d : M unit) (rest : M A) : M A :=
  fun s =>
    match rest s with
    | (Unfinished _, s') => (Unfinished _, s')
    | (o, s') =>
        match d s' with
        | (Value _, s'') => (o, s'')
        | (Panicking _ msg, s'') => (Panicking _ msg, s'')
        | (Unfinished _, s'') => (Unfinished _, s'')
        end
    end.

(** [w.WriteHeader(code)]. *)
Definition WriteHeader (code : Z) : M unit :=
  fun s =>
    (Value tt,
     mkState (world s) (trace s)
       (match header s with None => Some code | h => h end) (body s)).

(** [fmt.Fprintln(w, msg)]. *)
Definition Fprintln (msg : bytes) : M unit :=
  fun s =>
    (Value tt,
     mkState (world s) (trace s)
       (match header s with None => Some StatusOK | h => h end)
       (body s ++ msg ++ [LF])).

End Monad.

Arguments Value {A} a.
Arguments Panicking {A} msg.
Arguments Unfinished {A}.
Arguments ret {W A} a.
Arguments bind {W A B} m f.
Arguments unfinished {W A}.
Arguments panic {W A} msg.
Arguments lift {W A} g.
Arguments call {W A} ev op.
Arguments defer {W A} d rest.
Arguments WriteHeader {W} code.
Arguments Fprintln {W} msg.

Declare Scope go_scope.
Delimit Scope go_scope with go.
Notation "x <- c1 ;; c2" := (bind c1 (fun x => c2))
  (at level 61, c1 at next level, right associativity) : go_scope.
Notation "' pat <- c1 ;; c2" := (bind c1 (fun x => match x with pat => c2 end))
  (at level 61, pat pattern, c1 at next level, right associativity) : go_scope.
Notation "c1 ;; c2" := (bind c1 (fun _ => c2))
  (at level 61, right associativity) : go_scope.

(* ================================================================= *)
(** ** Server.go: the handler and its steps *)

(** Extract the required bucket/path params from the Query parameters. *)
Definition getParam (r : Request) (paramName : bytes) : go (bytes * bytes * option error) :=
  let missing :=
    Return ([], [], Some (errors_New (B "Query Param '" ++ paramName ++ B "' is missing"))) in
  match Query_get (Query r) paramName with
  | None => missing
  | Some param =>
      match index param 0 with
      | Panic m => Panic m
      | Return p0 =>
          if (len p0 <? 1)%Z then missing
          else
            match extractLocation p0 with
            | Panic m => Panic m
            | Return (bucket, path, err) =>
                match err with
                | Some e =>
                    Return ([], [], Some (errors_New (B "'" ++ paramName
                                                      ++ B "' bad formatted: " ++ Error_ e)))
                | None => Return (bucket, path, None)
                end
            end
      end
  end.

(** The text the Tensorflow server logs when it is ready. *)
Definition READY_MARKER : bytes := B "Exporting HTTP/REST API".

(** Run TF and capture the output.  Exit in success when the marker is
    found in the logs.  Every turn of the loop waits one second and then
    reads; the result is the captured output, the error, and the time at
    which the function returns, in seconds, or [None] when a read never
    returns. *)
Fixpoint copyAndCapture (reads : list StderrRead) (out : bytes) (t : N)
  : option (bytes * option error * N) :=
  match reads with
  | [] => None
  | r :: reads' =>
      let t' := (t + 1 + blocks r)%N in
      if Nat.ltb 0 (length (chunk r)) then
        let out' := out ++ chunk r in
        match writeErr r with
        | Some e => Some (out', Some e, t')
        | None =>
            if strings.Contains (chunk r) READY_MARKER then Some (out', None, t')
            else
              match readErr r with
              | Some e => Some (out', Some e, t')
              | None => copyAndCapture reads' out' t'
              end
        end
      else
        match readErr r with
        | Some e => Some (out, Some e, t')
        | None => copyAndCapture reads' out t'
        end
  end.

Section Server.
Context {F : json.Float64}.
Context {W : Type}.
Variable env : Env W.

Local Open Scope go_scope.

(** [io.Copy(dst, src)]: the bytes of [src] go to [write]; a source that
    delivers no byte makes no write.  The error is that of the write or
    else that of the read. *)
Definition io_Copy (write : bytes -> M W (option error)) (src : Reader) : M W (option error) :=
  match data src with
  | [] => ret (failure src)
  | _ :: _ =>
      werr <- write (data src) ;;
      match werr with
      | Some e => ret (Some e)
      | None => ret (failure src)
      end
  end.

(** Start the Tensorflow server and wait for the entry that tells it is
    ready.  The select statement takes the result of the capture when it
    comes before the timeout, and the timeout otherwise. *)
Definition startAndWaitTF (cmd : Cmd) : M W (Cmd * option error) :=
  started <- call (EvStart (Args cmd)) (exec_Start env (Args cmd)) ;;
  match started with
  | inr err => ret (cmd, Some err)
  | inl p =>
      let cmd := mkCmd (Args cmd) (Some p) in
      reads <- call (fun _ => EvStderr p) (exec_Stderr env p) ;;
      match copyAndCapture reads [] 0 with
      | Some (_, errStderr, t) =>
          if (t <? TF_TIMEOUT)%N then ret (cmd, errStderr)
          else ret (cmd, Some (errors_New (B "timeout exceeded")))
      | None => ret (cmd, Some (errors_New (B "timeout exceeded")))
      end
  end.

(** [p.Kill()]; on a nil process the call panics. *)
Definition Process_Kill (p : option Process) : M W unit :=
  match p with
  | None => panic (B "invalid memory address or nil pointer dereference")
  | Some p => _ <- call (fun _ => EvKill p) (exec_Kill env p) ;; ret tt
  end.

(** Download a single file from storage to the localDest.  The path must
    represent a GCS file. *)
Definition downloadFile (bucket path dest : bytes) : M W (option error) :=
  if strings.HasSuffix path (B "/") then
    ret (Some (errors_New (B "downloadFiles: path must be GCS file")))
  else
    '(src, err) <- call (fun _ => EvNewReader bucket path)
                        (storage_NewReader env bucket path) ;;
    match err with
    | Some e => ret (Some e)
    | None =>
        err <- call (fun _ => EvCreate dest) (os_Create env dest) ;;
        match err with
        | Some e => ret (Some e)
        | None =>
            io_Copy (fun b => call (fun _ => EvWriteFile dest b) (os_Write env dest b)) src
        end
    end.

(** The loop of [downloadFiles] over the names of the listing; [recurse]
    is the call of [downloadFiles] on a directory of the listing, and
    [done] what ends the listing. *)
Fixpoint downloadFiles_loop (recurse : bytes -> bytes -> M W (option error))
  (bucket path localDest : bytes) (done : option error) (names : list bytes)
  : M W (option error) :=
  match names with
  | [] => ret done
  | name :: names' =>
      n <- lift (strings.slice_from name (len path)) ;;
      if beq n [] then
        (* Root path of the bucket filter path *)
        downloadFiles_loop recurse bucket path localDest done names'
      else
        err <- (if strings.HasSuffix n (B "/") then
                  (* it is a directory, loop on it *)
                  recurse name (localDest ++ n)
                else downloadFile bucket name (localDest ++ n)) ;;
        match err with
        | Some e => ret (Some e)
        | None => downloadFiles_loop recurse bucket path localDest done names'
        end
  end.

(** Download files from storage to the localDest; a directory found in the
    listing is downloaded in turn.  The path must represent a GCS
    directory.  [fuel] bounds the depth of the recursion. *)
Fixpoint downloadFiles (fuel : nat) (bucket path localDest : bytes) : M W (option error) :=
  if negb (strings.HasSuffix path (B "/")) then
    ret (Some (errors_New (B "downloadFiles: path must be GCS directory")))
  else
    (* Make directory is required *)
    _ <- call (fun _ => EvMkdirAll localDest) (os_MkdirAll env localDest) ;;
    (* List all file in bucket *)
    '(names, done) <- call (fun _ => EvObjects bucket path)
                           (storage_Objects env bucket path) ;;
    downloadFiles_loop
      (match fuel with
       | 0 => fun _ _ => unfinished
       | S fuel' => downloadFiles fuel' bucket
       end) bucket path localDest done names.

(** [filepath.Separator]. *)
Definition Separator : bytes := B "/".

(** The loop of [uploadFile] over the entries of the local directory;
    [recurse] is the call of [uploadFile] on a subdirectory. *)
Fixpoint uploadFile_loop (recurse : bytes -> bytes -> M W (option error))
  (bucket path localPath : bytes) (files : list FileInfo) : M W (option error) :=
  match files with
  | [] => ret None
  | file :: files' =>
      if IsDir file then
        err <- recurse (path ++ Name file ++ B "/") (localPath ++ Name file ++ Separator) ;;
        match err with
        | Some e => ret (Some e)
        | None => uploadFile_loop recurse bucket path localPath files'
        end
      else
        '(f, err) <- call (fun _ => EvOpen (localPath ++ Name file))
                          (os_Open env (localPath ++ Name file)) ;;
        match err with
        | Some e => ret (Some e)
        | None =>
            let object := path ++ Name file in
            err <- io_Copy (fun b => call (fun _ => EvWriteObject bucket object b)
                                       (storage_Write env bucket object b)) f ;;
            match err with
            | Some e => ret (Some e)
            | None =>
                err <- call (fun _ => EvCloseObject bucket object)
                            (storage_Close env bucket object) ;;
                match err with
                | Some e => ret (Some e)
                | None => uploadFile_loop recurse bucket path localPath files'
                end
            end
        end
  end.

(** Upload the files and the subdirectories of localPath into the path of
    the bucket. *)
Fixpoint uploadFile (fuel : nat) (bucket path localPath : bytes) : M W (option error) :=
  let path := if negb (strings.HasSuffix path (B "/")) then path ++ B "/" else path in
  '(files, err) <- call (fun _ => EvReadDir localPath) (os_ReadDir env localPath) ;;
  match err with
  | Some e => ret (Some e)
  | None =>
      uploadFile_loop
        (match fuel with
         | 0 => fun _ _ => unfinished
         | S fuel' => uploadFile fuel' bucket
         end) bucket path localPath files
  end.

(** The prediction for one file of the input directory: the branch of the
    loop of [makePredictions] for an entry that is not a directory.  The
    result tells whether the function returns there, and with which
    error. *)
Definition makePredictions_file (inputPath outputPath : bytes) (file : FileInfo)
  : M W (option (option error)) :=
  (* Format input *)
  '(f, err) <- call (fun _ => EvOpen (inputPath ++ Name file))
                    (os_Open env (inputPath ++ Name file)) ;;
  match err with
  | Some e => ret (Some (Some e))
  | None =>
      let (finput, err) := formatInput f in
      match err with
      | Some e => ret (Some (Some e))
      | None =>
          (* Call TF for prediction *)
          '(resp, err) <- call (fun _ => EvPost TF_URL TF_CONTENT_TYPE finput)
                               (http_Post env TF_URL TF_CONTENT_TYPE finput) ;;
          match err with
          | Some e => ret (Some (Some e))
          | None =>
              (* Write the output *)
              let (foutput, err) := formatOutput resp in
              match err with
              | Some e => ret (Some (Some e))
              | None =>
                  let o := outputPath ++ OUTPUT_PREFIX ++ Name file in
                  err <- call (fun _ => EvCreate o) (os_Create env o) ;;
                  match err with
                  | Some e => ret (Some (Some e))
                  | None =>
                      _ <- io_Copy (fun b => call (fun _ => EvWriteFile o b)
                                               (os_Write env o b)) (NewReader foutput) ;;
                      ret None
                  end
              end
          end
      end
  end.

(** The loop of [makePredictions] over the entries of the input directory;
    [recurse] is the call of [makePredictions] on a subdirectory. *)
Fixpoint makePredictions_loop (recurse : bytes -> bytes -> M W (option error))
  (inputPath outputPath : bytes) (files : list FileInfo) : M W (option error) :=
  match files with
  | [] => ret None
  | file :: files' =>
      if IsDir file then
        err <- recurse (inputPath ++ Name file ++ Separator)
                 (outputPath ++ Name file ++ Separator) ;;
        match err with
        | Some e => ret (Some e)
        | None => makePredictions_loop recurse inputPath outputPath files'
        end
      else
        r <- makePredictions_file inputPath outputPath file ;;
        match r with
        | Some err => ret err
        | None => makePredictions_loop recurse inputPath outputPath files'
        end
  end.

(** Request the prediction to the Tensorflow server for each file and
    subdirectory of inputPath, and store the predictions in outputPath with
    the same folder structure. *)
Fixpoint makePredictions (fuel : nat) (inputPath outputPath : bytes) : M W (option error) :=
  '(files, err) <- call (fun _ => EvReadDir inputPath) (os_ReadDir env inputPath) ;;
  match err with
  | Some e => ret (Some e)
  | None =>
      (* Make directory is required *)
      _ <- call (fun _ => EvMkdirAll outputPath) (os_MkdirAll env outputPath) ;;
      makePredictions_loop
        (match fuel with
         | 0 => fun _ _ => unfinished
         | S fuel' => makePredictions fuel'
         end) inputPath outputPath files
  end.

(** The reply to a failed step. *)
Definition reply (code : Z) (msg : bytes) : M W unit :=
  WriteHeader code ;; Fprintln msg.

(** [LoadAndPredict] from the start of the Tensorflow server on: the part
    of the handler that runs under [defer cmd.Process.Kill()]. *)
Definition LoadAndPredict_started (fuel : nat) (err : option error)
  (bucketInput pathInput bucketOutput pathOutput : bytes) : M W unit :=
  match err with
  | Some _ => reply StatusInternalServerError (B "error when starting tensorflow")
  | None =>
      (* Download input: a full directory if the path ends with /, else
         only the file *)
      err <- (if strings.HasSuffix pathInput (B "/") then
                downloadFiles fuel bucketInput pathInput LOCAL_INPUT_PATH
              else
                n <- lift (strings.slice_from pathInput
                             (strings.LastIndex pathInput (B "/") + 1)) ;;
                _ <- call (fun _ => EvMkdirAll LOCAL_INPUT_PATH)
                          (os_MkdirAll env LOCAL_INPUT_PATH) ;;
                downloadFile bucketInput pathInput (LOCAL_INPUT_PATH ++ n)) ;;
      match err with
      | Some _ => reply StatusInternalServerError (B "error when downloading input files")
      | None =>
          (* Make the prediction with the inputs *)
          err <- makePredictions fuel LOCAL_INPUT_PATH LOCAL_OUTPUT_PATH ;;
          match err with
          | Some _ => reply StatusInternalServerError (B "error during predictions")
          | None =>
              (* Upload file to storage *)
              err <- uploadFile fuel bucketOutput pathOutput LOCAL_OUTPUT_PATH ;;
              WriteHeader StatusOK ;;
              Fprintln (B "predictions completed")
          end
      end
  end.

(** The command line of the Tensorflow server. *)
Definition tensorflow_model_server : Cmd :=
  mkCmd [B "tensorflow_model_server"; B "--port=8500";
         B "--rest_api_port=" ++ TF_PORT;
         B "--model_name=" ++ MODEL_NAME;
         B "--model_base_path=" ++ LOCAL_MODEL_PATH] None.

(** The handler of the only route. *)
Definition LoadAndPredict (fuel : nat) (r : Request) : M W unit :=
  (* Get Model param *)
  '(bucketModel, pathModel, err) <- lift (getParam r (B "model")) ;;
  match err with
  | Some e => reply StatusBadRequest (Error_ e)
  | None =>
      (* Model path must be the directory where the pb and variables are stored *)
      let pathModel :=
        if negb (strings.HasSuffix pathModel (B "/")) then pathModel ++ B "/"
        else pathModel in
      (* Get Input param *)
      '(bucketInput, pathInput, err) <- lift (getParam r (B "input")) ;;
      match err with
      | Some e => reply StatusBadRequest (Error_ e)
      | None =>
          (* Get Output param *)
          '(bucketOutput, pathOutput, err) <- lift (getParam r (B "output")) ;;
          match err with
          | Some e => reply StatusBadRequest (Error_ e)
          | None =>
              (* Clear the previous execution *)
              _ <- call (fun _ => EvRemoveAll LOCAL_MODEL_PATH)
                        (os_RemoveAll env LOCAL_MODEL_PATH) ;;
              _ <- call (fun _ => EvRemoveAll LOCAL_INPUT_PATH)
                        (os_RemoveAll env LOCAL_INPUT_PATH) ;;
              _ <- call (fun _ => EvRemoveAll LOCAL_OUTPUT_PATH)
                        (os_RemoveAll env LOCAL_OUTPUT_PATH) ;;
              (* Create the storage client *)
              err <- call (fun _ => EvNewClient) (storage_NewClient env) ;;
              match err with
              | Some _ =>
                  reply StatusInternalServerError (B "error when creating storage client")
              | None =>
                  (* Download model *)
                  err <- downloadFiles fuel bucketModel pathModel
                           (LOCAL_MODEL_PATH ++ MODEL_DUMMY_VERSION) ;;
                  match err with
                  | Some _ =>
                      reply StatusInternalServerError (B "error when downloading model files")
                  | None =>
                      (* Start tensorflow serving with the model *)
                      '(cmd, err) <- startAndWaitTF tensorflow_model_server ;;
                      defer (Process_Kill (Process_ cmd))
                        (LoadAndPredict_started fuel err
                           bucketInput pathInput bucketOutput pathOutput)
                  end
              end
          end
      end
  end.

End Server.

(* ================================================================= *)
(** ** A world in memory, for the worked examples *)

Module Mem.

Record world : Type := mkWorld {
  objects : list (bytes * bytes * bytes);  (* bucket, name, content, in listing order *)
  readonly : list bytes;                   (* the buckets that refuse writes *)
  files : list (bytes * bytes);            (* local files: path, content *)
  dirs : list bytes;                       (* local directories, with a final / *)
  boot : Process + error;                  (* what starting the server gives *)
  stderr : list StderrRead;                (* what the server logs *)
  serve : bytes -> bytes;                  (* the reply of the server to a request *)
  running : list Process                   (* the child processes alive *)
}.

Definition noent : error := External (B "no such file or directory").

Definition set_objects (w : world) (o : list (bytes * bytes * bytes)) : world :=
  mkWorld o (readonly w) (files w) (dirs w) (boot w) (stderr w) (serve w) (running w).

Definition set_fs (w : world) (f : list (bytes * bytes)) (d : list bytes) : world :=
  mkWorld (objects w) (readonly w) f d (boot w) (stderr w) (serve w) (running w).

Definition set_running (w : world) (r : list Process) : world :=
  mkWorld (objects w) (readonly w) (files w) (dirs w) (boot w) (stderr w) (serve w) r.

Definition slash (path : bytes) : bytes :=
  if strings.HasSuffix path (B "/") then path else path ++ B "/".

Fixpoint mem (x : bytes) (l : list bytes) : bool :=
  match l with
  | [] => false
  | y :: l' => beq x y || mem x l'
  end.

(** The prefixes of a path that end with a separator. *)
Fixpoint ancestors (seen : bytes) (path : bytes) : list bytes :=
  match path with
  | [] => []
  | c :: path' =>
      let seen' := seen ++ [c] in
      if Ascii.eqb c "/" then seen' :: ancestors seen' path' else ancestors seen' path'
  end.

Fixpoint assoc_set (k v : bytes) (l : list (bytes * bytes)) : list (bytes * bytes) :=
  match l with
  | [] => [(k, v)]
  | (k', v') :: l' => if beq k k' then (k, v) :: l' else (k', v') :: assoc_set k v l'
  end.

Fixpoint assoc_get (k : bytes) (l : list (bytes * bytes)) : option bytes :=
  match l with
  | [] => None
  | (k', v) :: l' => if beq k k' then Some v else assoc_get k l'
  end.

Definition parent (path : bytes) : bytes :=
  firstn (Z.to_nat (strings.LastIndex path (B "/") + 1)) path.

(** The entry of the directory [path] that [p] is or lies in. *)
Definition entry (path : bytes) (isdir : bool) (p : bytes) : option FileInfo :=
  if strings.HasPrefix p path then
    let rest := skipn (length path) p in
    match strings.cut rest (B "/") with
    | Some (name, _) => Some (mkFileInfo name true)
    | None => match rest with [] => None | _ => Some (mkFileInfo rest isdir) end
    end
  else None.

Fixpoint insert (e : FileInfo) (l : list FileInfo) : list FileInfo :=
  match l with
  | [] => [e]
  | x :: l' =>
      if beq (Name e) (Name x) then l
      else if bltb (Name e) (Name x) then e :: l
      else x :: insert e l'
  end.

Definition entries (path : bytes) (w : world) : list FileInfo :=
  let add isdir acc p :=
    match entry path isdir p with
    | Some e => insert e acc
    | None => acc
    end in
  fold_left (add true) (dirs w) (fold_left (add false) (map fst (files w)) []).

Definition RemoveAll (path : bytes) (w : world) : option error * world :=
  let keep p := negb (strings.HasPrefix (slash p) (slash path)) in
  (None, set_fs w (filter (fun f => keep (fst f)) (files w)) (filter keep (dirs w))).

Definition MkdirAll (path : bytes) (w : world) : option error * world :=
  (None, set_fs w (files w)
           (fold_left (fun ds a => if mem a ds then ds else ds ++ [a])
              (ancestors [] (slash path)) (dirs w))).

Definition Create (path : bytes) (w : world) : option error * world :=
  if mem (parent path) (dirs w) && negb (strings.HasSuffix path (B "/"))
  then (None, set_fs w (assoc_set path [] (files w)) (dirs w))
  else (Some noent, w).

Definition Write (path content : bytes) (w : world) : option error * world :=
  (None, set_fs w (assoc_set path content (files w)) (dirs w)).

Definition ReadDir (path : bytes) (w : world) : (list FileInfo * option error) * world :=
  if mem (slash path) (dirs w) then ((entries (slash path) w, None), w)
  else (([], Some noent), w).

Definition Open (path : bytes) (w : world) : (Reader * option error) * world :=
  match assoc_get path (files w) with
  | Some content => ((NewReader content, None), w)
  | None => ((NewReader [], Some noent), w)
  end.

Definition Objects (bucket prefix : bytes) (w : world) : (list bytes * option error) * world :=
  ((map (fun o => snd (fst o))
      (filter (fun o => beq (fst (fst o)) bucket && strings.HasPrefix (snd (fst o)) prefix)
         (objects w)), None), w).

Fixpoint object_get (bucket name : bytes) (l : list (bytes * bytes * bytes)) : option bytes :=
  match l with
  | [] => None
  | (b, n, c) :: l' => if beq b bucket && beq n name then Some c else object_get bucket name l'
  end.

Definition ObjectReader (bucket name : bytes) (w : world) : (Reader * option error) * world :=
  match object_get bucket name (objects w) with
  | Some content => ((NewReader content, None), w)
  | None => ((NewReader [], Some (External (B "storage: object doesn't exist"))), w)
  end.

Definition ObjectWrite (bucket name content : bytes) (w : world) : option error * world :=
  if mem bucket (readonly w) then (None, w)
  else (None, set_objects w
                (filter (fun o => negb (beq (fst (fst o)) bucket && beq (snd (fst o)) name))
                   (objects w) ++ [(bucket, name, content)])).

Definition ObjectClose (bucket name : bytes) (w : world) : option error * world :=
  if mem bucket (readonly w) then (Some (External (B "googleapi: Error 403: Forbidden")), w)
  else (None, w).

Definition Start (args : list bytes) (w : world) : (Process + error) * world :=
  match boot w with
  | inl p => (inl p, set_running w (p :: running w))
  | inr e => (inr e, w)
  end.

Definition Kill (p : Process) (w : world) : option error * world :=
  (None, set_running w
           (filter (fun q => match p, q with
                             | mkProcess a, mkProcess b => negb (a =? b)%N
                             end) (running w))).

Definition env : Env world := {|
  os_RemoveAll := RemoveAll;
  os_MkdirAll := MkdirAll;
  os_Create := Create;
  os_Write := Write;
  os_ReadDir := ReadDir;
  os_Open := Open;
  storage_NewClient := fun w => (None, w);
  storage_Objects := Objects;
  storage_NewReader := ObjectReader;
  storage_Write := ObjectWrite;
  storage_Close := ObjectClose;
  exec_Start := Start;
  exec_Stderr := fun _ w => (stderr w, w);
  exec_Kill := Kill;
  http_Post := fun _ _ b w => ((NewReader (serve w b), None), w)
|}.

(** A deployment: a model and an input file in the bucket [data], a server
    that is ready after two seconds and answers every request with two
    predictions. *)
Definition ready_log : list StderrRead :=
  [mkStderrRead 0 (B "Running gRPC ModelServer at 0.0.0.0:8500 ...") None None;
   mkStderrRead 1 (B "Exporting HTTP/REST API at:localhost:8501 ...") None None].

Definition two_lines : bytes := js "{'x':1}" ++ [LF] ++ js "{'x':2}" ++ [LF].

Definition deployment (readonly : list bytes) (boot : Process + error)
  (log : list StderrRead) : world :=
  mkWorld
    [(B "data", B "in/1.jsonl", two_lines);
     (B "data", B "model/saved_model.pb", B "pb")]
    readonly [] [] boot log
    (fun _ => js "{'predictions':[{'y':1},{'y':2}]}") [].

Definition request (model input output : string) : Request :=
  mkRequest [(B "model", [B model]); (B "input", [B input]); (B "output", [B output])].

Definition start (w : world) : State world := mkState w [] None [].


End Mem.

(* ================================================================= *)
(** ** The words of the specification *)

(** The lines of a text in which every line ends with a newline. *)
Fixpoint lines_go (cur : bytes) (s : bytes) : list bytes :=
  match s with
  | [] => match cur with [] => [] | _ => [rev cur] end
  | c :: s' =>
      if Ascii.eqb c LF then rev cur :: lines_go [] s'
      else lines_go (c :: cur) s'
  end.

Definition lines (s : bytes) : list bytes := lines_go [] s.

(** A text made of the given lines, a newline after each. *)
Definition unlines (ls : list bytes) : bytes :=
  concat (map (fun l => l ++ [LF]) ls).

(** A line that fits in the buffer of a scanner. *)
Definition short (l : bytes) : Prop := (len l < 65536)%Z.

(** [input] is a file that consists of the lines [ls]: a newline ends each
    line, the one after the last line being optional. *)
Definition consists_of (input : bytes) (ls : list bytes) : Prop :=
  Forall (fun l => ~ In LF l) ls
  /\ (input = unlines ls \/ (input ++ [LF] = unlines ls /\ last ls [] <> [])).

(** Section 4.2, decodeResponse: every backslash byte in the raw body is
    escaped (doubled) before the body is parsed. *)
Definition escapeBackslashes (body : bytes) : bytes :=
  flat_map (fun c => if Ascii.eqb c BACKSLASH then [BACKSLASH; BACKSLASH] else [c]) body.

Section Words.
Context {F : json.Float64}.

(** The predictions of an answer; none when the field is absent. *)
Definition predictions (a : tfAnswer) : list json.value :=
  match Prediction a with
  | Some ps => ps
  | None => []
  end.

(** Section 4.2, decodeResponse: the escaped body is parsed as an object
    with an optional error string and an optional predictions array; a
    non-empty error fails with that message, otherwise each prediction is
    written as compact JSON on a line of its own. *)
Definition decodeResponse (body : bytes) : bytes * option error :=
  match Unmarshal_tfAnswer (escapeBackslashes body) (mkAnswer None []) with
  | (_, Some e) => ([], Some e)
  | (a, None) =>
      match Error a with
      | [] => (unlines (map json.encode (predictions a)), None)
      | msg => ([], Some (errorString msg))
      end
  end.

(** Section 4.2, encodeRequest: the envelope around the instances. *)
Definition envelope (instances : list json.value) : bytes :=
  js "{'instances':" ++ json.encode (json.VSlice instances) ++ B "}".

End Words.

(** A long instance: an array of 32768 numbers on one line of 65537
    bytes. *)
Definition long_line : bytes := N.iter 32767 (app (B "1,")) (B "1]").

Definition long_instance : bytes := B "[" ++ long_line.

(** An event that neither launches a child process nor ends one. *)
Definition noproc (e : event) : Prop :=
  match e with
  | EvStart _ (inl _) => False
  | EvKill _ => False
  | _ => True
  end.

(** What a computation writes to the trace: a run adds events to the end
    of the trace, all of them in [P]. *)
Definition emits {W A} (P : event -> Prop) (m : M W A) : Prop :=
  forall s o s', m s = (o, s') ->
    exists t, trace s' = trace s ++ t /\ Forall P t.

(** The two ways for a run of the handler to end, from the state [s] to
    the state [s']: without a child process, or with a child process [p]
    that has been launched, the rest of the handler run from [s1] to [s2],
    and [p] killed last of all, the reply left as it was. *)
Definition quiet_run {W} (s s' : State W) : Prop :=
  exists t, trace s' = trace s ++ t /\ Forall noproc t.

Definition killed_run {F : json.Float64} {W} (env : Env W) (fuel : nat)
  (s : State W) (out : outcome unit) (s' : State W) : Prop :=
  exists p args t1 s1 err bi pi bo po s2 t2,
    trace s1 = trace s ++ t1 ++ [EvStart args (inl p); EvStderr p]
    /\ Forall noproc t1
    /\ LoadAndPredict_started env fuel err bi pi bo po s1 = (out, s2)
    /\ trace s2 = trace s1 ++ t2
    /\ Forall noproc t2
    /\ trace s' = trace s2 ++ [EvKill p]
    /\ header s' = header s2
    /\ body s' = body s2.

Definition handled {F : json.Float64} {W} (env : Env W) (fuel : nat) (m : M W unit) : Prop :=
  forall s out s', m s = (out, s') -> out <> Unfinished ->
    quiet_run s s' \/ killed_run env fuel s out s'.

(** What is pending of a rune in [encodeString_go] holds no newline. *)
Definition pending_ok (p : json.pending) (s : bytes) : Prop :=
  match p with
  | json.Copy k => Forall (fun x => x <> LF) (firstn k s)
  | json.Drop _ => True
  end.

(** The letters a literal still expects are no white space. *)
Definition lit_ok (s : json.scanner) : Prop :=
  match json.step s with
  | json.stateLit rest _ => Forall (fun x => json.isSpace x = false) rest
  | _ => True
  end.

(** Induction on Go values, the elements of a slice and the entries of a
    map included. *)
Section ValueInduction.
Context {F : json.Float64}.
Variable P : json.value -> Prop.
Hypothesis HNil : P json.VNil.
Hypothesis HBool : forall b, P (json.VBool b).
Hypothesis HFloat : forall f, P (json.VFloat f).
Hypothesis HString : forall s, P (json.VString s).
Hypothesis HSlice : forall elems, Forall P elems -> P (json.VSlice elems).
Hypothesis HMap : forall entries, Forall (fun kv => P (snd kv)) entries -> P (json.VMap entries).

Fixpoint value_induction (v : json.value) : P v :=
  match v with
  | json.VNil => HNil
  | json.VBool b => HBool b
  | json.VFloat f => HFloat f
  | json.VString s => HString s
  | json.VSlice elems =>
      HSlice ((fix all (l : list json.value) : Forall P l :=
                 match l with
                 | [] => Forall_nil P
                 | x :: l' => Forall_cons x (value_induction x) (all l')
                 end) elems)
  | json.VMap entries =>
      HMap ((fix all (l : list (bytes * json.value)) : Forall (fun kv => P (snd kv)) l :=
               match l with
               | [] => Forall_nil _
               | x :: l' => Forall_cons x (value_induction (snd x)) (all l')
               end) entries)
  end.

End ValueInduction.


(* ================================================================= *)
(** ** The server that predicts file by file

    The second version of the server keeps no input and no output on the
    local disk: it lists the input files of the bucket, and for each one
    reads the object, asks for the predictions and writes the result to
    the output bucket. *)

Module Streaming.

(** The file name and its relative path. *)
Record filePath : Type := mkFilePath {
  RelativePath : bytes;
  FileName : bytes
}.

(** The slice expression [s[:i]], for [0 <= i <= len s]; out of that
    range Go panics. *)
Definition slice_to (s : bytes) (i : Z) : go bytes :=
  if ((0 <=? i) && (i <=? len s))%Z then Return (firstn (Z.to_nat i) s)
  else Panic (B "slice bounds out of range").

(** The loop of [listGcsFiles] over the names the iterator yields. *)
Fixpoint listGcsFiles_loop (path : bytes) (names : list bytes) (ret : list filePath)
  : go (list filePath) :=
  match names with
  | [] => Return ret
  | name :: names' =>
      match strings.slice_from name (strings.LastIndex path (B "/") + 1) with
      | Panic m => Panic m
      | Return n =>
          if beq n [] || strings.HasSuffix n (B "/") then
            (* Root path or directory of the bucket filter path *)
            listGcsFiles_loop path names' ret
          else
            match slice_to n (strings.LastIndex n (B "/") + 1) with
            | Panic m => Panic m
            | Return relativePath =>
                match strings.slice_from n (strings.LastIndex n (B "/") + 1) with
                | Panic m => Panic m
                | Return fileName =>
                    listGcsFiles_loop path names' (ret ++ [mkFilePath relativePath fileName])
                end
            end
      end
  end.

Section Server.
Context {F : json.Float64}.
Context {W : Type}.
Variable env : Env W.

Local Open Scope go_scope.

(** List all the file with their name and relative path in a given bucket
    and path. *)
Definition listGcsFiles (bucket path : bytes) : M W (list filePath * option error) :=
  '(names, done) <- call (fun _ => EvObjects bucket path)
                         (storage_Objects env bucket path) ;;
  files <- lift (listGcsFiles_loop path names []) ;;
  match done with
  | Some err => ret ([], Some err)
  | None => ret (files, None)
  end.

(** The loop of [downloadFiles] over the listed files. *)
Fixpoint downloadFiles_loop (bucket path localDest : bytes) (files : list filePath)
  : M W (option error) :=
  match files with
  | [] => ret None
  | l :: files' =>
      (* Make directory is required *)
      _ <- call (fun _ => EvMkdirAll (localDest ++ RelativePath l))
                (os_MkdirAll env (localDest ++ RelativePath l)) ;;
      (* Copy each file in the dest directory *)
      let object := path ++ RelativePath l ++ FileName l in
      '(src, err) <- call (fun _ => EvNewReader bucket object)
                          (storage_NewReader env bucket object) ;;
      match err with
      | Some e => ret (Some e)
      | None =>
          let dest := localDest ++ RelativePath l ++ FileName l in
          err <- call (fun _ => EvCreate dest) (os_Create env dest) ;;
          match err with
          | Some e => ret (Some e)
          | None =>
              err <- io_Copy (fun b => call (fun _ => EvWriteFile dest b)
                                         (os_Write env dest b)) src ;;
              match err with
              | Some e => ret (Some e)
              | None => downloadFiles_loop bucket path localDest files'
              end
          end
      end
  end.

(** Download files from storage to the localDest, the files of the
    subdirectories included.  The path must represent a GCS directory. *)
Definition downloadFiles (bucket path localDest : bytes) : M W (option error) :=
  if negb (strings.HasSuffix path (B "/")) then
    ret (Some (errors_New (B "downloadFiles: path must be GCS directory")))
  else
    '(files, err) <- listGcsFiles bucket path ;;
    match err with
    | Some e => ret (Some e)
    | None => downloadFiles_loop bucket path localDest files
    end.

(** Execute the prediction on each input file. *)
Definition executePrediction (inputBucket rootInputPath outputBucket outputPath : bytes)
  (input : filePath) : M W (option error) :=
  (* Read the input file *)
  let object := rootInputPath ++ RelativePath input ++ FileName input in
  '(src, err) <- call (fun _ => EvNewReader inputBucket object)
                      (storage_NewReader env inputBucket object) ;;
  match err with
  | Some e => ret (Some e)
  | None =>
      (* Prepare the input *)
      let (finput, err) := formatInput src in
      match err with
      | Some e => ret (Some e)
      | None =>
          (* Make prediction *)
          '(resp, err) <- call (fun _ => EvPost TF_URL TF_CONTENT_TYPE finput)
                               (http_Post env TF_URL TF_CONTENT_TYPE finput) ;;
          match err with
          | Some e => ret (Some e)
          | None =>
              (* Format the output *)
              let (foutput, err) := formatOutput resp in
              match err with
              | Some e => ret (Some e)
              | None =>
                  (* Upload the prediction *)
                  let w := outputPath ++ RelativePath input ++ FileName input in
                  err <- io_Copy (fun b => call (fun _ => EvWriteObject outputBucket w b)
                                             (storage_Write env outputBucket w b))
                           (NewReader foutput) ;;
                  match err with
                  | Some e => ret (Some e)
                  | None =>
                      err <- call (fun _ => EvCloseObject outputBucket w)
                                  (storage_Close env outputBucket w) ;;
                      match err with
                      | Some e => ret (Some e)
                      | None => ret None
                      end
                  end
              end
          end
      end
  end.

(** The loop of [makePredictions] over the input files. *)
Fixpoint makePredictions_loop (inputBucket rootInputPath outputBucket outputPath : bytes)
  (inputs : list filePath) : M W (option error) :=
  match inputs with
  | [] => ret None
  | input :: inputs' =>
      err <- executePrediction inputBucket rootInputPath outputBucket outputPath input ;;
      match err with
      | Some e => ret (Some e)
      | None => makePredictions_loop inputBucket rootInputPath outputBucket outputPath inputs'
      end
  end.

(** Perform the prediction file by file.  The output folder hierarchy
    respects the input one. *)
Definition makePredictions (inputBucket inputPath outputBucket outputPath : bytes)
  : M W (option error) :=
  (* Get inputs of input file *)
  '(inputs, err) <- listGcsFiles inputBucket inputPath ;;
  match err with
  | Some e => ret (Some e)
  | None =>
      (* Get the root path of the input *)
      rootInputPath <- lift (slice_to inputPath (strings.LastIndex inputPath (B "/") + 1)) ;;
      (* Make sure that output is a directory *)
      let outputPath :=
        if negb (strings.HasSuffix outputPath (B "/")) then outputPath ++ B "/"
        else outputPath in
      makePredictions_loop inputBucket rootInputPath outputBucket outputPath inputs
  end.

(** The handler of the only route. *)
Definition LoadAndPredict (r : Request) : M W unit :=
  (* Get Model param *)
  '(bucketModel, pathModel, err) <- lift (getParam r (B "model")) ;;
  match err with
  | Some e => reply StatusBadRequest (Error_ e)
  | None =>
      (* Model path must be the directory where the pb and variables are stored *)
      let pathModel :=
        if negb (strings.HasSuffix pathModel (B "/")) then pathModel ++ B "/"
        else pathModel in
      (* Get Input param *)
      '(bucketInput, pathInput, err) <- lift (getParam r (B "input")) ;;
      match err with
      | Some e => reply StatusBadRequest (Error_ e)
      | None =>
          (* Get Output param *)
          '(bucketOutput, pathOutput, err) <- lift (getParam r (B "output")) ;;
          match err with
          | Some e => reply StatusBadRequest (Error_ e)
          | None =>
              (* Clear the previous execution *)
              _ <- call (fun _ => EvRemoveAll LOCAL_MODEL_PATH)
                        (os_RemoveAll env LOCAL_MODEL_PATH) ;;
              (* Create the storage client *)
              err <- call (fun _ => EvNewClient) (storage_NewClient env) ;;
              match err with
              | Some _ =>
                  reply StatusInternalServerError (B "error when creating storage client")
              | None =>
                  (* Download model *)
                  err <- downloadFiles bucketModel pathModel
                           (LOCAL_MODEL_PATH ++ MODEL_DUMMY_VERSION) ;;
                  match err with
                  | Some _ =>
                      reply StatusInternalServerError (B "error when downloading model files")
                  | None =>
                      (* Start tensorflow serving with the model *)
                      '(cmd, err) <- startAndWaitTF env tensorflow_model_server ;;
                      defer (Process_Kill env (Process_ cmd))
                        match err with
                        | Some _ =>
                            reply StatusInternalServerError
                              (B "error when starting tensorflow")
                        | None =>
                            err <- makePredictions bucketInput pathInput
                                     bucketOutput pathOutput ;;
                            match err with
                            | Some _ =>
                                reply StatusInternalServerError
                                  (B "error when making predictions")
                            | None =>
                                WriteHeader StatusOK ;;
                                Fprintln (B "predictions completed")
                            end
                        end
                  end
              end
          end
      end
  end.

End Server.

End Streaming.

(* ================================================================= *)
(** ** Where the calls of a step may go *)

(** The name [p] starts with [root].  For the names of objects, which
    have no directories, and for a path made of [root] and the names of
    directory entries, that is to lie under [root]. *)
Definition under (root p : bytes) : Prop := strings.HasPrefix p root = true.

(** The text holds two dots in a row: it may name a parent directory. *)
Fixpoint hasDotDot (x : bytes) : bool :=
  match x with
  | [] => false
  | c :: x' =>
      match x' with
      | d :: _ => (Ascii.eqb c "." && Ascii.eqb d ".") || hasDotDot x'
      | [] => false
      end
  end.

(** The path [p] lies inside the directory [root]: [root] ends with the
    separator, and [p] is [root] followed by a text in which no parent
    directory is named. *)
Definition inside (root p : bytes) : Prop :=
  strings.HasSuffix root (B "/") = true
  /\ exists x, p = root ++ x /\ hasDotDot x = false.

(** A store whose listings yield no name with two dots in a row, and a
    file system whose directories hold no such entry. *)
Definition lists_plain {W} (env : Env W) : Prop :=
  forall bucket prefix w,
    Forall (fun name => hasDotDot name = false)
      (fst (fst (storage_Objects env bucket prefix w))).

Definition reads_plain {W} (env : Env W) : Prop :=
  forall path w,
    Forall (fun f => hasDotDot (Name f) = false) (fst (fst (os_ReadDir env path w))).

(** A text after which another may be put without two dots in a row at
    the seam: it is empty, or its last byte is no dot. *)
Definition seam (rel : bytes) : Prop :=
  rel = [] \/ exists r0 c, rel = r0 ++ [c] /\ c <> "."%char.

(** The directory [d] lies inside the directory [root], and so does what
    is put after it when it names no parent directory. *)
Definition dir_inside (root d : bytes) : Prop :=
  strings.HasSuffix root (B "/") = true
  /\ exists rel, d = root ++ rel /\ hasDotDot rel = false /\ seam rel.

(** A path read as a directory: with a separator at its end. *)
Definition asDirectory (path : bytes) : bytes :=
  if negb (strings.HasSuffix path (B "/")) then path ++ B "/" else path.

(** The calls of a download from [bucket] to [localDest]. *)
Definition download_event (bucket localDest : bytes) (e : event) : Prop :=
  match e with
  | EvMkdirAll p | EvCreate p | EvWriteFile p _ => under localDest p
  | EvObjects b _ | EvNewReader b _ => b = bucket
  | _ => False
  end.

(** The calls of a download from [bucket] into the directory
    [localDest]. *)
Definition fetch_event (bucket localDest : bytes) (e : event) : Prop :=
  match e with
  | EvMkdirAll p | EvCreate p | EvWriteFile p _ => inside localDest p
  | EvObjects b _ | EvNewReader b _ => b = bucket
  | _ => False
  end.

(** The calls of an upload of [localPath] to [path] in [bucket]. *)
Definition upload_event (bucket path localPath : bytes) (e : event) : Prop :=
  match e with
  | EvReadDir p | EvOpen p => under localPath p
  | EvWriteObject b n _ | EvCloseObject b n => b = bucket /\ under (asDirectory path) n
  | _ => False
  end.

(** The calls of the predictions for the files of [inputPath], stored in
    [outputPath]. *)
Definition predict_event (inputPath outputPath : bytes) (e : event) : Prop :=
  match e with
  | EvReadDir p | EvOpen p => under inputPath p
  | EvMkdirAll p | EvCreate p | EvWriteFile p _ => under outputPath p
  | EvPost url contentType _ => url = TF_URL /\ contentType = TF_CONTENT_TYPE
  | _ => False
  end.

(** The calls of the predictions for the files inside [inputPath], stored
    inside [outputPath]. *)
Definition infer_event (inputPath outputPath : bytes) (e : event) : Prop :=
  match e with
  | EvReadDir p | EvOpen p => inside inputPath p
  | EvMkdirAll p | EvCreate p | EvWriteFile p _ => inside outputPath p
  | EvPost url contentType _ => url = TF_URL /\ contentType = TF_CONTENT_TYPE
  | _ => False
  end.

(** The calls of an upload of what is inside [localPath] to [path] in
    [bucket]. *)
Definition store_event (bucket path localPath : bytes) (e : event) : Prop :=
  match e with
  | EvReadDir p | EvOpen p => inside localPath p
  | EvWriteObject b n _ | EvCloseObject b n => b = bucket /\ under (asDirectory path) n
  | _ => False
  end.

(** The three staging directories of the handler, and a path inside one
    of them. *)
Definition staging : list bytes := [LOCAL_MODEL_PATH; LOCAL_INPUT_PATH; LOCAL_OUTPUT_PATH].

Definition staged (p : bytes) : Prop :=
  inside LOCAL_MODEL_PATH p \/ inside LOCAL_INPUT_PATH p \/ inside LOCAL_OUTPUT_PATH p.

(** The calls of the handler for a request with the given buckets and
    output path. *)
Definition handler_event (bucketModel bucketInput bucketOutput pathOutput : bytes)
  (e : event) : Prop :=
  match e with
  | EvRemoveAll p => In p staging
  | EvMkdirAll p | EvCreate p | EvWriteFile p _
  | EvReadDir p | EvOpen p => staged p
  | EvObjects b _ | EvNewReader b _ => b = bucketModel \/ b = bucketInput
  | EvWriteObject b n _ | EvCloseObject b n =>
      b = bucketOutput /\ under (asDirectory pathOutput) n
  | EvStart args _ => args = Args tensorflow_model_server
  | EvPost url contentType _ => url = TF_URL /\ contentType = TF_CONTENT_TYPE
  | EvNewClient | EvStderr _ | EvKill _ => True
  end.

(** A computation that writes nothing to the response. *)
Definition silent {W A} (m : M W A) : Prop :=
  forall s o s', m s = (o, s') -> header s' = header s /\ body s' = body s.

(** The messages of the replies with status 500. *)
Definition failure_messages : list bytes :=
  [B "error when creating storage client";
   B "error when downloading model files";
   B "error when starting tensorflow";
   B "error when downloading input files";
   B "error during predictions"].

(** The names of the query parameters, in the order the handler reads
    them. *)
Definition parameters : list bytes := [B "model"; B "input"; B "output"].

(** The byte that separates the parts of a path. *)
Definition SLASH : ascii := "/"%char.

(** A line of white space only. *)
Definition blank (l : bytes) : Prop := Forall (fun c => json.isSpace c = true) l.

(** The calls of the handler once the Tensorflow server has been started:
    those of the download of the input, of the predictions and of the
    upload of the output. *)
Definition started_event (bucketInput bucketOutput pathOutput : bytes) (e : event) : Prop :=
  download_event bucketInput LOCAL_INPUT_PATH e
  \/ predict_event LOCAL_INPUT_PATH LOCAL_OUTPUT_PATH e
  \/ upload_event bucketOutput pathOutput LOCAL_OUTPUT_PATH e.

(** A start of the child process that failed. *)
Definition failed_start (e : event) : Prop :=
  match e with
  | EvStart _ (inr _) => True
  | _ => False
  end.

(** The calls that copy one object to a local file. *)
Definition copy_event (e : event) : Prop :=
  match e with
  | EvNewReader _ _ | EvCreate _ | EvWriteFile _ _ => True
  | _ => False
  end.

(** What a computation calls, when it writes nothing to the response: a
    run adds events in [P] to the trace and leaves the response as it
    was. *)
Definition calls {W A} (P : event -> Prop) (m : M W A) : Prop :=
  emits P m /\ silent m.

(** The response after a reply with the status [code] and the line [msg],
    written in the state [s]: the status counts when none has been written
    before. *)
Definition replied {W} (code : Z) (msg : bytes) (s s' : State W) : Prop :=
  header s' = match header s with None => Some code | h => h end
  /\ body s' = body s ++ msg ++ [LF].

(** The replies of the handler to the request [r]: 400 with the message of
    the parameter that is refused, 500 with the message of the step that
    failed, 200. *)
Definition reply_table (r : Request) (code : Z) (msg : bytes) : Prop :=
  (code = StatusBadRequest
   /\ exists name bucket path e,
        In name parameters
        /\ getParam r name = Return (bucket, path, Some e)
        /\ msg = Error_ e)
  \/ (code = StatusInternalServerError /\ In msg failure_messages)
  \/ (code = StatusOK /\ msg = B "predictions completed").

(** The message of the panic on a nil pointer. *)
Definition nil_dereference : bytes := B "invalid memory address or nil pointer dereference".

(** The request [r] is refused with the error [e]: [e] is the error of the
    first parameter, in the order of the handler, that [getParam] does not
    accept, the parameters before it being accepted. *)
Definition refused (r : Request) (e : error) : Prop :=
  exists before name after,
    parameters = before ++ name :: after
    /\ Forall (fun n => exists bucket path, getParam r n = Return (bucket, path, None)) before
    /\ exists bucket path, getParam r name = Return (bucket, path, Some e).

(** A part of the handler that, when it returns, has written one reply of
    the table. *)
Definition answers {W} (r : Request) (m : M W unit) : Prop :=
  forall s out s', m s = (out, s') -> out = Value tt ->
    exists code msg, reply_table r code msg /\ replied code msg s s'.

(** How a run from [s] to [s'] with the events [t] ends when a start of
    the child process has failed: in the panic of the deferred call, after
    the reply, the failed start being the last call. *)
Definition start_failure {W} (s : State W) (out : outcome unit) (s' : State W)
  (t : list event) : Prop :=
  out = Panicking nil_dereference
  /\ replied StatusInternalServerError (B "error when starting tensorflow") s s'
  /\ exists t1 args e,
       t = t1 ++ [EvStart args (inr e)] /\ Forall (fun x => ~ failed_start x) t1.

Definition start_checked {W} (m : M W unit) : Prop :=
  forall s out s', m s = (out, s') ->
    exists t, trace s' = trace s ++ t
              /\ (Forall (fun x => ~ failed_start x) t \/ start_failure s out s' t).

(** A disk that is full: the world in memory, where every write to a local
    file fails. *)
Definition full_disk : Env Mem.world :=
  mkEnv Mem.RemoveAll Mem.MkdirAll Mem.Create
    (fun _ _ w => (Some (External (B "no space left on device")), w))
    Mem.ReadDir Mem.Open (fun w => (None, w)) Mem.Objects Mem.ObjectReader
    Mem.ObjectWrite Mem.ObjectClose Mem.Start (fun _ w => (Mem.stderr w, w)) Mem.Kill
    (fun _ _ b w => ((NewReader (Mem.serve w b), None), w)).

(** An entry of a listing as [listGcsFiles] builds them: the name of a
    file, without a separator, and the directories before it, each with its
    separator. *)
Definition proper_entry (f : Streaming.filePath) : Prop :=
  Streaming.FileName f <> []
  /\ ~ In SLASH (Streaming.FileName f)
  /\ (Streaming.RelativePath f = []
      \/ strings.HasSuffix (Streaming.RelativePath f) (B "/") = true).

(** What [listGcsFiles] keeps of a name once the directory of the prefix
    has been cut: neither the root nor a directory. *)
Definition isFile (n : bytes) : bool := negb (beq n [] || strings.HasSuffix n (B "/")).

(** The files of a trace are created in directories made before them in
    it: [made] holds the directories made so far, and every file created is
    a name without a separator in one of them. *)
Fixpoint created_in_made_directories (made : list bytes) (t : list event) : Prop :=
  match t with
  | [] => True
  | EvMkdirAll d :: t' => created_in_made_directories (d :: made) t'
  | EvCreate p :: t' =>
      (exists d name, In d made /\ p = d ++ name /\ ~ In SLASH name)
      /\ created_in_made_directories made t'
  | _ :: t' => created_in_made_directories made t'
  end.

(** The calls of the predictions of the second server, from the bucket of
    the input to the bucket of the output. *)
Definition stream_event (inputBucket outputBucket outputPath : bytes) (e : event) : Prop :=
  match e with
  | EvObjects b _ | EvNewReader b _ => b = inputBucket
  | EvPost url contentType _ => url = TF_URL /\ contentType = TF_CONTENT_TYPE
  | EvWriteObject b n _ | EvCloseObject b n =>
      b = outputBucket /\ under (asDirectory outputPath) n
  | _ => False
  end.

(** The steps of the handler from the state [s] of a request to the
    start of the Tensorflow server, each step in the state the step before
    it has left: the parameters are accepted, the staging directories are
    removed, the storage client is created, the model is downloaded and the
    server is started as the process [p].  [err] is what the wait for its
    readiness gives and [s1] the state in which the wait ends. *)
Definition launch {W} (env : Env W) (fuel : nat) (r : Request) (s : State W)
  (bi pi bo po : bytes) (p : Process) (err : option error) (s1 : State W) : Prop :=
  exists bm pm e1 e2 e3 sa sb sc sd s0,
    getParam r (B "model") = Return (bm, pm, None)
    /\ getParam r (B "input") = Return (bi, pi, None)
    /\ getParam r (B "output") = Return (bo, po, None)
    /\ call (fun _ => EvRemoveAll LOCAL_MODEL_PATH) (os_RemoveAll env LOCAL_MODEL_PATH) s
       = (Value e1, sa)
    /\ call (fun _ => EvRemoveAll LOCAL_INPUT_PATH) (os_RemoveAll env LOCAL_INPUT_PATH) sa
       = (Value e2, sb)
    /\ call (fun _ => EvRemoveAll LOCAL_OUTPUT_PATH) (os_RemoveAll env LOCAL_OUTPUT_PATH) sb
       = (Value e3, sc)
    /\ call (fun _ => EvNewClient) (storage_NewClient env) sc = (Value None, sd)
    /\ downloadFiles env fuel bm (asDirectory pm) (LOCAL_MODEL_PATH ++ MODEL_DUMMY_VERSION) sd
       = (Value None, s0)
    /\ startAndWaitTF env tensorflow_model_server s0
       = (Value (mkCmd (Args tensorflow_model_server) (Some p), err), s1).

(** The same steps in the second server, which removes the directory of
    the model only, up to a server that is ready. *)
Definition streamed_launch {W} (env : Env W) (r : Request) (s : State W)
  (bi pi bo po : bytes) (p : Process) (s1 : State W) : Prop :=
  exists bm pm e1 sa sb s0,
    getParam r (B "model") = Return (bm, pm, None)
    /\ getParam r (B "input") = Return (bi, pi, None)
    /\ getParam r (B "output") = Return (bo, po, None)
    /\ call (fun _ => EvRemoveAll LOCAL_MODEL_PATH) (os_RemoveAll env LOCAL_MODEL_PATH) s
       = (Value e1, sa)
    /\ call (fun _ => EvNewClient) (storage_NewClient env) sa = (Value None, sb)
    /\ Streaming.downloadFiles env bm (asDirectory pm)
         (LOCAL_MODEL_PATH ++ MODEL_DUMMY_VERSION) sb
       = (Value None, s0)
    /\ startAndWaitTF env tensorflow_model_server s0
       = (Value (mkCmd (Args tensorflow_model_server) (Some p), None), s1).

(** The world in memory with a store and a file system that yield no name
    with two dots in a row. *)
Definition tidy : Env Mem.world :=
  mkEnv Mem.RemoveAll Mem.MkdirAll Mem.Create Mem.Write
    (fun path w =>
       let '(entries, err, w') := Mem.ReadDir path w in
       (filter (fun f => negb (hasDotDot (Name f))) entries, err, w'))
    Mem.Open (fun w => (None, w))
    (fun bucket prefix w =>
       let '(names, err, w') := Mem.Objects bucket prefix w in
       (filter (fun name => negb (hasDotDot name)) names, err, w'))
    Mem.ObjectReader Mem.ObjectWrite Mem.ObjectClose Mem.Start
    (fun _ w => (Mem.stderr w, w)) Mem.Kill
    (fun _ _ b w => ((NewReader (Mem.serve w b), None), w)).

(** A staging area with two input files, the second one empty, and the
    directory of the output; the server answers with two predictions. *)
Definition two_inputs : Mem.world :=
  Mem.mkWorld [] [] [(B "/tmp/input/a.jsonl", Mem.two_lines); (B "/tmp/input/b.jsonl", [])]
    [B "/"; B "/tmp/"; B "/tmp/input/"; B "/tmp/output/"]
    (inl (mkProcess 7)) Mem.ready_log
    (fun _ => js "{'predictions':[{'y':1},{'y':2}]}") [].



(* ================================================================= *)
(** * Proofs *)

Unset Implicit Arguments.

(** ** Bytes and strings *)

Lemma beq_refl (a : bytes) : beq a a = true.
Proof.
  induction a as [|x a IH]; simpl; [reflexivity|].
  now rewrite Ascii.eqb_refl, IH.
Qed.

Lemma beq_eq (a b : bytes) : beq a b = true <-> a = b.
Proof.
  split; [|intros ->; apply beq_refl].
  revert b; induction a as [|x a IH]; intros [|y b]; simpl; try easy.
  intros H. apply andb_prop in H as [H1 H2].
  apply Ascii.eqb_eq in H1. apply IH in H2. now subst.
Qed.

Lemma beq_nil (a : bytes) : beq a [] = true <-> a = [].
Proof. apply beq_eq. Qed.

Lemma code_LF : code LF = 10%N.
Proof. reflexivity. Qed.

Lemma high_not_LF (c : ascii) (lo : N) : (32 <= lo)%N -> (lo <= code c)%N -> c <> LF.
Proof. intros Hlo H ->. rewrite code_LF in H. lia. Qed.

Lemma nth_Forall {A} (P : A -> Prop) (l : list A) (dflt : A) (n : nat) :
  Forall P l -> P dflt -> P (nth n l dflt).
Proof.
  intros Hl Hd. destruct (nth_in_or_default n l dflt) as [H|H].
  - rewrite Forall_forall in Hl. now apply Hl.
  - now rewrite H.
Qed.

Lemma HasPrefix_nil (s : bytes) : strings.HasPrefix s [] = true.
Proof. now destruct s. Qed.

(** [bytes.ReplaceAll] with a backslash for [old] and two for [new] doubles
    every backslash and keeps every other byte. *)
Lemma ReplaceAll_backslash (body : bytes) :
  strings.ReplaceAll body [BACKSLASH] [BACKSLASH; BACKSLASH] = escapeBackslashes body.
Proof.
  unfold strings.ReplaceAll.
  induction body as [|c body IH]; [reflexivity|].
  simpl. rewrite HasPrefix_nil, andb_true_r.
  destruct (Ascii.eqb c BACKSLASH); simpl; now rewrite IH.
Qed.

(** ** Lines *)

Lemma lines_go_line (l : bytes) : forall cur rest,
  ~ In LF l ->
  lines_go cur (l ++ LF :: rest) = (rev cur ++ l) :: lines_go [] rest.
Proof.
  induction l as [|c l IH]; intros cur rest Hl; simpl.
  - now rewrite app_nil_r.
  - destruct (Ascii.eqb c LF) eqn:E.
    + apply Ascii.eqb_eq in E. exfalso. apply Hl. now left.
    + rewrite IH by (intros H; apply Hl; now right).
      simpl. now rewrite <- app_assoc.
Qed.

Lemma lines_unlines (ls : list bytes) :
  Forall (fun l => ~ In LF l) ls -> lines (unlines ls) = ls.
Proof.
  unfold lines, unlines.
  induction 1 as [|l ls Hl _ IH]; [reflexivity|].
  simpl. rewrite <- app_assoc. simpl.
  rewrite lines_go_line by assumption. simpl. now rewrite IH.
Qed.

(** ** The encoder writes no newline *)

Lemma notin_app (a b : bytes) : ~ In LF a -> ~ In LF b -> ~ In LF (a ++ b).
Proof. intros Ha Hb H. apply in_app_or in H as [H|H]; auto. Qed.

Lemma notin_cons (c : ascii) (a : bytes) : c <> LF -> ~ In LF a -> ~ In LF (c :: a).
Proof. intros Hc Ha [H|H]; auto. Qed.

Lemma notin_B_digits : Forall (fun c => c <> LF) (B "0123456789abcdef").
Proof. repeat constructor; discriminate. Qed.

Lemma digit_noLF (n : N) : json.digit n <> LF.
Proof.
  unfold json.digit. apply nth_Forall; [|discriminate].
  repeat constructor; discriminate.
Qed.

Lemma hex_noLF (n : N) : json.hex n <> LF.
Proof.
  unfold json.hex. apply nth_Forall; [apply notin_B_digits|discriminate].
Qed.

Lemma digitAt_noLF (ds : list N) (i : Z) : json.digitAt ds i <> LF.
Proof.
  unfold json.digitAt. destruct (i <? 0)%Z; [discriminate|].
  destruct (nth_error ds (Z.to_nat i)); [apply digit_noLF|discriminate].
Qed.

Lemma digitsFrom_noLF (ds : list N) (from : Z) (n : nat) :
  ~ In LF (json.digitsFrom ds from n).
Proof.
  unfold json.digitsFrom. intros H. apply in_map_iff in H as (i & Hi & _).
  now apply (digitAt_noLF ds (from + Z.of_nat i)).
Qed.

Lemma decimalDigits_noLF (fuel : nat) : forall n acc,
  ~ In LF acc -> ~ In LF (json.decimalDigits fuel n acc).
Proof.
  induction fuel as [|fuel IH]; intros n acc Hacc; simpl; [assumption|].
  assert (H : ~ In LF (json.digit (n mod 10) :: acc))
    by (apply notin_cons; [apply digit_noLF|assumption]).
  destruct (n <? 10)%N; [assumption|now apply IH].
Qed.

Lemma itoa_noLF (n : N) : ~ In LF (json.itoa n).
Proof. apply decimalDigits_noLF. intros []. Qed.

Ltac noLF :=
  repeat first
    [ apply notin_app
    | apply notin_cons
    | apply digitsFrom_noLF
    | apply itoa_noLF
    | apply digitAt_noLF
    | apply digit_noLF
    | apply hex_noLF
    | discriminate
    | assumption
    | (intros []; fail)
    | match goal with
      | |- ~ In LF (if ?b then _ else _) => destruct b
      | |- ~ In LF (B _) => cbv; intuition discriminate
      | |- ~ In LF [] => intros []
      end ].

Lemma fmtF_noLF (x : json.decimal) : ~ In LF (json.fmtF x).
Proof. unfold json.fmtF. noLF. Qed.

Lemma fmtE_noLF (x : json.decimal) : ~ In LF (json.fmtE x).
Proof. unfold json.fmtE. noLF. Qed.

Lemma floatEncoder_noLF {F : json.Float64} (f : json.float64) :
  ~ In LF (json.floatEncoder f).
Proof.
  unfold json.floatEncoder. destruct (json.d (json.Shortest f)).
  - apply fmtF_noLF.
  - destruct (_ || _); [apply fmtE_noLF|apply fmtF_noLF].
Qed.

Lemma first_lo (p0 : N) (sz : nat) (lo hi : N) :
  utf8.first p0 = Some (sz, lo, hi) -> (128 <= lo)%N.
Proof.
  unfold utf8.first.
  repeat match goal with
         | |- context [if ?b then _ else _] => destruct b
         end; intros H; inversion H; lia.
Qed.

Lemma within_lo (lo hi b : N) : utf8.within lo hi b = true -> (lo <= b)%N.
Proof.
  unfold utf8.within. intros H. apply andb_prop in H as [H _].
  now apply N.leb_le.
Qed.

(** The bytes of a rune after the first are continuation bytes. *)
Lemma DecodeRune_tail (c : ascii) (s : bytes) (r : N) (size : nat) :
  utf8.DecodeRune (c :: s) = (r, size) ->
  Forall (fun x => x <> LF) (firstn (pred size) s).
Proof.
  unfold utf8.DecodeRune.
  destruct (code c <? utf8.RuneSelf)%N; [intros H; inversion H; constructor|].
  destruct (utf8.first (code c)) as [[[sz lo] hi]|] eqn:Hf;
    [|intros H; inversion H; constructor].
  apply first_lo in Hf.
  destruct (Nat.ltb _ sz); [intros H; inversion H; constructor|].
  destruct s as [|c1 s]; [intros H; inversion H; constructor|].
  destruct (utf8.within lo hi (code c1)) eqn:H1; simpl;
    [|intros H; inversion H; constructor].
  apply within_lo in H1.
  assert (Hc1 : c1 <> LF) by (apply high_not_LF with (lo := lo); lia).
  destruct (Nat.leb sz 2); [intros H; inversion H; simpl; now constructor|].
  destruct s as [|c2 s]; [intros H; inversion H; constructor|].
  destruct (utf8.cont (code c2)) eqn:H2; simpl;
    [|intros H; inversion H; constructor].
  apply within_lo in H2.
  assert (Hc2 : c2 <> LF) by (apply high_not_LF with (lo := 128%N); lia).
  destruct (Nat.leb sz 3); [intros H; inversion H; simpl; now repeat constructor|].
  destruct s as [|c3 s]; [intros H; inversion H; constructor|].
  destruct (utf8.cont (code c3)) eqn:H3; simpl;
    [|intros H; inversion H; constructor].
  apply within_lo in H3.
  assert (Hc3 : c3 <> LF) by (apply high_not_LF with (lo := 128%N); lia).
  intros H; inversion H; simpl; now repeat constructor.
Qed.

Lemma htmlSafe_noLF (c : ascii) : json.htmlSafe c = true -> c <> LF.
Proof.
  unfold json.htmlSafe. intros H. apply andb_prop in H as [H _].
  apply within_lo in H. apply high_not_LF with (lo := 32%N); lia.
Qed.

Lemma encodeString_go_noLF (s : bytes) : forall p,
  pending_ok p s -> ~ In LF (json.encodeString_go p s).
Proof.
  induction s as [|c s IH]; intros p Hp; [destruct p; intros []|].
  assert (Hfresh : ~ In LF
    (if (code c <? utf8.RuneSelf)%N then
       (if json.htmlSafe c then [c]
        else if Ascii.eqb c BACKSLASH || Ascii.eqb c QUOTE then [BACKSLASH; c]
        else if Ascii.eqb c LF then BACKSLASH :: B "n"
        else if Ascii.eqb c CR then BACKSLASH :: B "r"
        else if Ascii.eqb c TAB then BACKSLASH :: B "t"
        else BACKSLASH :: B "u00"
               ++ [json.hex (N.shiftr (code c) 4); json.hex (N.land (code c) 15)])
       ++ json.encodeString_go (json.Copy 0) s
     else
       let (r, size) := utf8.DecodeRune (c :: s) in
       if (r =? utf8.RuneError)%N && Nat.eqb size 1 then
         BACKSLASH :: B "ufffd" ++ json.encodeString_go (json.Copy 0) s
       else if (r =? 8232)%N || (r =? 8233)%N then
         BACKSLASH :: B "u202" ++ [json.hex (N.land r 15)]
           ++ json.encodeString_go (json.Drop (pred size)) s
       else c :: json.encodeString_go (json.Copy (pred size)) s)).
  { destruct (code c <? utf8.RuneSelf)%N eqn:Hc.
    - apply notin_app; [|apply IH; constructor].
      destruct (json.htmlSafe c) eqn:Hs.
      + apply notin_cons; [now apply htmlSafe_noLF|intros []].
      + destruct (Ascii.eqb c BACKSLASH || Ascii.eqb c QUOTE) eqn:Hq.
        * apply orb_prop in Hq as [Hq|Hq]; apply Ascii.eqb_eq in Hq; subst c;
            cbv; intuition discriminate.
        * noLF.
    - destruct (utf8.DecodeRune (c :: s)) as [r size] eqn:Hd.
      destruct ((r =? utf8.RuneError)%N && Nat.eqb size 1).
      + apply notin_cons; [discriminate|].
        apply notin_app; [cbv; intuition discriminate|apply IH; constructor].
      + destruct ((r =? 8232)%N || (r =? 8233)%N).
        * apply notin_cons; [discriminate|].
          apply notin_app; [cbv; intuition discriminate|].
          apply notin_cons; [apply hex_noLF|]. now apply IH.
        * apply N.ltb_ge in Hc.
          apply notin_cons; [apply high_not_LF with (lo := 128%N); [lia|exact Hc]|].
          apply IH. simpl. now apply DecodeRune_tail with (c := c) (r := r). }
  destruct p as [[|k]|[|k]]; simpl; try exact Hfresh.
  - simpl in Hp. inversion Hp; subst. apply notin_cons; [assumption|].
    now apply IH.
  - now apply IH.
Qed.

Lemma encodeString_noLF (s : bytes) : ~ In LF (json.encodeString s).
Proof.
  unfold json.encodeString. apply notin_cons; [discriminate|].
  apply notin_app; [apply encodeString_go_noLF; constructor|].
  apply notin_cons; [discriminate|intros []].
Qed.

Lemma join_noLF (parts : list bytes) (sep : bytes) :
  Forall (fun x => ~ In LF x) parts -> ~ In LF sep -> ~ In LF (json.join parts sep).
Proof.
  intros Hp Hs. induction Hp as [|x parts Hx Hp IH]; [intros []|].
  simpl. destruct parts as [|y parts]; [assumption|].
  apply notin_app; [assumption|]. now apply notin_app.
Qed.

Lemma encode_VSlice {F : json.Float64} (elems : list json.value) :
  json.encode (json.VSlice elems) = B "[" ++ json.join (map json.encode elems) (B ",") ++ B "]".
Proof. reflexivity. Qed.

Lemma encode_VMap {F : json.Float64} (entries : list (bytes * json.value)) :
  json.encode (json.VMap entries)
  = B "{" ++ json.join (map (fun kv => json.encodeString (fst kv) ++ B ":"
                                        ++ json.encode (snd kv)) entries) (B ",")
      ++ B "}".
Proof. reflexivity. Qed.

(** The compact encoding of a value takes one line. *)
Lemma encode_noLF {F : json.Float64} (v : json.value) : ~ In LF (json.encode v).
Proof.
  induction v using value_induction.
  - cbv; intuition discriminate.
  - destruct b; cbv; intuition discriminate.
  - apply floatEncoder_noLF.
  - apply encodeString_noLF.
  - rewrite encode_VSlice.
    apply notin_app; [cbv; intuition discriminate|].
    apply notin_app; [|cbv; intuition discriminate].
    apply join_noLF; [|cbv; intuition discriminate].
    apply Forall_map. assumption.
  - rewrite encode_VMap.
    apply notin_app; [cbv; intuition discriminate|].
    apply notin_app; [|cbv; intuition discriminate].
    apply join_noLF; [|cbv; intuition discriminate].
    apply Forall_map. eapply Forall_impl; [|eassumption].
    intros kv Hkv. cbv beta in *.
    apply notin_app; [apply encodeString_noLF|].
    apply notin_app; [cbv; intuition discriminate|assumption].
Qed.

(** ** decodeResponse: [formatOutput] *)

Section FormatOutput.
Context {F : json.Float64}.

Lemma formatOutput_loop_unlines (ps : list json.value) : forall ret,
  formatOutput_loop ps ret = (ret ++ unlines (map json.encode ps), None).
Proof.
  induction ps as [|p ps IH]; intros ret; simpl.
  - now rewrite app_nil_r.
  - rewrite IH. unfold unlines. simpl. now rewrite <- !app_assoc.
Qed.

(** [formatOutput] is the decodeResponse of the specification. *)
Lemma formatOutput_decodeResponse (body : bytes) :
  formatOutput (NewReader body) = decodeResponse body.
Proof.
  unfold formatOutput, decodeResponse, ioutil.ReadAll, NewReader. simpl.
  rewrite ReplaceAll_backslash.
  destruct (Unmarshal_tfAnswer (escapeBackslashes body) (mkAnswer None []))
    as [a [e|]]; [reflexivity|].
  destruct (Error a) as [|c msg]; simpl.
  - unfold predictions. destruct (Prediction a) as [ps|]; [|reflexivity].
    now rewrite formatOutput_loop_unlines.
  - reflexivity.
Qed.

(** C7. For every raw response body, [formatOutput] first replaces every
    backslash byte of the body by two backslash bytes and only then parses
    the result as JSON: the error and the predictions it goes by are those
    of the transformed body, not of the original. *)
Theorem formatOutput_parses_escaped_body (body : bytes) :
  strings.ReplaceAll body [BACKSLASH] [BACKSLASH; BACKSLASH] = escapeBackslashes body
  /\ formatOutput (NewReader body) = decodeResponse body.
Proof. split; [apply ReplaceAll_backslash|apply formatOutput_decodeResponse]. Qed.

Lemma unlines_encode_lines (ps : list json.value) :
  lines (unlines (map json.encode ps)) = map json.encode ps.
Proof.
  apply lines_unlines. apply Forall_map.
  apply Forall_forall. intros p _. apply encode_noLF.
Qed.

(** C4, as amended. For every response body whose form with the
    backslashes doubled parses to an object with a predictions array of
    length N and an empty or absent error, [formatOutput] returns exactly N
    lines, in the order of the array, each line the compact encoding of the
    corresponding element of the parsed array. *)
Theorem formatOutput_one_line_per_prediction (body : bytes) (a : tfAnswer) :
  Unmarshal_tfAnswer (escapeBackslashes body) (mkAnswer None []) = (a, None) ->
  Error a = [] ->
  exists out,
    formatOutput (NewReader body) = (out, None)
    /\ lines out = map json.encode (predictions a)
    /\ length (lines out) = length (predictions a).
Proof.
  intros Hparse Herr.
  exists (unlines (map json.encode (predictions a))).
  rewrite formatOutput_decodeResponse. unfold decodeResponse.
  rewrite Hparse, Herr, unlines_encode_lines.
  repeat split. apply length_map.
Qed.

(** C6, as amended. For every response body whose form with the
    backslashes doubled parses to an object with a non-empty error string,
    [formatOutput] fails with an error that carries that string and returns
    the empty output, whatever the predictions of the object. *)
Theorem formatOutput_error_field (body : bytes) (a : tfAnswer) :
  Unmarshal_tfAnswer (escapeBackslashes body) (mkAnswer None []) = (a, None) ->
  Error a <> [] ->
  formatOutput (NewReader body) = ([], Some (errors_New (Error a))).
Proof.
  intros Hparse Herr.
  rewrite formatOutput_decodeResponse. unfold decodeResponse.
  rewrite Hparse. destruct (Error a); [contradiction|reflexivity].
Qed.

End FormatOutput.

(** C4 fails as stated.  With apostrophes for the double quotes, the body
    [{'predictions':['a\'b']}] parses to an object with one prediction and
    no error, and [formatOutput] returns no line but a syntax error: once
    the backslash is doubled, the quote after it ends the string. *)
Lemma formatOutput_escaped_quote_counterexample :
  ~ (forall (body : bytes) (a : tfAnswer (F := Dec64.float64)),
        Unmarshal_tfAnswer body (mkAnswer None []) = (a, None) ->
        Error a = [] ->
        exists out,
          formatOutput (F := Dec64.float64) (NewReader body) = (out, None)
          /\ lines out = map json.encode (predictions a)).
Proof.
  intros H.
  pose proof (H (js "{'predictions':['a\'b']}")
                (mkAnswer (Some [json.VString (js "a'b")]) [])) as Hx.
  assert (H1 : Unmarshal_tfAnswer (F := Dec64.float64) (js "{'predictions':['a\'b']}")
                 (mkAnswer None [])
               = (mkAnswer (Some [json.VString (js "a'b")]) [], None))
    by reflexivity.
  destruct (Hx H1 eq_refl) as (out & Hout & _).
  vm_compute in Hout. discriminate Hout.
Qed.

(** C6 fails as stated.  With apostrophes for the double quotes, the body
    [{'error':'bad \'shape\''}] parses to an object whose error is the
    text [bad 'shape'], and [formatOutput] fails with a syntax error, not
    with an error that carries that text. *)
Lemma formatOutput_quoted_error_counterexample :
  ~ (forall (body : bytes) (a : tfAnswer (F := Dec64.float64)),
        Unmarshal_tfAnswer body (mkAnswer None []) = (a, None) ->
        Error a <> [] ->
        formatOutput (F := Dec64.float64) (NewReader body)
        = ([], Some (errors_New (Error a)))).
Proof.
  intros H.
  pose proof (H (js "{'error':'bad \'shape\''}")
                (mkAnswer None (js "bad 'shape'"))) as Hx.
  assert (H1 : Unmarshal_tfAnswer (F := Dec64.float64) (js "{'error':'bad \'shape\''}")
                 (mkAnswer None [])
               = (mkAnswer None (js "bad 'shape'"), None))
    by reflexivity.
  assert (H2 : Error (mkAnswer (F := Dec64.float64) None (js "bad 'shape'")) <> [])
    by discriminate.
  specialize (Hx H1 H2).
  vm_compute in Hx. discriminate Hx.
Qed.

(** Witnesses. *)
Lemma formatOutput_one_line_per_prediction_witness :
  exists out,
    formatOutput (F := Dec64.float64) (NewReader (js "{'predictions':[{'y':1},{'y':2}]}"))
      = (out, None)
    /\ lines out = map json.encode
                     [json.VMap [(B "y", json.VFloat (Dec64.num [1%N] 1))];
                      json.VMap [(B "y", json.VFloat (Dec64.num [2%N] 1))]]
    /\ length (lines out) = 2.
Proof.
  apply (formatOutput_one_line_per_prediction (F := Dec64.float64)
           (js "{'predictions':[{'y':1},{'y':2}]}")
           (mkAnswer
                   (Some [json.VMap [(B "y", json.VFloat (Dec64.num [1%N] 1))];
                          json.VMap [(B "y", json.VFloat (Dec64.num [2%N] 1))]])
                   [])).
  - reflexivity.
  - reflexivity.
Defined.

Lemma formatOutput_error_field_witness :
  formatOutput (F := Dec64.float64)
    (NewReader (js "{'error':'shape mismatch','predictions':[1]}"))
  = ([], Some (errors_New (B "shape mismatch"))).
Proof.
  apply (formatOutput_error_field (F := Dec64.float64)
           (js "{'error':'shape mismatch','predictions':[1]}")
           (mkAnswer (Some [json.VFloat (Dec64.num [1%N] 1)])
                   (B "shape mismatch"))).
  - reflexivity.
  - discriminate.
Defined.

(** ** A carriage return at the end of a JSON text *)

Lemma scanAll_app (a b : bytes) : forall s,
  json.scanAll s (a ++ b)
  = match json.scanAll s a with
    | Some s' => json.scanAll s' b
    | None => None
    end.
Proof.
  induction a as [|c a IH]; intros s; simpl; [reflexivity|].
  destruct (json.scan s c); [apply IH|reflexivity].
Qed.

Ltac crush_scan :=
  repeat (simpl in *; subst;
          match goal with
          | H : Forall _ (_ :: _) |- _ => inversion H; clear H; subst
          | H : Some _ = Some _ |- _ => inversion H; clear H; subst
          | H : _ = _ |- _ => discriminate H
          | H : context [match ?x with _ => _ end] |- _ => destruct x eqn:?
          | |- context [match ?x with _ => _ end] => destruct x eqn:?
          end);
  try reflexivity; try congruence.

Lemma eof_CR (s : json.scanner) :
  lit_ok s ->
  json.eof s = match json.scan s CR with
               | Some s2 => json.eof s2
               | None => None
               end.
Proof.
  destruct s as [st ps tp]. unfold lit_ok, json.eof, json.scan. simpl.
  destruct st; intros Hlit; unfold json.beginValue, json.beginString, json.endNumber,
    json.endValue, json.endOfValue; crush_scan.
Qed.

Lemma lit_ok_scan (s s' : json.scanner) (c : ascii) :
  lit_ok s -> json.scan s c = Some s' -> lit_ok s'.
Proof.
  destruct s as [st ps tp]. unfold lit_ok, json.scan. simpl.
  destruct st; intros Hlit Hs; unfold json.beginValue, json.beginString,
    json.endNumber, json.endValue, json.endOfValue in Hs; crush_scan;
    repeat first [exact I | assumption | constructor].
Qed.

Lemma lit_ok_scanAll (data : bytes) : forall s s',
  lit_ok s -> json.scanAll s data = Some s' -> lit_ok s'.
Proof.
  induction data as [|c data IH]; intros s s' Hs H; simpl in H.
  - now inversion H; subst.
  - destruct (json.scan s c) as [s1|] eqn:E; [|discriminate].
    eapply IH; [|eassumption]. eapply lit_ok_scan; eassumption.
Qed.

(** A carriage return after a JSON text changes nothing to its syntax
    tree. *)
Lemma checkValid_CR (data : bytes) :
  json.checkValid (data ++ [CR]) = json.checkValid data.
Proof.
  unfold json.checkValid. rewrite scanAll_app.
  destruct (json.scanAll _ data) as [s|] eqn:E; [|reflexivity].
  simpl. rewrite (@eof_CR s) by (eapply lit_ok_scanAll; [|eassumption]; exact I).
  now destruct (json.scan s CR).
Qed.

Lemma dropCR_cases (line : bytes) :
  bufio.dropCR line = line \/ line = bufio.dropCR line ++ [CR].
Proof.
  unfold bufio.dropCR. destruct (rev line) as [|c r] eqn:E; [now left|].
  destruct (Ascii.eqb c CR) eqn:Ec; [|now left].
  right. apply Ascii.eqb_eq in Ec. subst c.
  rewrite <- (rev_involutive line), E. reflexivity.
Qed.

Lemma checkValid_dropCR (line : bytes) :
  json.checkValid (bufio.dropCR line) = json.checkValid line.
Proof.
  destruct (dropCR_cases line) as [H|H]; [now rewrite H|].
  rewrite H at 2. now rewrite checkValid_CR.
Qed.

(** The scanner drops the carriage return of a line: the line stands for
    the same value with it and without it. *)
Lemma Unmarshal_dropCR {F : json.Float64} (line : bytes) :
  json.Unmarshal (bufio.dropCR line) = json.Unmarshal line.
Proof. unfold json.Unmarshal. now rewrite checkValid_dropCR. Qed.

(** ** The scanner of [formatInput] *)

Lemma LF_eqb_false (c : ascii) : c <> LF -> Ascii.eqb c LF = false.
Proof. intros H. apply Ascii.eqb_neq. exact H. Qed.

(** A line that fits in the buffer is a token. *)
Lemma scanLines_line (l : bytes) : forall line n rest final,
  ~ In LF l ->
  (n + N.of_nat (length l) < bufio.MaxScanTokenSize)%N ->
  bufio.scanLines line n (l ++ LF :: rest) final
  = (bufio.dropCR (rev line ++ l) :: fst (bufio.scanLines [] 0 rest final),
     snd (bufio.scanLines [] 0 rest final)).
Proof.
  induction l as [|c l IH]; intros line n rest final Hl Hn; simpl.
  - rewrite app_nil_r. now destruct (bufio.scanLines [] 0 rest final).
  - rewrite LF_eqb_false by (intros ->; apply Hl; now left).
    simpl length in Hn.
    destruct (bufio.MaxScanTokenSize <=? n + 1)%N eqn:E;
      [apply N.leb_le in E; lia|].
    rewrite IH; [|intros H; apply Hl; now right|lia].
    simpl. now rewrite <- app_assoc.
Qed.

(** A last line without a newline is a token too, when it is not empty. *)
Lemma scanLines_last (l : bytes) : forall line n final,
  ~ In LF l ->
  (n + N.of_nat (length l) < bufio.MaxScanTokenSize)%N ->
  bufio.scanLines line n l final
  = (if (n + N.of_nat (length l) =? 0)%N then [] else [bufio.dropCR (rev line ++ l)],
     final).
Proof.
  induction l as [|c l IH]; intros line n final Hl Hn; simpl.
  - rewrite app_nil_r, N.add_0_r. reflexivity.
  - rewrite LF_eqb_false by (intros ->; apply Hl; now left).
    simpl length in Hn.
    destruct (bufio.MaxScanTokenSize <=? n + 1)%N eqn:E;
      [apply N.leb_le in E; lia|].
    rewrite IH; [|intros H; apply Hl; now right|lia].
    replace (n + 1 + N.of_nat (length l))%N with (n + N.of_nat (S (length l)))%N by lia.
    simpl. now rewrite <- app_assoc.
Qed.

(** A line that does not fit in the buffer stops the scan. *)
Lemma scanLines_long (l : bytes) : forall line n rest final,
  ~ In LF l ->
  (n < bufio.MaxScanTokenSize)%N ->
  (bufio.MaxScanTokenSize <= n + N.of_nat (length l))%N ->
  bufio.scanLines line n (l ++ rest) final = ([], Some ErrTooLong).
Proof.
  induction l as [|c l IH]; intros line n rest final Hl Hn Hlong; simpl.
  - simpl in Hlong. lia.
  - rewrite LF_eqb_false by (intros ->; apply Hl; now left).
    simpl length in Hlong.
    destruct (bufio.MaxScanTokenSize <=? n + 1)%N eqn:E; [reflexivity|].
    apply N.leb_gt in E.
    apply IH; [intros H; apply Hl; now right|lia|lia].
Qed.

Lemma short_N (l : bytes) :
  short l -> (0 + N.of_nat (length l) < bufio.MaxScanTokenSize)%N.
Proof. unfold short, len, bufio.MaxScanTokenSize. lia. Qed.

Lemma not_short_N (l : bytes) :
  ~ short l -> (bufio.MaxScanTokenSize <= 0 + N.of_nat (length l))%N.
Proof. unfold short, len, bufio.MaxScanTokenSize. lia. Qed.

Lemma short_dec (l : bytes) : short l \/ ~ short l.
Proof. unfold short. lia. Qed.

Lemma scanLines_unlines (ls : list bytes) (rest : bytes) (final : option error) :
  Forall (fun l => ~ In LF l) ls ->
  Forall short ls ->
  bufio.scanLines [] 0 (unlines ls ++ rest) final
  = (map bufio.dropCR ls ++ fst (bufio.scanLines [] 0 rest final),
     snd (bufio.scanLines [] 0 rest final)).
Proof.
  intros Hls Hshort. induction Hls as [|l ls Hl _ IH].
  - simpl. now destruct (bufio.scanLines [] 0 rest final).
  - inversion Hshort; subst.
    unfold unlines. simpl. rewrite <- !app_assoc. simpl.
    rewrite scanLines_line by (try assumption; now apply short_N).
    unfold unlines in IH. rewrite IH by assumption. reflexivity.
Qed.

(** Whatever the length of the lines, the scanner yields all of them or
    stops at one that is too long. *)
Lemma scanLines_all_or_long (ls : list bytes) (rest : bytes) (final : option error) :
  Forall (fun l => ~ In LF l) ls ->
  (fst (bufio.scanLines [] 0 (unlines ls ++ rest) final)
   = map bufio.dropCR ls ++ fst (bufio.scanLines [] 0 rest final)
   /\ snd (bufio.scanLines [] 0 (unlines ls ++ rest) final)
      = snd (bufio.scanLines [] 0 rest final))
  \/ snd (bufio.scanLines [] 0 (unlines ls ++ rest) final) = Some ErrTooLong.
Proof.
  intros Hls. induction Hls as [|l ls Hl _ IH]; [now left|].
  unfold unlines in *. simpl. rewrite <- !app_assoc. simpl.
  destruct (short_dec l) as [Hs|Hs].
  - rewrite scanLines_line by (try assumption; now apply short_N). simpl.
    destruct IH as [[H1 H2]|H]; [left|now right].
    now rewrite H1, H2.
  - right. rewrite scanLines_long; try assumption; [reflexivity|reflexivity|].
    now apply not_short_N.
Qed.

Lemma unlines_app (a b : list bytes) : unlines (a ++ b) = unlines a ++ unlines b.
Proof. unfold unlines. now rewrite map_app, concat_app. Qed.

(** A file without its last newline. *)
Lemma consists_of_open (input : bytes) (ls : list bytes) :
  input ++ [LF] = unlines ls -> last ls [] <> [] ->
  exists ls' l, ls = ls' ++ [l] /\ l <> [] /\ input = unlines ls' ++ l.
Proof.
  intros Hin Hlast.
  destruct (exists_last (l := ls)) as (ls' & l & ->).
  { intros ->. now apply Hlast. }
  exists ls', l. rewrite last_last in Hlast. repeat split; [assumption|].
  rewrite unlines_app in Hin. unfold unlines at 2 in Hin. simpl in Hin.
  rewrite app_nil_r, app_assoc in Hin.
  now apply app_inj_tail in Hin as [Hin _].
Qed.

Lemma length_pos (l : bytes) : l <> [] -> (0 + N.of_nat (length l) =? 0)%N = false.
Proof. destruct l; [congruence|]. intros _. apply N.eqb_neq. simpl length. lia. Qed.

(** The tokens of a file made of lines that fit in the buffer. *)
Lemma Scanner_lines (input : bytes) (ls : list bytes) :
  consists_of input ls -> Forall short ls ->
  bufio.Scanner (NewReader input) = (map bufio.dropCR ls, None).
Proof.
  intros [Hls [->|[Hin Hlast]]] Hshort; unfold bufio.Scanner, NewReader; simpl.
  - rewrite <- (app_nil_r (unlines ls)), scanLines_unlines by assumption.
    simpl. now rewrite app_nil_r.
  - destruct (consists_of_open _ _ Hin Hlast) as (ls' & l & -> & Hl & ->).
    apply Forall_app in Hls as [Hls' Hl']. apply Forall_app in Hshort as [Hs' Hs].
    inversion Hl'; subst. inversion Hs; subst.
    rewrite scanLines_unlines by assumption.
    rewrite scanLines_last by (try assumption; now apply short_N).
    rewrite length_pos by assumption. simpl. now rewrite map_app.
Qed.

(** The tokens of any file: all its lines, or an error. *)
Lemma Scanner_all_or_long (input : bytes) (ls : list bytes) :
  consists_of input ls ->
  fst (bufio.Scanner (NewReader input)) = map bufio.dropCR ls
  \/ snd (bufio.Scanner (NewReader input)) = Some ErrTooLong.
Proof.
  intros [Hls [->|[Hin Hlast]]]; unfold bufio.Scanner, NewReader; simpl.
  - rewrite <- (app_nil_r (unlines ls)).
    destruct (scanLines_all_or_long ls [] None Hls) as [[H _]|H]; [left|now right].
    rewrite H. simpl. now rewrite app_nil_r.
  - destruct (consists_of_open _ _ Hin Hlast) as (ls' & l & -> & Hl & ->).
    apply Forall_app in Hls as [Hls' Hl']. inversion Hl'; subst.
    destruct (scanLines_all_or_long ls' l None Hls') as [[Ha Hb]|Hc]; [|now right].
    destruct (short_dec l) as [Hs|Hs].
    + left. rewrite Ha, scanLines_last by (try assumption; now apply short_N).
      rewrite length_pos by assumption. simpl. now rewrite map_app.
    + right. rewrite Hb, <- (app_nil_r l).
      rewrite scanLines_long; try assumption; [reflexivity|reflexivity|].
      now apply not_short_N.
Qed.

(** One newline after the last line is the same file. *)
Lemma scanLines_trailing_newline (input : bytes) (c : ascii) (final : option error) :
  c <> LF -> forall line n,
  bufio.scanLines line n (input ++ [c; LF]) final
  = bufio.scanLines line n (input ++ [c]) final.
Proof.
  intros Hc. induction input as [|x input IH]; intros line n; simpl.
  - rewrite LF_eqb_false by assumption.
    destruct (bufio.MaxScanTokenSize <=? n + 1)%N; [reflexivity|].
    simpl. destruct (n + 1 =? 0)%N eqn:E; [apply N.eqb_eq in E; lia|reflexivity].
  - destruct (Ascii.eqb x LF).
    + now rewrite IH.
    + destruct (bufio.MaxScanTokenSize <=? n + 1)%N; [reflexivity|apply IH].
Qed.

(** ** encodeRequest: [formatInput] *)

Section FormatInput.
Context {F : json.Float64}.

Lemma formatInput_loop_values (tokens : list bytes) (vs : list json.value) :
  Forall2 (fun t v => json.Unmarshal t = (v, None)) tokens vs ->
  forall acc,
    formatInput_loop tokens (mkInput (Some acc)) = (mkInput (Some (acc ++ vs)), None).
Proof.
  induction 1 as [|t v tokens vs Ht _ IH]; intros acc; simpl.
  - now rewrite app_nil_r.
  - rewrite Ht. rewrite IH. now rewrite <- app_assoc.
Qed.

Lemma formatInput_loop_fails (tokens : list bytes) (t : bytes) :
  In t tokens -> snd (json.Unmarshal t) <> None ->
  forall i, snd (formatInput_loop tokens i) <> None.
Proof.
  induction tokens as [|x tokens IH]; intros Hin Ht i; [destruct Hin|].
  simpl. destruct (json.Unmarshal x) as [o [e|]] eqn:Ex; [discriminate|].
  destruct Hin as [->|Hin]; [now rewrite Ex in Ht|now apply IH].
Qed.

(** The file is given up when a token is no JSON value or when the scanner
    reports an error. *)
Lemma formatInput_fails (r : Reader) :
  (exists t, In t (fst (bufio.Scanner r)) /\ snd (json.Unmarshal t) <> None)
  \/ snd (bufio.Scanner r) <> None ->
  exists err, formatInput r = ([], Some err).
Proof.
  intros H. unfold formatInput.
  destruct (bufio.Scanner r) as [tokens scanErr]. simpl in H.
  destruct (formatInput_loop tokens (mkInput (Some []))) as [i [e|]] eqn:El;
    [now exists e|].
  destruct scanErr as [e|]; [now exists e|].
  exfalso. destruct H as [(t & Hin & Ht)|H]; [|now apply H].
  apply (formatInput_loop_fails _ _ Hin Ht (mkInput (Some []))). now rewrite El.
Qed.

Lemma Marshal_envelope (vs : list json.value) :
  Marshal_inputPrediction (mkInput (Some vs)) = (envelope vs, None).
Proof. reflexivity. Qed.

(** A file of lines that fit in the buffer and parse. *)
Lemma formatInput_lines (input : bytes) (ls : list bytes) (vs : list json.value) :
  consists_of input ls ->
  Forall short ls ->
  Forall2 (fun l v => json.Unmarshal l = (v, None)) ls vs ->
  formatInput (NewReader input) = (envelope vs, None).
Proof.
  intros Hfile Hshort Hvs.
  unfold formatInput. rewrite (Scanner_lines _ _ Hfile Hshort).
  rewrite (formatInput_loop_values (map bufio.dropCR ls) vs).
  - reflexivity.
  - clear -Hvs. induction Hvs; simpl; constructor; [|assumption].
    now rewrite Unmarshal_dropCR.
Qed.

(** A file with a line that does not parse. *)
Lemma formatInput_bad_line (input : bytes) (ls : list bytes) (l : bytes) :
  consists_of input ls ->
  In l ls ->
  snd (json.Unmarshal l) <> None ->
  exists err, formatInput (NewReader input) = ([], Some err).
Proof.
  intros Hfile Hin Hl. apply formatInput_fails.
  destruct (Scanner_all_or_long _ _ Hfile) as [H|H].
  - left. exists (bufio.dropCR l). rewrite H. split.
    + now apply in_map.
    + now rewrite Unmarshal_dropCR.
  - right. rewrite H. discriminate.
Qed.

(** C5, as amended. For every input file of N lines of fewer than 65536
    bytes each, where every line parses as one JSON value, [formatInput]
    succeeds and produces the envelope whose instances array holds the N
    parsed values in the order of the lines; and whatever the length of the
    lines, if a line fails to parse the file is given up with an error and
    no envelope is produced. *)
Theorem formatInput_envelope :
  (forall (input : bytes) (ls : list bytes) (vs : list json.value),
      consists_of input ls ->
      Forall short ls ->
      Forall2 (fun l v => json.Unmarshal l = (v, None)) ls vs ->
      formatInput (NewReader input) = (envelope vs, None)
      /\ length vs = length ls)
  /\ (forall (input : bytes) (ls : list bytes) (l : bytes),
         consists_of input ls ->
         In l ls ->
         snd (json.Unmarshal l) <> None ->
         exists err, formatInput (NewReader input) = ([], Some err)).
Proof.
  split.
  - intros input ls vs Hfile Hshort Hvs. split.
    + now apply formatInput_lines with (ls := ls).
    + symmetry. eapply Forall2_length. eassumption.
  - apply formatInput_bad_line.
Qed.

(** C10. [formatInput] fails for the whole file when the scanner yields an
    empty line, hence when the file has an empty line, between two lines or
    after the last one; a single newline after the last line is accepted,
    the file being read as the file without it. *)
Theorem formatInput_rejects_empty_line :
  (forall (r : Reader),
      In [] (fst (bufio.Scanner r)) ->
      exists err, formatInput r = ([], Some err))
  /\ (forall (input : bytes) (ls : list bytes),
         consists_of input ls ->
         In [] ls ->
         exists err, formatInput (NewReader input) = ([], Some err))
  /\ (forall (input : bytes) (c : ascii),
         c <> LF ->
         formatInput (NewReader (input ++ [c; LF])) = formatInput (NewReader (input ++ [c]))).
Proof.
  repeat split.
  - intros r Hin. apply formatInput_fails. left. exists []. split; [assumption|].
    discriminate.
  - intros input ls Hfile Hin.
    apply (formatInput_bad_line input ls [] Hfile Hin). discriminate.
  - intros input c Hc. unfold formatInput, bufio.Scanner, NewReader. simpl.
    now rewrite scanLines_trailing_newline.
Qed.


End FormatInput.

(** C5 fails as stated: a file of one line, an array of 32768 numbers,
    is a file whose line parses as a JSON value, and [formatInput] gives it
    up with the error of the scanner, the line being longer than the buffer
    of the scanner. *)
Lemma formatInput_long_line_counterexample :
  ~ (forall (input : bytes) (ls : list bytes)
            (vs : list (json.value (F := Dec64.float64))),
        consists_of input ls ->
        Forall2 (fun l v => json.Unmarshal l = (v, None)) ls vs ->
        formatInput (F := Dec64.float64) (NewReader input) = (envelope vs, None)).
Proof.
  intros H.
  assert (Hline : ~ In LF long_instance).
  { unfold long_instance, long_line. intros [Hq|Hin]; [discriminate|]. revert Hin.
    apply N.iter_invariant.
    - intros x Hx [Hq|[Hq|Hin]]; [discriminate|discriminate|now apply Hx].
    - intros [Hq|[Hq|[]]]; discriminate. }
  assert (Hparse : snd (json.Unmarshal (F := Dec64.float64) long_instance) = None)
    by (vm_compute; reflexivity).
  assert (Hrun : formatInput (F := Dec64.float64) (NewReader (long_instance ++ [LF]))
                 = ([], Some ErrTooLong))
    by (vm_compute; reflexivity).
  revert Hline Hparse Hrun. generalize long_instance. intros L Hline Hparse Hrun.
  assert (Hx : formatInput (F := Dec64.float64) (NewReader (L ++ [LF]))
               = (envelope [fst (json.Unmarshal (F := Dec64.float64) L)], None)).
  { apply (H (L ++ [LF]) [L]).
    - split; [now constructor|]. left. unfold unlines. simpl. now rewrite app_nil_r.
    - constructor; [|constructor].
      destruct (json.Unmarshal (F := Dec64.float64) L) as [v e].
      simpl in *. now subst e. }
  rewrite Hrun in Hx. apply (f_equal snd) in Hx. discriminate Hx.
Qed.

(** Witnesses. *)
Lemma formatInput_envelope_witness :
  formatInput (F := Dec64.float64) (NewReader Mem.two_lines)
  = (envelope [json.VMap [(B "x", json.VFloat (Dec64.num [1%N] 1))];
               json.VMap [(B "x", json.VFloat (Dec64.num [2%N] 1))]], None)
  /\ length [json.VMap [(B "x", json.VFloat (Dec64.num [1%N] 1))];
             json.VMap [(B "x", json.VFloat (Dec64.num [2%N] 1))]]
     = length [js "{'x':1}"; js "{'x':2}"].
Proof.
  apply (proj1 (formatInput_envelope (F := Dec64.float64))
           Mem.two_lines [js "{'x':1}"; js "{'x':2}"]).
  - split; [|left; reflexivity].
    repeat constructor; vm_compute; intuition discriminate.
  - repeat constructor.
  - repeat constructor.
Defined.

Lemma formatInput_rejects_empty_line_witness :
  exists err,
    formatInput (F := Dec64.float64)
      (NewReader (js "{'x':1}" ++ [LF; LF] ++ js "{'x':2}" ++ [LF]))
    = ([], Some err).
Proof.
  apply (proj1 (formatInput_rejects_empty_line (F := Dec64.float64))).
  vm_compute. right. left. reflexivity.
Defined.

(** ** What the steps of the handler write to the trace *)

Section Emits.
Context {W : Type}.
Variable P : event -> Prop.

Lemma emits_ret {A} (a : A) : emits (W := W) P (ret a).
Proof.
  intros s o s' H. inversion H; subst. exists []. now rewrite app_nil_r.
Qed.

Lemma emits_unfinished {A} : emits (W := W) (A := A) P unfinished.
Proof.
  intros s o s' H. inversion H; subst. exists []. now rewrite app_nil_r.
Qed.

Lemma emits_panic {A} (msg : bytes) : emits (W := W) (A := A) P (panic msg).
Proof.
  intros s o s' H. inversion H; subst. exists []. now rewrite app_nil_r.
Qed.

Lemma emits_lift {A} (g : go A) : emits (W := W) P (lift g).
Proof. destruct g; [apply emits_ret|apply emits_panic]. Qed.

Lemma emits_bind {A B} (m : M W A) (f : A -> M W B) :
  emits P m -> (forall a, emits P (f a)) -> emits P (bind m f).
Proof.
  intros Hm Hf s o s' H. unfold bind in H.
  destruct (m s) as [[a|msg|] s1] eqn:Em.
  - destruct (Hm _ _ _ Em) as (t1 & Ht1 & HP1).
    destruct (Hf a _ _ _ H) as (t2 & Ht2 & HP2).
    exists (t1 ++ t2). rewrite Ht2, Ht1, app_assoc. split; [reflexivity|].
    now apply Forall_app.
  - inversion H; subst. eapply Hm; eassumption.
  - inversion H; subst. eapply Hm; eassumption.
Qed.

Lemma emits_call {A} (ev : A -> event) (op : W -> A * W) :
  (forall a, P (ev a)) -> emits P (call ev op).
Proof.
  intros Hev s o s' H. unfold call in H.
  destruct (op (world s)) as [a w]. inversion H; subst. simpl.
  exists [ev a]. split; [reflexivity|]. now constructor.
Qed.

Lemma emits_WriteHeader (code : Z) : emits (W := W) P (WriteHeader code).
Proof.
  intros s o s' H. inversion H; subst. simpl. exists []. now rewrite app_nil_r.
Qed.

Lemma emits_Fprintln (msg : bytes) : emits (W := W) P (Fprintln msg).
Proof.
  intros s o s' H. inversion H; subst. simpl. exists []. now rewrite app_nil_r.
Qed.

End Emits.

Ltac emits_step :=
  match goal with
  | |- emits _ (bind _ _) => apply emits_bind; [|intros]
  | |- emits _ (ret _) => apply emits_ret
  | |- emits _ unfinished => apply emits_unfinished
  | |- emits _ (panic _) => apply emits_panic
  | |- emits _ (lift _) => apply emits_lift
  | |- emits _ (call _ _) => apply emits_call; intros; exact I
  | |- emits _ (WriteHeader _) => apply emits_WriteHeader
  | |- emits _ (Fprintln _) => apply emits_Fprintln
  | |- emits _ (match ?x with _ => _ end) => destruct x
  end.

Section ServerTrace.
Context {F : json.Float64}.
Context {W : Type}.
Variable env : Env W.

Lemma io_Copy_emits (write : bytes -> M W (option error)) (src : Reader) :
  (forall b, emits noproc (write b)) -> emits noproc (io_Copy write src).
Proof.
  intros Hw. unfold io_Copy. destruct (data src); [apply emits_ret|].
  apply emits_bind; [apply Hw|intros]. repeat emits_step.
Qed.

Lemma reply_emits (code : Z) (msg : bytes) : emits noproc (reply (W := W) code msg).
Proof. unfold reply. repeat emits_step. Qed.

Lemma downloadFile_emits (bucket path dest : bytes) :
  emits noproc (downloadFile env bucket path dest).
Proof.
  unfold downloadFile. repeat emits_step.
  apply io_Copy_emits. intros. repeat emits_step.
Qed.

Lemma downloadFiles_loop_emits (recurse : bytes -> bytes -> M W (option error))
  (bucket path localDest : bytes) (done : option error) (names : list bytes) :
  (forall p d, emits noproc (recurse p d)) ->
  emits noproc (downloadFiles_loop env recurse bucket path localDest done names).
Proof.
  intros Hrec. induction names as [|name names IH]; simpl; [apply emits_ret|].
  apply emits_bind; [emits_step|intros n].
  destruct (beq n []); [exact IH|].
  apply emits_bind.
  - destruct (strings.HasSuffix n _); [apply Hrec|apply downloadFile_emits].
  - intros [e|]; [apply emits_ret|exact IH].
Qed.

Lemma downloadFiles_emits (fuel : nat) : forall bucket path localDest,
  emits noproc (downloadFiles env fuel bucket path localDest).
Proof.
  induction fuel as [|fuel IH]; intros bucket path localDest; simpl;
    (destruct (negb _); [apply emits_ret|]);
    (apply emits_bind; [emits_step|intros _]);
    (apply emits_bind; [emits_step|intros [names done]]);
    apply downloadFiles_loop_emits; intros.
  - apply emits_unfinished.
  - apply IH.
Qed.

Lemma uploadFile_loop_emits (recurse : bytes -> bytes -> M W (option error))
  (bucket path localPath : bytes) (files : list FileInfo) :
  (forall p d, emits noproc (recurse p d)) ->
  emits noproc (uploadFile_loop env recurse bucket path localPath files).
Proof.
  intros Hrec. induction files as [|file files IH]; simpl; [apply emits_ret|].
  destruct (IsDir file).
  - apply emits_bind; [apply Hrec|intros [e|]]; [apply emits_ret|exact IH].
  - apply emits_bind; [emits_step|intros [f [e|]]]; [apply emits_ret|].
    apply emits_bind; [apply io_Copy_emits; intros; emits_step|].
    intros [e|]; [apply emits_ret|].
    apply emits_bind; [emits_step|intros [e|]]; [apply emits_ret|exact IH].
Qed.

Lemma uploadFile_emits (fuel : nat) : forall bucket path localPath,
  emits noproc (uploadFile env fuel bucket path localPath).
Proof.
  induction fuel as [|fuel IH]; intros bucket path localPath; simpl;
    (apply emits_bind; [emits_step|intros [files [e|]]]; [apply emits_ret|]);
    apply uploadFile_loop_emits; intros.
  - apply emits_unfinished.
  - apply IH.
Qed.

Lemma makePredictions_file_emits (inputPath outputPath : bytes) (file : FileInfo) :
  emits noproc (makePredictions_file env inputPath outputPath file).
Proof.
  unfold makePredictions_file.
  apply emits_bind; [emits_step|intros [f [e|]]]; [apply emits_ret|].
  destruct (formatInput f) as [finput [e|]]; [apply emits_ret|].
  apply emits_bind; [emits_step|intros [resp [e|]]]; [apply emits_ret|].
  destruct (formatOutput resp) as [foutput [e|]]; [apply emits_ret|].
  apply emits_bind; [emits_step|intros [e|]]; [apply emits_ret|].
  apply emits_bind; [apply io_Copy_emits; intros; emits_step|intros; apply emits_ret].
Qed.

Lemma makePredictions_loop_emits (recurse : bytes -> bytes -> M W (option error))
  (inputPath outputPath : bytes) (files : list FileInfo) :
  (forall p d, emits noproc (recurse p d)) ->
  emits noproc (makePredictions_loop env recurse inputPath outputPath files).
Proof.
  intros Hrec. induction files as [|file files IH]; simpl; [apply emits_ret|].
  destruct (IsDir file).
  - apply emits_bind; [apply Hrec|intros [e|]]; [apply emits_ret|exact IH].
  - apply emits_bind; [apply makePredictions_file_emits|].
    intros [r|]; [apply emits_ret|exact IH].
Qed.

Lemma makePredictions_recurse_emits (fuel : nat) : forall p d,
  emits noproc
    (match fuel with
     | 0 => fun _ _ => unfinished
     | S fuel' => makePredictions env fuel'
     end p d).
Proof.
  induction fuel as [|fuel IH]; intros p d; [apply emits_unfinished|].
  destruct fuel as [|fuel]; simpl;
    (apply emits_bind; [emits_step|intros [files [e|]]]; [apply emits_ret|]);
    (apply emits_bind; [emits_step|intros _]);
    apply makePredictions_loop_emits; intros.
  - apply emits_unfinished.
  - apply (IH p0 d0).
Qed.

Lemma makePredictions_emits (fuel : nat) (inputPath outputPath : bytes) :
  emits noproc (makePredictions env fuel inputPath outputPath).
Proof. apply (makePredictions_recurse_emits (S fuel)). Qed.

Lemma LoadAndPredict_started_emits (fuel : nat) (err : option error)
  (bucketInput pathInput bucketOutput pathOutput : bytes) :
  emits noproc
    (LoadAndPredict_started env fuel err bucketInput pathInput bucketOutput pathOutput).
Proof.
  unfold LoadAndPredict_started.
  destruct err; [apply reply_emits|].
  apply emits_bind.
  - destruct (strings.HasSuffix pathInput _); [apply downloadFiles_emits|].
    apply emits_bind; [emits_step|intros n].
    apply emits_bind; [emits_step|intros _]. apply downloadFile_emits.
  - intros [e|]; [apply reply_emits|].
    apply emits_bind; [apply makePredictions_emits|].
    intros [e|]; [apply reply_emits|].
    apply emits_bind; [apply uploadFile_emits|intros _].
    repeat emits_step.
Qed.

End ServerTrace.

(** ** The steps of the handler *)

Section Steps.
Context {F : json.Float64}.
Context {W : Type}.
Variable env : Env W.

Lemma bind_call {A B} (ev : A -> event) (op : W -> A * W) (f : A -> M W B) (s : State W) :
  bind (call ev op) f s
  = f (fst (op (world s)))
      (mkState (snd (op (world s))) (trace s ++ [ev (fst (op (world s)))])
         (header s) (body s)).
Proof. unfold bind, call. now destruct (op (world s)). Qed.


(** C8. [downloadFiles] called with a path that does not end with the
    separator returns its error without any call to the world: no listing,
    no remote read, no local write; and [downloadFile] called with a path
    that ends with the separator returns its error without any call to the
    world: no stream opened, no local file created. *)
Theorem download_checks_path_first :
  (forall fuel bucket path localDest (s : State W),
      strings.HasSuffix path (B "/") = false ->
      downloadFiles env fuel bucket path localDest s
      = (Value (Some (errors_New (B "downloadFiles: path must be GCS directory"))), s))
  /\ (forall bucket path dest (s : State W),
         strings.HasSuffix path (B "/") = true ->
         downloadFile env bucket path dest s
         = (Value (Some (errors_New (B "downloadFiles: path must be GCS file"))), s)).
Proof.
  split.
  - intros fuel bucket path localDest s H.
    destruct fuel; cbn [downloadFiles]; rewrite H; reflexivity.
  - intros bucket path dest s H. unfold downloadFile. rewrite H. reflexivity.
Qed.


Lemma call_run {A} (ev : A -> event) (op : W -> A * W) (s : State W) :
  call ev op s
  = (Value (fst (op (world s))),
     mkState (snd (op (world s))) (trace s ++ [ev (fst (op (world s)))])
       (header s) (body s)).
Proof. unfold call. now destruct (op (world s)). Qed.

Lemma bind_Return {A B} (a : A) (f : A -> M W B) : bind (lift (Return a)) f = f a.
Proof. reflexivity. Qed.

Lemma bind_Panic {A B} (msg : bytes) (f : A -> M W B) (s : State W) :
  bind (lift (Panic msg)) f s = (Panicking msg, s).
Proof. reflexivity. Qed.

Lemma reply_run (code : Z) (msg : bytes) (s : State W) :
  reply code msg s
  = (Value tt,
     mkState (world s) (trace s)
       (match header s with None => Some code | h => h end) (body s ++ msg ++ [LF])).
Proof. unfold reply, bind, WriteHeader, Fprintln. cbn. now destruct (header s). Qed.




(** *** Every opening of an empty file is followed by the request *)











End Steps.

(** ** The child process *)

Section ChildProcess.
Context {F : json.Float64}.
Context {W : Type}.
Variable env : Env W.

Lemma handled_emits (fuel : nat) (m : M W unit) : emits noproc m -> handled env fuel m.
Proof. intros Hm s out s' H _. left. exact (Hm _ _ _ H). Qed.

Lemma handled_bind {A} (fuel : nat) (m : M W A) (f : A -> M W unit) :
  emits noproc m -> (forall a, handled env fuel (f a)) -> handled env fuel (bind m f).
Proof.
  intros Hm Hf s out s' H Hout. unfold bind in H.
  destruct (m s) as [[a|msg|] s0] eqn:Em.
  - destruct (Hm _ _ _ Em) as (t0 & Ht0 & HP0).
    destruct (Hf a _ _ _ H Hout) as [(t & Ht & HP)|Hk].
    + left. exists (t0 ++ t). rewrite Ht, Ht0, app_assoc. split; [reflexivity|].
      now apply Forall_app.
    + right. destruct Hk as (p & args & t1 & s1 & err & bi & pi & bo & po & s2 & t2 & H1 & Hk).
      exists p, args, (t0 ++ t1), s1, err, bi, pi, bo, po, s2, t2.
      split; [now rewrite H1, Ht0, <- !app_assoc|].
      destruct Hk as (HP1 & Hk). split; [now apply Forall_app|exact Hk].
  - inversion H; subst. left. exact (Hm _ _ _ Em).
  - inversion H; subst. now contradiction Hout.
Qed.

(** The start of the server: it fails and leaves no process, or it yields a
    process, whatever the wait for readiness gives. *)
Lemma startAndWaitTF_run (cmd : Cmd) (s : State W) :
  (exists e w,
      startAndWaitTF env cmd s
      = (Value (cmd, Some e),
         mkState w (trace s ++ [EvStart (Args cmd) (inr e)]) (header s) (body s)))
  \/ (exists p e w,
         startAndWaitTF env cmd s
         = (Value (mkCmd (Args cmd) (Some p), e),
            mkState w (trace s ++ [EvStart (Args cmd) (inl p); EvStderr p])
              (header s) (body s))).
Proof.
  unfold startAndWaitTF. rewrite bind_call.
  destruct (exec_Start env (Args cmd) (world s)) as [[p|e] w]; cbn [fst snd].
  - right. rewrite bind_call. cbn [world trace header body].
    destruct (exec_Stderr env p w) as [reads w']. cbn [fst snd].
    rewrite <- app_assoc. cbn [app].
    destruct (copyAndCapture reads [] 0) as [[[out errStderr] t]|];
      [destruct (t <? TF_TIMEOUT)%N|]; eexists p, _, w'; reflexivity.
  - left. exists e, w. reflexivity.
Qed.

Lemma launch_handled (fuel : nat) (bi pi bo po : bytes) :
  handled env fuel
    (bind (startAndWaitTF env tensorflow_model_server)
       (fun x => match x with
                 | (cmd, err) =>
                     defer (Process_Kill env (Process_ cmd))
                       (LoadAndPredict_started env fuel err bi pi bo po)
                 end)).
Proof.
  intros s out s' H Hout. unfold bind in H.
  destruct (startAndWaitTF_run tensorflow_model_server s)
    as [(e & w & Hs)|(p & e & w & Hs)]; rewrite Hs in H; clear Hs.
  - (* the start failed: no process, and the deferred call panics *)
    left. unfold defer in H. cbn [Process_ tensorflow_model_server Process_Kill] in H.
    destruct (LoadAndPredict_started env fuel (Some e) bi pi bo po _) as [o s2] eqn:E.
    destruct (LoadAndPredict_started_emits env fuel (Some e) bi pi bo po _ _ _ E)
      as (t & Ht & HP).
    cbn [trace] in Ht.
    assert (Hs' : s' = s2) by (destruct o; unfold panic in H; now inversion H).
    subst s'. exists ([EvStart (Args tensorflow_model_server) (inr e)] ++ t).
    rewrite Ht, <- app_assoc. split; [reflexivity|].
    apply Forall_app. split; [|assumption]. now constructor.
  - (* the server runs: the rest of the handler, then the kill *)
    right. unfold defer in H. cbn [Process_ Process_Kill] in H.
    destruct (LoadAndPredict_started env fuel e bi pi bo po _) as [o s2] eqn:E.
    destruct (LoadAndPredict_started_emits env fuel e bi pi bo po _ _ _ E)
      as (t2 & Ht2 & HP2).
    assert (Hkill : out = o
                    /\ trace s' = trace s2 ++ [EvKill p]
                    /\ header s' = header s2 /\ body s' = body s2).
    { destruct o; [rewrite bind_call in H|rewrite bind_call in H|];
        unfold ret in H; inversion H; subst; cbn [trace header body];
        try (now repeat split); now contradiction Hout. }
    destruct Hkill as (-> & Hk1 & Hk2 & Hk3).
    match type of E with
    | _ ?st = _ =>
        exists p, (Args tensorflow_model_server), [], st, e, bi, pi, bo, po, s2, t2
    end.
    split; [cbn [trace app]; reflexivity|].
    split; [constructor|].
    split; [exact E|].
    repeat split; assumption.
Qed.

Lemma LoadAndPredict_handled (fuel : nat) (r : Request) :
  handled env fuel (LoadAndPredict env fuel r).
Proof.
  unfold LoadAndPredict.
  apply handled_bind; [apply emits_lift|intros [[bucketModel pathModel] [e|]]];
    [apply handled_emits, reply_emits|].
  apply handled_bind; [apply emits_lift|intros [[bucketInput pathInput] [e|]]];
    [apply handled_emits, reply_emits|].
  apply handled_bind; [apply emits_lift|intros [[bucketOutput pathOutput] [e|]]];
    [apply handled_emits, reply_emits|].
  apply handled_bind; [emits_step|intros _].
  apply handled_bind; [emits_step|intros _].
  apply handled_bind; [emits_step|intros _].
  apply handled_bind; [emits_step|intros [e|]];
    [apply handled_emits, reply_emits|].
  apply handled_bind; [apply downloadFiles_emits|intros [e|]];
    [apply handled_emits, reply_emits|].
  apply launch_handled.
Qed.

Lemma noproc_not_started (t : list event) (args : list bytes) (p : Process) :
  Forall noproc t -> ~ In (EvStart args (inl p)) t.
Proof.
  intros Ht Hin. rewrite Forall_forall in Ht. exact (Ht _ Hin).
Qed.

Lemma noproc_not_killed (t : list event) (p : Process) :
  Forall noproc t -> ~ In (EvKill p) t.
Proof.
  intros Ht Hin. rewrite Forall_forall in Ht. exact (Ht _ Hin).
Qed.

(** A run of the handler that is over: no child process has been
    launched, or the request has gone through [launch] to the state [s1]
    with the process [p], the rest of the handler has run from [s1] to
    [s2], and the kill of [p] has made of [s2] the last state. *)
Lemma LoadAndPredict_launched (fuel : nat) (r : Request) (s : State W)
  (out : outcome unit) (s' : State W) :
  LoadAndPredict env fuel r s = (out, s') ->
  out <> Unfinished ->
  quiet_run s s'
  \/ exists bi pi bo po p err s1 s2 t1 t2,
      launch env fuel r s bi pi bo po p err s1
      /\ trace s1 = trace s ++ t1 ++ [EvStart (Args tensorflow_model_server) (inl p);
                                      EvStderr p]
      /\ Forall noproc t1
      /\ LoadAndPredict_started env fuel err bi pi bo po s1 = (out, s2)
      /\ trace s2 = trace s1 ++ t2
      /\ Forall noproc t2
      /\ s' = mkState (snd (exec_Kill env p (world s2))) (trace s2 ++ [EvKill p])
                (header s2) (body s2).
Proof.
  intros Hrun Hout. unfold LoadAndPredict in Hrun.
  destruct (getParam r (B "model")) as [[[bm pm] [e|]]|msg] eqn:Gm;
    [rewrite bind_Return in Hrun; left; exact (reply_emits _ _ _ _ _ Hrun)
    |rewrite bind_Return in Hrun
    |rewrite bind_Panic in Hrun; inversion Hrun; left; exists [];
     now rewrite app_nil_r].
  cbv zeta in Hrun.
  change (if negb (strings.HasSuffix pm (B "/")) then pm ++ B "/" else pm)
    with (asDirectory pm) in Hrun.
  destruct (getParam r (B "input")) as [[[bi pi] [e|]]|msg] eqn:Gi;
    [rewrite bind_Return in Hrun; left; exact (reply_emits _ _ _ _ _ Hrun)
    |rewrite bind_Return in Hrun
    |rewrite bind_Panic in Hrun; inversion Hrun; left; exists [];
     now rewrite app_nil_r].
  destruct (getParam r (B "output")) as [[[bo po] [e|]]|msg] eqn:Go;
    [rewrite bind_Return in Hrun; left; exact (reply_emits _ _ _ _ _ Hrun)
    |rewrite bind_Return in Hrun
    |rewrite bind_Panic in Hrun; inversion Hrun; left; exists [];
     now rewrite app_nil_r].
  pose proof (call_run (fun _ => EvRemoveAll LOCAL_MODEL_PATH)
                (os_RemoveAll env LOCAL_MODEL_PATH) s) as Ca.
  set (sa := mkState _ _ _ _) in Ca.
  pose proof (call_run (fun _ => EvRemoveAll LOCAL_INPUT_PATH)
                (os_RemoveAll env LOCAL_INPUT_PATH) sa) as Cb.
  set (sb := mkState _ _ _ _) in Cb.
  pose proof (call_run (fun _ => EvRemoveAll LOCAL_OUTPUT_PATH)
                (os_RemoveAll env LOCAL_OUTPUT_PATH) sb) as Cc.
  set (sc := mkState _ _ _ _) in Cc.
  pose proof (call_run (fun _ => EvNewClient) (storage_NewClient env) sc) as Cd.
  set (sd := mkState _ _ _ _) in Cd.
  pose (t4 := [EvRemoveAll LOCAL_MODEL_PATH; EvRemoveAll LOCAL_INPUT_PATH;
               EvRemoveAll LOCAL_OUTPUT_PATH; EvNewClient]).
  assert (Td : trace sd = trace s ++ t4).
  { subst sd sc sb sa t4. cbn [trace]. now rewrite <- !app_assoc. }
  assert (Pd : Forall noproc t4) by (repeat constructor).
  clearbody t4.
  unfold bind at 1 in Hrun. rewrite Ca in Hrun.
  unfold bind at 1 in Hrun. rewrite Cb in Hrun.
  unfold bind at 1 in Hrun. rewrite Cc in Hrun.
  unfold bind at 1 in Hrun. rewrite Cd in Hrun.
  destruct (fst (storage_NewClient env (world sc))) as [e|] eqn:Ec.
  { left. destruct (reply_emits _ _ _ _ _ Hrun) as (t & Ht & HP).
    exists (t4 ++ t). rewrite Ht, Td, <- app_assoc. split; [reflexivity|].
    apply Forall_app. now split. }
  unfold bind at 1 in Hrun.
  destruct (downloadFiles env fuel bm (asDirectory pm)
              (LOCAL_MODEL_PATH ++ MODEL_DUMMY_VERSION) sd) as [[[e|]|msg|] s0] eqn:Ed;
    destruct (downloadFiles_emits env fuel _ _ _ _ _ _ Ed) as (t0 & Ht0 & HP0).
  { left. destruct (reply_emits _ _ _ _ _ Hrun) as (t & Ht & HP).
    exists ((t4 ++ t0) ++ t). rewrite Ht, Ht0, Td, <- !app_assoc.
    split; [reflexivity|]. rewrite !Forall_app. repeat split; assumption. }
  2: { left. inversion Hrun; subst. exists (t4 ++ t0). rewrite Ht0, Td, <- !app_assoc.
       split; [reflexivity|]. rewrite !Forall_app. now split. }
  2: { inversion Hrun; subst. now contradiction Hout. }
  unfold bind at 1 in Hrun.
  destruct (startAndWaitTF_run tensorflow_model_server s0)
    as [(e & w & Hs)|(p & e & w & Hs)]; rewrite Hs in Hrun.
  - (* the start failed: no process, and the deferred call panics *)
    left. unfold defer in Hrun.
    cbn [Process_ tensorflow_model_server Process_Kill] in Hrun.
    destruct (LoadAndPredict_started env fuel (Some e) bi pi bo po _) as [o s2] eqn:E.
    destruct (LoadAndPredict_started_emits env fuel (Some e) bi pi bo po _ _ _ E)
      as (t & Ht & HP).
    cbn [trace] in Ht.
    assert (Hs' : s' = s2) by (destruct o; unfold panic in Hrun; now inversion Hrun).
    subst s'.
    exists ((t4 ++ t0) ++ [EvStart (Args tensorflow_model_server) (inr e)] ++ t).
    rewrite Ht, Ht0, Td, <- !app_assoc. split; [reflexivity|].
    rewrite !Forall_app. repeat split; try assumption. now constructor.
  - (* the server runs: the rest of the handler, then the kill *)
    right. unfold defer in Hrun. cbn [Process_ Process_Kill] in Hrun.
    destruct (LoadAndPredict_started env fuel e bi pi bo po _) as [o s2] eqn:E.
    destruct (LoadAndPredict_started_emits env fuel e bi pi bo po _ _ _ E)
      as (t2 & Ht2 & HP2).
    assert (Hkill : out = o
                    /\ s' = mkState (snd (exec_Kill env p (world s2)))
                              (trace s2 ++ [EvKill p]) (header s2) (body s2)).
    { destruct o; [rewrite bind_call in Hrun|rewrite bind_call in Hrun|];
        unfold ret in Hrun; inversion Hrun; subst;
        try (now split); now contradiction Hout. }
    destruct Hkill as (-> & Hk).
    match type of E with
    | _ ?st = _ => exists bi, pi, bo, po, p, e, st, s2, (t4 ++ t0), t2
    end.
    split.
    { exists bm, pm, (fst (os_RemoveAll env LOCAL_MODEL_PATH (world s))),
        (fst (os_RemoveAll env LOCAL_INPUT_PATH (world sa))),
        (fst (os_RemoveAll env LOCAL_OUTPUT_PATH (world sb))), sa, sb, sc, sd, s0.
      repeat (split; [assumption|]). exact Hs. }
    split; [cbn [trace]; now rewrite Ht0, Td, <- !app_assoc|].
    split; [rewrite Forall_app; now split|].
    split; [exact E|].
    split; [exact Ht2|].
    split; [exact HP2|exact Hk].
Qed.

(** C3. On every exit path of a request in which the inference child
    process has been launched (the handler returns or panics, after a step
    has failed, the wait for readiness has timed out, or all has gone
    well), the process is killed.  The request [r] has gone from its first
    state [s] through [launch]: its three parameters read, the staging
    directories removed, the model downloaded and the server started, with
    the process [p] and the state [s1] for result.  The rest of the handler
    has run from [s1] to the state [s2] with the outcome [out], and the kill
    is what comes after it: it is the last call of the run, it is the only
    kill, it is applied to [p], the process that was started, and it makes
    of [s2] the last state [s'].  The outcome of the request is [out], the
    outcome of the handler before the kill, and the reply (status and body)
    is what it was before the kill. *)
Theorem child_process_killed_on_every_exit
  (fuel : nat) (r : Request) (s : State W) (out : outcome unit) (s' : State W)
  (args : list bytes) (p : Process) :
  LoadAndPredict env fuel r s = (out, s') ->
  out <> Unfinished ->
  trace s = [] ->
  In (EvStart args (inl p)) (trace s') ->
  exists bi pi bo po err s1 s2,
    launch env fuel r s bi pi bo po p err s1
    /\ LoadAndPredict_started env fuel err bi pi bo po s1 = (out, s2)
    /\ trace s' = trace s2 ++ [EvKill p]
    /\ (forall q, ~ In (EvKill q) (trace s2))
    /\ header s' = header s2
    /\ body s' = body s2
    /\ world s' = snd (exec_Kill env p (world s2)).
Proof.
  intros Hrun Hout Hfresh Hin.
  destruct (LoadAndPredict_launched fuel r s out s' Hrun Hout) as [(t & Ht & HP)|Hk].
  - exfalso. rewrite Ht, Hfresh in Hin. now apply (noproc_not_started t args p).
  - destruct Hk as (bi & pi & bo & po & p' & err & s1 & s2 & t1 & t2
                    & Hl & H1 & HP1 & Hs & H2 & HP2 & ->).
    cbn [trace header body world] in *.
    assert (Hp : p' = p).
    { rewrite H2, H1, Hfresh in Hin. cbn [app] in Hin.
      apply in_app_or in Hin as [Hin|[Hin|[]]]; [|discriminate].
      apply in_app_or in Hin as [Hin|Hin];
        [|now apply noproc_not_started in Hin].
      apply in_app_or in Hin as [Hin|[Hin|[Hin|[]]]];
        [now apply noproc_not_started in Hin|now inversion Hin|discriminate]. }
    subst p'. exists bi, pi, bo, po, err, s1, s2.
    repeat split; try assumption.
    intros q Hq. rewrite H2, H1, Hfresh in Hq. cbn [app] in Hq.
    apply in_app_or in Hq as [Hq|Hq]; [|now apply noproc_not_killed in Hq].
    apply in_app_or in Hq as [Hq|[Hq|[Hq|[]]]];
      [now apply noproc_not_killed in Hq|discriminate|discriminate].
Qed.

End ChildProcess.

(** ** Runs in the world in memory *)

Ltac find_event := repeat first [left; reflexivity | right].

(** C1, at a failing input. The output bucket refuses the upload: every
    step up to the upload succeeds, the upload is attempted and the close
    of the object fails, nothing is stored in the bucket, and the handler
    returns with status 200 and the text of a completed request. *)
Theorem upload_failure_answered_with_success :
  let w := Mem.deployment [B "results"] (inl (mkProcess 7)) Mem.ready_log in
  let r := Mem.request "gs://data/model" "gs://data/in/1.jsonl" "gs://results/out" in
  let run := LoadAndPredict (F := Dec64.float64) Mem.env 5 r (Mem.start w) in
  fst run = Value tt
  /\ In (EvCloseObject (B "results") (B "out/prediction_1.jsonl")) (trace (snd run))
  /\ fst (Mem.ObjectClose (B "results") (B "out/prediction_1.jsonl") (world (snd run)))
     = Some (External (B "googleapi: Error 403: Forbidden"))
  /\ Mem.object_get (B "results") (B "out/prediction_1.jsonl")
       (Mem.objects (world (snd run))) = None
  /\ header (snd run) = Some StatusOK
  /\ body (snd run) = B "predictions completed" ++ [LF].
Proof.
  cbv zeta.
  split; [vm_compute; reflexivity|].
  split; [vm_compute; find_event|].
  split; [vm_compute; reflexivity|].
  split; [vm_compute; reflexivity|].
  split; vm_compute; reflexivity.
Qed.

(** C2, at a failing input. An address with a container and no path after
    it makes [extractLocation] index the second of one piece: the call
    panics, and so does the handler, which has written no reply. *)
Theorem location_without_path_panics :
  extractLocation (B "gs://mybucket") = Panic (B "index out of range")
  /\ (let w := Mem.deployment [] (inl (mkProcess 7)) Mem.ready_log in
      let r := Mem.request "gs://mybucket" "gs://data/in/" "gs://data/out" in
      let run := LoadAndPredict (F := Dec64.float64) Mem.env 5 r (Mem.start w) in
      fst run = Panicking (B "index out of range")
      /\ trace (snd run) = []
      /\ header (snd run) = None).
Proof.
  cbv zeta.
  split; [vm_compute; reflexivity|].
  split; [vm_compute; reflexivity|].
  split; vm_compute; reflexivity.
Qed.

(** An address without the store prefix is refused, and the handler
    answers 400 before any call to the world. *)
Lemma location_without_prefix_rejected (location : bytes) :
  strings.HasPrefix location BUCKET_PREFIX = false ->
  extractLocation location
  = Return ([], [], Some (errors_New (B "location must start with 'gs://'"))).
Proof. intros H. unfold extractLocation. now rewrite H. Qed.

Lemma HasPrefix_length (prefix : bytes) : forall s,
  strings.HasPrefix s prefix = true -> (length prefix <= length s)%nat.
Proof.
  induction prefix as [|p prefix IH]; intros s H; simpl; [lia|].
  destruct s as [|c s]; [discriminate H|].
  simpl in H. apply andb_prop in H as [_ H]. apply IH in H. simpl. lia.
Qed.

(** An address with the store prefix and a separator after it is split at
    the first separator. *)
Lemma extractLocation_cases (location : bytes) :
  strings.HasPrefix location BUCKET_PREFIX = true ->
  extractLocation location
  = match strings.cut (skipn 5 location) (B "/") with
    | Some (bucket, path) => Return (bucket, path, None)
    | None => Panic (B "index out of range")
    end.
Proof.
  intros H. unfold extractLocation. rewrite H. cbn [negb].
  assert (Hlen : (5 <= length location)%nat) by (apply (HasPrefix_length _ _ H)).
  unfold strings.slice_from, len.
  replace ((0 <=? Z.of_nat (length BUCKET_PREFIX))
           && (Z.of_nat (length BUCKET_PREFIX) <=? Z.of_nat (length location)))%Z
    with true.
  2:{ symmetry. apply andb_true_intro. split; apply Z.leb_le; simpl; lia. }
  change (Z.to_nat (Z.of_nat (length BUCKET_PREFIX))) with 5%nat.
  unfold strings.SplitN. cbn [strings.SplitN_go].
  destruct (strings.cut (skipn 5 location) (B "/")) as [[bucket path]|]; reflexivity.
Qed.

(** Witnesses. *)
Lemma child_process_killed_witness :
  let w := Mem.deployment [] (inl (mkProcess 7)) [] in
  let r := Mem.request "gs://data/model" "gs://data/in/" "gs://data/out" in
  let run := LoadAndPredict (F := Dec64.float64) Mem.env 5 r (Mem.start w) in
  exists bi pi bo po err s1 s2,
    launch Mem.env 5 r (Mem.start w) bi pi bo po (mkProcess 7) err s1
    /\ LoadAndPredict_started (F := Dec64.float64) Mem.env 5 err bi pi bo po s1 = (fst run, s2)
    /\ trace (snd run) = trace s2 ++ [EvKill (mkProcess 7)]
    /\ (forall q, ~ In (EvKill q) (trace s2))
    /\ header (snd run) = header s2
    /\ body (snd run) = body s2
    /\ world (snd run) = snd (exec_Kill Mem.env (mkProcess 7) (world s2)).
Proof.
  cbv zeta.
  apply (child_process_killed_on_every_exit (F := Dec64.float64) Mem.env 5
           (Mem.request "gs://data/model" "gs://data/in/" "gs://data/out")
           (Mem.start (Mem.deployment [] (inl (mkProcess 7)) []))
           _ _ (Args tensorflow_model_server) (mkProcess 7)).
  - apply surjective_pairing.
  - vm_compute. discriminate.
  - reflexivity.
  - vm_compute. find_event.
Defined.

Lemma download_checks_path_first_witness :
  downloadFiles Mem.env 3 (B "data") (B "model") LOCAL_MODEL_PATH
    (Mem.start (Mem.deployment [] (inl (mkProcess 7)) []))
  = (Value (Some (errors_New (B "downloadFiles: path must be GCS directory"))),
     Mem.start (Mem.deployment [] (inl (mkProcess 7)) [])).
Proof.
  apply (proj1 (download_checks_path_first Mem.env)). reflexivity.
Defined.


(* ================================================================= *)
(** * Further properties of the two servers *)

(** ** Prefixes, suffixes and cuts *)

Lemma HasPrefix_app (p x : bytes) : strings.HasPrefix (p ++ x) p = true.
Proof.
  induction p as [|c p IH]; simpl; [apply HasPrefix_nil|].
  now rewrite Ascii.eqb_refl, IH.
Qed.

Lemma HasPrefix_split (p : bytes) : forall s,
  strings.HasPrefix s p = true -> s = p ++ skipn (length p) s.
Proof.
  induction p as [|c p IH]; intros s H; [reflexivity|].
  destruct s as [|d s]; [discriminate H|].
  simpl in H. apply andb_prop in H as [Hc H]. apply Ascii.eqb_eq in Hc. subst d.
  simpl. f_equal. now apply IH.
Qed.

Lemma under_refl (p : bytes) : under p p.
Proof. unfold under. rewrite <- (app_nil_r p) at 1. apply HasPrefix_app. Qed.

Lemma under_app (root p x : bytes) : under root p -> under root (p ++ x).
Proof.
  unfold under. intros H. rewrite (HasPrefix_split _ _ H), <- app_assoc.
  apply HasPrefix_app.
Qed.

Lemma under_trans (a b c : bytes) : under a b -> under b c -> under a c.
Proof.
  unfold under. intros Hab Hbc. rewrite (HasPrefix_split _ _ Hbc).
  now apply under_app.
Qed.

Lemma HasSuffix_sep (x : bytes) : strings.HasSuffix (x ++ B "/") (B "/") = true.
Proof.
  unfold strings.HasSuffix. rewrite rev_app_distr. simpl.
  now rewrite HasPrefix_nil.
Qed.

Lemma asDirectory_sep (x : bytes) : asDirectory (x ++ B "/") = x ++ B "/".
Proof. unfold asDirectory. now rewrite HasSuffix_sep. Qed.

Lemma asDirectory_idem (path : bytes) : asDirectory (asDirectory path) = asDirectory path.
Proof.
  unfold asDirectory at 2 3. destruct (negb _) eqn:E; [apply asDirectory_sep|].
  unfold asDirectory. now rewrite E.
Qed.

Lemma HasPrefix_SLASH (s : bytes) :
  strings.HasPrefix s (B "/")
  = match s with c :: _ => Ascii.eqb c SLASH | [] => false end.
Proof.
  destruct s as [|c s]; [reflexivity|]. simpl.
  rewrite HasPrefix_nil. apply andb_true_r.
Qed.

(** Where [cut] cuts: at the first separator. *)
Lemma cut_go_SLASH (s : bytes) : forall acc,
  match strings.cut_go acc s (B "/") with
  | Some (a, b) => exists a', a = rev acc ++ a' /\ s = a' ++ SLASH :: b /\ ~ In SLASH a'
  | None => ~ In SLASH s
  end.
Proof.
  induction s as [|c s IH]; intros acc.
  - simpl. tauto.
  - cbn [strings.cut_go]. rewrite HasPrefix_SLASH.
    destruct (Ascii.eqb c SLASH) eqn:Ec.
    + apply Ascii.eqb_eq in Ec. subst c. exists []. rewrite app_nil_r.
      repeat split. tauto.
    + apply Ascii.eqb_neq in Ec. specialize (IH (c :: acc)).
      destruct (strings.cut_go (c :: acc) s (B "/")) as [[a b]|].
      * destruct IH as (a' & -> & -> & Ha'). exists (c :: a').
        simpl. rewrite <- app_assoc. repeat split.
        intros [H|H]; [now apply Ec|now apply Ha'].
      * intros [H|H]; [now apply Ec|now apply IH].
Qed.

Lemma cut_SLASH (s : bytes) :
  match strings.cut s (B "/") with
  | Some (a, b) => s = a ++ SLASH :: b /\ ~ In SLASH a
  | None => ~ In SLASH s
  end.
Proof.
  unfold strings.cut. pose proof (cut_go_SLASH s []) as H.
  destruct (strings.cut_go [] s (B "/")) as [[a b]|]; [|assumption].
  destruct H as (a' & -> & -> & H). now split.
Qed.

Lemma first_cut_unique (c : ascii) (a : bytes) : forall a' b b',
  a ++ c :: b = a' ++ c :: b' -> ~ In c a -> ~ In c a' -> a = a' /\ b = b'.
Proof.
  induction a as [|x a IH]; intros [|y a'] b b' E Ha Ha'; simpl in *.
  - inversion E. now split.
  - inversion E; subst. exfalso. apply Ha'. now left.
  - inversion E; subst. exfalso. apply Ha. now left.
  - inversion E; subst. destruct (IH a' b b') as [-> ->]; try assumption.
    + intros H. apply Ha. now right.
    + intros H. apply Ha'. now right.
    + now split.
Qed.

(** ** [extractLocation] and [getParam] *)

Lemma skipn_prefix (bucket : bytes) : skipn 5 (BUCKET_PREFIX ++ bucket) = bucket.
Proof. reflexivity. Qed.

Lemma extractLocation_accepts (location bucket path : bytes) :
  extractLocation location = Return (bucket, path, None)
  <-> location = BUCKET_PREFIX ++ bucket ++ SLASH :: path /\ ~ In SLASH bucket.
Proof.
  split.
  - intros H. destruct (strings.HasPrefix location BUCKET_PREFIX) eqn:Hp.
    + rewrite (extractLocation_cases _ Hp) in H.
      pose proof (cut_SLASH (skipn 5 location)) as Hc.
      destruct (strings.cut (skipn 5 location) (B "/")) as [[a b]|]; [|discriminate H].
      inversion H; subst a b. destruct Hc as [Hc Hn]. split; [|assumption].
      rewrite <- Hc. exact (HasPrefix_split _ _ Hp).
    + rewrite (location_without_prefix_rejected _ Hp) in H. discriminate H.
  - intros [-> Hn].
    rewrite extractLocation_cases by apply HasPrefix_app.
    rewrite skipn_prefix.
    pose proof (cut_SLASH (bucket ++ SLASH :: path)) as Hc.
    destruct (strings.cut (bucket ++ SLASH :: path) (B "/")) as [[a b]|].
    + destruct Hc as [Hc Ha].
      destruct (first_cut_unique _ _ _ _ _ Hc Hn Ha) as [-> ->]. reflexivity.
    + exfalso. apply Hc. apply in_or_app. right. now left.
Qed.

Lemma extractLocation_trichotomy (location : bytes) :
  (strings.HasPrefix location BUCKET_PREFIX = false
   /\ extractLocation location
      = Return ([], [], Some (errors_New (B "location must start with 'gs://'"))))
  \/ (exists bucket,
        location = BUCKET_PREFIX ++ bucket /\ ~ In SLASH bucket
        /\ extractLocation location = Panic (B "index out of range"))
  \/ (exists bucket path,
        location = BUCKET_PREFIX ++ bucket ++ SLASH :: path /\ ~ In SLASH bucket
        /\ extractLocation location = Return (bucket, path, None)).
Proof.
  destruct (strings.HasPrefix location BUCKET_PREFIX) eqn:Hp.
  - right. rewrite (extractLocation_cases _ Hp).
    pose proof (cut_SLASH (skipn 5 location)) as Hc.
    pose proof (HasPrefix_split _ _ Hp) as Hl. change (length BUCKET_PREFIX) with 5%nat in Hl.
    destruct (strings.cut (skipn 5 location) (B "/")) as [[a b]|].
    + right. exists a, b. destruct Hc as [Hc Hn]. rewrite <- Hc. now repeat split.
    + left. exists (skipn 5 location). now repeat split.
  - left. split; [reflexivity|]. now apply location_without_prefix_rejected.
Qed.

(** X1. [extractLocation] accepts exactly the addresses made of the
    prefix, a bucket without a separator, one separator and a path, and
    gives back that bucket and that path: reading an address and writing
    it again are inverse to each other. *)
Theorem extractLocation_round_trip (location bucket path : bytes) :
  extractLocation location = Return (bucket, path, None)
  <-> location = BUCKET_PREFIX ++ bucket ++ SLASH :: path /\ ~ In SLASH bucket.
Proof. apply extractLocation_accepts. Qed.

(** X2. The three outcomes of [extractLocation], for every address: an
    address without the prefix is refused with an error; an address with
    the prefix and no separator after it makes the function panic; any
    other address is split at the first separator after the prefix. *)
Theorem extractLocation_outcomes (location : bytes) :
  (strings.HasPrefix location BUCKET_PREFIX = false
   /\ extractLocation location
      = Return ([], [], Some (errors_New (B "location must start with 'gs://'"))))
  \/ (exists bucket,
        location = BUCKET_PREFIX ++ bucket /\ ~ In SLASH bucket
        /\ extractLocation location = Panic (B "index out of range"))
  \/ (exists bucket path,
        location = BUCKET_PREFIX ++ bucket ++ SLASH :: path /\ ~ In SLASH bucket
        /\ extractLocation location = Return (bucket, path, None)).
Proof. apply extractLocation_trichotomy. Qed.

Lemma len_lt_1 (s : bytes) : (len s <? 1)%Z = match s with [] => true | _ => false end.
Proof.
  unfold len. destruct s; [reflexivity|]. apply Z.ltb_ge. simpl length. lia.
Qed.

(** X3. [getParam] gives a bucket and a path exactly when the first value
    of the parameter is an address the server accepts: the prefix, a
    bucket without a separator, a separator and a path.  The other values
    of a repeated parameter are not looked at. *)
Theorem getParam_accepts (r : Request) (paramName bucket path : bytes) :
  getParam r paramName = Return (bucket, path, None)
  <-> exists others,
        Query_get (Query r) paramName
        = Some ((BUCKET_PREFIX ++ bucket ++ SLASH :: path) :: others)
        /\ ~ In SLASH bucket.
Proof.
  unfold getParam. split.
  - intros H. destruct (Query_get (Query r) paramName) as [[|p0 others]|];
      [discriminate H| |discriminate H].
    unfold index in H. cbn [nth_error] in H. rewrite len_lt_1 in H.
    destruct p0 as [|c p0]; [discriminate H|].
    destruct (extractLocation (c :: p0)) as [[[b p] [e|]]|m] eqn:E;
      try discriminate H.
    inversion H; subst b p. apply extractLocation_accepts in E as [E Hn].
    exists others. now rewrite E.
  - intros (others & -> & Hn). unfold index. cbn [nth_error]. rewrite len_lt_1.
    assert (E : extractLocation (BUCKET_PREFIX ++ bucket ++ SLASH :: path)
                = Return (bucket, path, None))
      by now apply extractLocation_accepts.
    cbn [BUCKET_PREFIX B list_ascii_of_string app] in *. now rewrite E.
Qed.

(** X4. [getParam] refuses a parameter in two cases only, each with a
    message of its own: the parameter is absent or its first value is
    empty, and the message says that it is missing; or its first value does
    not start with the prefix of a bucket, and the message says that it is
    badly formatted.  No bucket and no path come with the error. *)
Theorem getParam_refuses (r : Request) (paramName bucket path : bytes) (e : error) :
  getParam r paramName = Return (bucket, path, Some e)
  <-> bucket = [] /\ path = []
      /\ ((e = errors_New (B "Query Param '" ++ paramName ++ B "' is missing")
           /\ (Query_get (Query r) paramName = None
               \/ exists others, Query_get (Query r) paramName = Some ([] :: others)))
          \/ (e = errors_New (B "'" ++ paramName
                               ++ B "' bad formatted: location must start with 'gs://'")
              /\ exists v others,
                   Query_get (Query r) paramName = Some (v :: others)
                   /\ v <> [] /\ strings.HasPrefix v BUCKET_PREFIX = false)).
Proof.
  unfold getParam. split.
  - intros H. destruct (Query_get (Query r) paramName) as [[|v others]|].
    + discriminate H.
    + unfold index in H. cbn [nth_error] in H. rewrite len_lt_1 in H.
      destruct v as [|c v].
      * inversion H; subst. repeat split. left. split; [reflexivity|]. right. now exists others.
      * destruct (extractLocation_trichotomy (c :: v))
          as [[Hp E]|[(b & _ & _ & E)|(b & p & _ & _ & E)]]; rewrite E in H.
        -- inversion H; subst. repeat split. right. split; [reflexivity|].
           exists (c :: v), others. repeat split; [discriminate|assumption].
        -- discriminate H.
        -- discriminate H.
    + inversion H; subst. repeat split. left. split; [reflexivity|]. now left.
  - intros (-> & -> & [[-> [H|(others & H)]]|(-> & v & others & H & Hv & Hp)]); rewrite H.
    + reflexivity.
    + reflexivity.
    + unfold index. cbn [nth_error]. rewrite len_lt_1.
      destruct v as [|c v]; [now contradiction Hv|].
      now rewrite (location_without_prefix_rejected _ Hp).
Qed.

(** ** Waiting for the Tensorflow server *)

Lemma Contains_nil : strings.Contains [] READY_MARKER = false.
Proof. reflexivity. Qed.

Lemma copyAndCapture_marker (reads : list StderrRead) : forall out t o t',
  copyAndCapture reads out t = Some (o, None, t') ->
  exists pre r post,
    reads = pre ++ r :: post
    /\ strings.Contains (chunk r) READY_MARKER = true
    /\ Forall (fun x => strings.Contains (chunk x) READY_MARKER = false
                        /\ readErr x = None) pre
    /\ o = out ++ concat (map chunk pre) ++ chunk r
    /\ (t + N.of_nat (length pre) < t')%N.
Proof.
  induction reads as [|r reads IH]; intros out t o t' H; [discriminate H|].
  cbn [copyAndCapture] in H.
  destruct (Nat.ltb 0 (length (chunk r))) eqn:En.
  - destruct (writeErr r); [discriminate H|].
    destruct (strings.Contains (chunk r) READY_MARKER) eqn:Ec.
    + inversion H; subst. exists [], r, reads. simpl. repeat split; try assumption.
      * constructor.
      * lia.
    + destruct (readErr r) eqn:Er; [discriminate H|].
      apply IH in H as (pre & x & post & -> & Hx & Hpre & -> & Ht).
      exists (r :: pre), x, post. simpl. repeat split; try assumption.
      * constructor; [now split|assumption].
      * now rewrite <- !app_assoc.
      * lia.
  - destruct (readErr r) eqn:Er; [discriminate H|].
    assert (Hc : chunk r = []).
    { apply Nat.ltb_ge in En. destruct (chunk r); [reflexivity|simpl in En; lia]. }
    apply IH in H as (pre & x & post & -> & Hx & Hpre & -> & Ht).
    exists (r :: pre), x, post. simpl. repeat split; try assumption.
    + constructor; [|assumption]. rewrite Hc. now split.
    + now rewrite Hc.
    + lia.
Qed.

(** X5. [copyAndCapture] ends in success only when one single read
    returned the marker: the reads before it returned no marker and no
    error, what is captured is what all of them returned, and every read
    has cost one second at least.  A marker that arrives in two pieces is
    not seen. *)
Theorem copyAndCapture_success (reads : list StderrRead) (out : bytes) (t : N)
  (o : bytes) (t' : N) :
  copyAndCapture reads out t = Some (o, None, t') ->
  exists pre r post,
    reads = pre ++ r :: post
    /\ strings.Contains (chunk r) READY_MARKER = true
    /\ Forall (fun x => strings.Contains (chunk x) READY_MARKER = false
                        /\ readErr x = None) pre
    /\ o = out ++ concat (map chunk pre) ++ chunk r
    /\ (t + N.of_nat (length pre) < t')%N.
Proof. apply copyAndCapture_marker. Qed.

Section Waiting.
Context {W : Type}.
Variable env : Env W.

(** X6. [startAndWaitTF] reports no error only when the process has been
    started and its log has shown the marker in one of the first 29 reads:
    a server that takes 30 reads or more to get ready is given up, and the
    command that is handed back holds the process. *)
Theorem startAndWaitTF_ready (cmd cmd' : Cmd) (s s' : State W) :
  startAndWaitTF env cmd s = (Value (cmd', None), s') ->
  exists p pre r post,
    fst (exec_Start env (Args cmd) (world s)) = inl p
    /\ fst (exec_Stderr env p (snd (exec_Start env (Args cmd) (world s))))
       = pre ++ r :: post
    /\ strings.Contains (chunk r) READY_MARKER = true
    /\ (length pre < 29)%nat
    /\ cmd' = mkCmd (Args cmd) (Some p)
    /\ trace s' = trace s ++ [EvStart (Args cmd) (inl p); EvStderr p].
Proof.
  unfold startAndWaitTF. rewrite bind_call.
  destruct (exec_Start env (Args cmd) (world s)) as [[p|e] w] eqn:Es; cbn [fst snd].
  - rewrite bind_call. cbn [fst snd world trace header body].
    destruct (exec_Stderr env p w) as [reads w'] eqn:Er. cbn [fst snd].
    destruct (copyAndCapture reads [] 0) as [[[o err] t]|] eqn:Ec.
    + destruct (t <? TF_TIMEOUT)%N eqn:Et; intros H; inversion H; subst; clear H.
      apply copyAndCapture_marker in Ec as (pre & r & post & -> & Hr & _ & _ & Ht).
      exists p, pre, r, post. apply N.ltb_lt in Et. unfold TF_TIMEOUT in Et.
      cbn [fst snd trace]. rewrite Er. cbn [fst].
      split; [reflexivity|]. split; [reflexivity|]. split; [assumption|].
      split; [lia|]. split; [reflexivity|]. now rewrite <- app_assoc.
    + intros H. inversion H.
  - intros H. inversion H.
Qed.

End Waiting.

(** ** More on the transcoder *)

Section Transcoding.
Context {F : json.Float64}.

Lemma scanAll_blank (l : bytes) (st : list json.frame) (t : option json.text) :
  blank l ->
  json.scanAll (json.mkScanner json.stateBeginValue st t) l
  = Some (json.mkScanner json.stateBeginValue st t).
Proof.
  induction 1 as [|c l Hc _ IH]; [reflexivity|].
  cbn [json.scanAll json.scan json.step]. unfold json.beginValue.
  rewrite Hc. cbn [json.parseState json.top]. exact IH.
Qed.

Lemma Unmarshal_blank (l : bytes) :
  blank l -> json.Unmarshal l = (json.VNil, Some SyntaxError).
Proof.
  intros H. unfold json.Unmarshal, json.checkValid. now rewrite scanAll_blank.
Qed.

(** X7. A line of white space only is no JSON value: a file that holds
    one, a line of blanks, of tabs or a lone carriage return, is given up
    with an error and no request body, like a file with an empty line. *)
Theorem formatInput_rejects_blank_line (input : bytes) (ls : list bytes) (l : bytes) :
  consists_of input ls ->
  In l ls ->
  blank l ->
  exists err, formatInput (NewReader input) = ([], Some err).
Proof.
  intros Hfile Hin Hl. apply (formatInput_bad_line input ls l Hfile Hin).
  rewrite (Unmarshal_blank _ Hl). discriminate.
Qed.

Lemma formatInput_loop_ext (ts ts' : list bytes) :
  Forall2 (fun a b => json.Unmarshal a = json.Unmarshal b) ts ts' ->
  forall i, formatInput_loop ts i = formatInput_loop ts' i.
Proof.
  induction 1 as [|a b ts ts' Hab _ IH]; intros i; [reflexivity|].
  simpl. rewrite Hab. destruct (json.Unmarshal b) as [o [e|]]; [reflexivity|apply IH].
Qed.

Lemma dropCR_CR (l : bytes) : bufio.dropCR (l ++ [CR]) = l.
Proof.
  unfold bufio.dropCR. rewrite rev_app_distr. simpl. apply rev_involutive.
Qed.

Lemma consists_of_unlines (ls : list bytes) :
  Forall (fun l => ~ In LF l) ls -> consists_of (unlines ls) ls.
Proof. intros H. split; [assumption|now left]. Qed.

(** X8. A file whose lines end with a carriage return and a newline gives
    what the same file with newlines only gives, the same request body or
    the same error, as long as the lines with their carriage return fit in
    the buffer of the scanner. *)
Theorem formatInput_carriage_returns (ls : list bytes) :
  Forall (fun l => ~ In LF l) ls ->
  Forall (fun l => (len l < 65535)%Z) ls ->
  formatInput (NewReader (unlines (map (fun l => l ++ [CR]) ls)))
  = formatInput (NewReader (unlines ls)).
Proof.
  intros Hls Hshort. unfold formatInput.
  rewrite (Scanner_lines (unlines ls) ls).
  2:{ now apply consists_of_unlines. }
  2:{ eapply Forall_impl; [|exact Hshort]. unfold short. intros; lia. }
  rewrite (Scanner_lines (unlines (map (fun l => l ++ [CR]) ls))
             (map (fun l => l ++ [CR]) ls)).
  2:{ apply consists_of_unlines. apply Forall_map.
      eapply Forall_impl; [|exact Hls]. intros l Hl Hin.
      apply in_app_or in Hin as [Hin|[Hin|[]]]; [now apply Hl|discriminate Hin]. }
  2:{ apply Forall_map. eapply Forall_impl; [|exact Hshort].
      unfold short, len. intros l Hl. rewrite length_app. simpl. lia. }
  rewrite (formatInput_loop_ext (map bufio.dropCR (map (fun l => l ++ [CR]) ls))
             (map bufio.dropCR ls)); [reflexivity|].
  clear. induction ls as [|l ls IH]; simpl; constructor; [|exact IH].
  now rewrite dropCR_CR, Unmarshal_dropCR.
Qed.

Lemma formatOutput_loop_error (ps : list json.value) : forall acc out e,
  formatOutput_loop ps acc = (out, Some e) -> out = [].
Proof.
  induction ps as [|p ps IH]; intros acc out e H; simpl in H; [discriminate H|].
  now apply IH in H.
Qed.

(** X9. Neither [formatInput] nor [formatOutput] gives a part of its
    result beside an error: whenever one of them fails, the text it returns
    is empty. *)
Theorem transcoder_error_leaves_no_text :
  (forall (r : Reader) (out : bytes) (e : error),
      formatInput r = (out, Some e) -> out = [])
  /\ (forall (r : Reader) (out : bytes) (e : error),
         formatOutput r = (out, Some e) -> out = []).
Proof.
  split; intros r out e H.
  - unfold formatInput in H.
    destruct (bufio.Scanner r) as [tokens scanErr].
    destruct (formatInput_loop tokens _) as [i [e1|]]; [now inversion H|].
    destruct scanErr as [e2|]; [now inversion H|].
    simpl in H. discriminate H.
  - unfold formatOutput, ioutil.ReadAll in H.
    destruct (failure r); [now inversion H|].
    destruct (Unmarshal_tfAnswer _ _) as [answer [e1|]]; [now inversion H|].
    destruct (negb _); [now inversion H|].
    destruct (Prediction answer) as [ps|]; [|discriminate H].
    now apply formatOutput_loop_error in H.
Qed.

Lemma scanLines_failure (input : bytes) (e : error) : forall line n,
  snd (bufio.scanLines line n input (Some e)) <> None.
Proof.
  induction input as [|c input IH]; intros line n; simpl; [discriminate|].
  destruct (Ascii.eqb c LF).
  - specialize (IH [] 0%N). destruct (bufio.scanLines [] 0 input (Some e)). exact IH.
  - destruct (bufio.MaxScanTokenSize <=? n + 1)%N; [discriminate|apply IH].
Qed.

(** X10. A reader that fails is never taken for the end of the data:
    [formatOutput] returns the error of the reader and no text, and
    [formatInput] returns an error and no text, whatever has been read
    before the failure. *)
Theorem transcoder_reports_read_failure (r : Reader) (e : error) :
  failure r = Some e ->
  formatOutput r = ([], Some e)
  /\ exists err, formatInput r = ([], Some err).
Proof.
  intros H. split.
  - unfold formatOutput, ioutil.ReadAll. now rewrite H.
  - apply formatInput_fails. right. unfold bufio.Scanner. rewrite H.
    apply scanLines_failure.
Qed.

End Transcoding.

(** ** What the steps call, and where *)

Section Calls.
Context {W : Type}.
Variable P : event -> Prop.

Lemma calls_ret {A} (a : A) : calls (W := W) P (ret a).
Proof. split; [apply emits_ret|]. intros s o s' H. now inversion H. Qed.

Lemma calls_unfinished {A} : calls (W := W) (A := A) P unfinished.
Proof. split; [apply emits_unfinished|]. intros s o s' H. now inversion H. Qed.

Lemma calls_panic {A} (msg : bytes) : calls (W := W) (A := A) P (panic msg).
Proof. split; [apply emits_panic|]. intros s o s' H. now inversion H. Qed.

Lemma calls_lift {A} (g : go A) : calls (W := W) P (lift g).
Proof. destruct g; [apply calls_ret|apply calls_panic]. Qed.

Lemma calls_bind {A B} (m : M W A) (f : A -> M W B) :
  calls P m -> (forall a, calls P (f a)) -> calls P (bind m f).
Proof.
  intros [Hm Sm] Hf. split.
  - apply emits_bind; [assumption|]. intros a. apply Hf.
  - intros s o s' H. unfold bind in H.
    destruct (m s) as [[a|msg|] s1] eqn:Em.
    + destruct (Sm _ _ _ Em) as [H1 H2]. destruct (Hf a) as [_ Sf].
      destruct (Sf _ _ _ H) as [H3 H4]. split; congruence.
    + inversion H; subst. eapply Sm; eassumption.
    + inversion H; subst. eapply Sm; eassumption.
Qed.

Lemma calls_call {A} (ev : A -> event) (op : W -> A * W) :
  (forall a, P (ev a)) -> calls P (call ev op).
Proof.
  intros Hev. split; [now apply emits_call|].
  intros s o s' H. unfold call in H. destruct (op (world s)). now inversion H.
Qed.

Lemma calls_io_Copy (write : bytes -> M W (option error)) (src : Reader) :
  (forall b, calls P (write b)) -> calls P (io_Copy write src).
Proof.
  intros Hw. unfold io_Copy. destruct (data src); [apply calls_ret|].
  apply calls_bind; [apply Hw|].
  intros [e|]; apply calls_ret.
Qed.

(** A call whose result goes on: only what the call may give counts. *)
Lemma calls_bind_call {A B} (ev : A -> event) (op : W -> A * W) (f : A -> M W B) :
  (forall w, P (ev (fst (op w)))) ->
  (forall w, calls P (f (fst (op w)))) ->
  calls P (bind (call ev op) f).
Proof.
  intros Hev Hf. split.
  - intros s o s' H. rewrite bind_call in H.
    destruct (Hf (world s)) as [He _]. destruct (He _ _ _ H) as (t & Ht & HP).
    cbn [trace] in Ht. exists (ev (fst (op (world s))) :: t).
    rewrite Ht, <- app_assoc. split; [reflexivity|]. constructor; [apply Hev|assumption].
  - intros s o s' H. rewrite bind_call in H.
    destruct (Hf (world s)) as [_ Hs]. exact (Hs _ _ _ H).
Qed.

Lemma calls_bind_lift {A B} (g : go A) (f : A -> M W B) :
  (forall a, g = Return a -> calls P (f a)) -> calls P (bind (lift g) f).
Proof.
  intros Hf. destruct g as [a|msg]; [exact (Hf a eq_refl)|].
  split; intros s o s' H; rewrite bind_Panic in H; inversion H; subst.
  - exists []. now rewrite app_nil_r.
  - now split.
Qed.

End Calls.

Lemma calls_weaken {W A} (P Q : event -> Prop) (m : M W A) :
  (forall e, P e -> Q e) -> calls P m -> calls Q m.
Proof.
  intros HPQ [Hm Sm]. split; [|assumption].
  intros s o s' H. destruct (Hm _ _ _ H) as (t & Ht & HP).
  exists t. split; [assumption|]. eapply Forall_impl; [|eassumption]. assumption.
Qed.

Lemma emits_weaken {W A} (P Q : event -> Prop) (m : M W A) :
  (forall e, P e -> Q e) -> emits P m -> emits Q m.
Proof.
  intros HPQ Hm s o s' H. destruct (Hm _ _ _ H) as (t & Ht & HP).
  exists t. split; [assumption|]. eapply Forall_impl; [|eassumption]. assumption.
Qed.

(** *** Paths without a parent directory *)

Lemma hasDotDot_tail (c : ascii) (x : bytes) :
  hasDotDot (c :: x) = false -> hasDotDot x = false.
Proof.
  cbn [hasDotDot]. destruct x as [|d x]; [reflexivity|].
  intros H. now apply orb_false_elim in H as [_ H].
Qed.

Lemma hasDotDot_skipn (k : nat) : forall x,
  hasDotDot x = false -> hasDotDot (skipn k x) = false.
Proof.
  induction k as [|k IH]; intros x H; [exact H|].
  destruct x as [|c x]; [reflexivity|]. cbn [skipn]. apply IH.
  exact (hasDotDot_tail _ _ H).
Qed.

Lemma hasDotDot_seam (r0 : bytes) (c : ascii) (b : bytes) :
  c <> "."%char ->
  hasDotDot (r0 ++ [c]) = false -> hasDotDot b = false ->
  hasDotDot ((r0 ++ [c]) ++ b) = false.
Proof.
  intros Hc. induction r0 as [|x r0 IH]; intros Ha Hb.
  - cbn [app hasDotDot]. destruct b as [|d b]; [reflexivity|].
    rewrite Hb, orb_false_r. apply andb_false_intro1. now apply Ascii.eqb_neq.
  - pose proof (hasDotDot_tail _ _ Ha) as Ht. specialize (IH Ht Hb).
    destruct r0 as [|y r0].
    + cbn [app] in *. cbn [hasDotDot] in Ha. cbn [hasDotDot].
      cbn [hasDotDot] in IH. rewrite IH, orb_false_r.
      now rewrite orb_false_r in Ha.
    + cbn [app] in *.
      change (hasDotDot (x :: y :: (r0 ++ [c]) ++ b))
        with ((Ascii.eqb x "." && Ascii.eqb y ".") || hasDotDot (y :: (r0 ++ [c]) ++ b)).
      change (hasDotDot (x :: y :: r0 ++ [c]))
        with ((Ascii.eqb x "." && Ascii.eqb y ".") || hasDotDot (y :: r0 ++ [c])) in Ha.
      apply orb_false_elim in Ha as [Ha _]. now rewrite Ha, IH.
Qed.

Lemma hasDotDot_app (a b : bytes) :
  seam a -> hasDotDot a = false -> hasDotDot b = false -> hasDotDot (a ++ b) = false.
Proof.
  intros [->|(r0 & c & -> & Hc)] Ha Hb; [exact Hb|]. now apply hasDotDot_seam.
Qed.

Lemma hasDotDot_snoc (a : bytes) (c : ascii) :
  c <> "."%char -> hasDotDot a = false -> hasDotDot (a ++ [c]) = false.
Proof.
  intros Hc. induction a as [|x a IH]; intros Ha; [reflexivity|].
  pose proof (IH (hasDotDot_tail _ _ Ha)) as Ht.
  destruct a as [|y a].
  - cbn [app hasDotDot]. rewrite orb_false_r. apply andb_false_intro2.
    now apply Ascii.eqb_neq.
  - cbn [app] in *.
    change (hasDotDot (x :: y :: a ++ [c]))
      with ((Ascii.eqb x "." && Ascii.eqb y ".") || hasDotDot (y :: a ++ [c])).
    change (hasDotDot (x :: y :: a))
      with ((Ascii.eqb x "." && Ascii.eqb y ".") || hasDotDot (y :: a)) in Ha.
    apply orb_false_elim in Ha as [Ha _]. now rewrite Ha, Ht.
Qed.

Lemma seam_app (a r0 : bytes) (c : ascii) : c <> "."%char -> seam (a ++ r0 ++ [c]).
Proof. intros Hc. right. exists (a ++ r0), c. now rewrite app_assoc. Qed.

Lemma HasSuffix_split (n : bytes) :
  strings.HasSuffix n (B "/") = true -> exists n0, n = n0 ++ B "/".
Proof.
  unfold strings.HasSuffix. intros H.
  destruct (rev n) as [|c l] eqn:E; [discriminate H|].
  cbn in H. apply andb_prop in H as [Hc _]. apply Ascii.eqb_eq in Hc. subst c.
  exists (rev l). rewrite <- (rev_involutive n), E. reflexivity.
Qed.

Lemma slash_not_dot : "/"%char <> "."%char.
Proof. discriminate. Qed.

Lemma dir_inside_refl (root : bytes) :
  strings.HasSuffix root (B "/") = true -> dir_inside root root.
Proof.
  intros Hr. split; [assumption|]. exists []. rewrite app_nil_r. repeat split. now left.
Qed.

Lemma dir_inside_is_inside (root d : bytes) : dir_inside root d -> inside root d.
Proof. intros (Hr & rel & -> & H & _). split; [assumption|]. now exists rel. Qed.

Lemma dir_inside_file (root d n : bytes) :
  dir_inside root d -> hasDotDot n = false -> inside root (d ++ n).
Proof.
  intros (Hr & rel & -> & H & Hs) Hn. split; [assumption|].
  exists (rel ++ n). rewrite <- app_assoc.
  split; [reflexivity|]. now apply hasDotDot_app.
Qed.

Lemma dir_inside_dir (root d n0 : bytes) :
  dir_inside root d -> hasDotDot n0 = false -> dir_inside root (d ++ n0 ++ B "/").
Proof.
  intros (Hr & rel & -> & H & Hs) Hn. split; [assumption|].
  exists (rel ++ n0 ++ B "/"). rewrite <- app_assoc.
  split; [reflexivity|]. split.
  - apply hasDotDot_app; try assumption. apply hasDotDot_snoc; [apply slash_not_dot|assumption].
  - apply seam_app, slash_not_dot.
Qed.

Lemma dir_inside_prefixed (root d n : bytes) :
  dir_inside root d -> hasDotDot n = false -> inside root (d ++ OUTPUT_PREFIX ++ n).
Proof.
  intros Hd Hn. apply dir_inside_file; [assumption|].
  apply (hasDotDot_app OUTPUT_PREFIX n); [|reflexivity|assumption].
  right. exists (B "prediction"), "_"%char. split; [reflexivity|discriminate].
Qed.

Section Confinement.
Context {F : json.Float64}.
Context {W : Type}.
Variable env : Env W.

Lemma downloadFile_calls (bucket path dest root : bytes) :
  under root dest ->
  calls (download_event bucket root) (downloadFile env bucket path dest).
Proof.
  intros Hd. unfold downloadFile.
  destruct (strings.HasSuffix path _); [apply calls_ret|].
  apply calls_bind; [now apply calls_call|intros [src [e|]]]; [apply calls_ret|].
  apply calls_bind; [now apply calls_call|intros [e|]]; [apply calls_ret|].
  apply calls_io_Copy. intros b. now apply calls_call.
Qed.

Lemma downloadFiles_loop_calls (recurse : bytes -> bytes -> M W (option error))
  (bucket path localDest root : bytes) (done : option error) (names : list bytes) :
  under root localDest ->
  (forall p d, under root d -> calls (download_event bucket root) (recurse p d)) ->
  calls (download_event bucket root)
    (downloadFiles_loop env recurse bucket path localDest done names).
Proof.
  intros Hroot Hrec. induction names as [|name names IH]; simpl; [apply calls_ret|].
  apply calls_bind; [apply calls_lift|intros n].
  destruct (beq n []); [exact IH|].
  apply calls_bind.
  - destruct (strings.HasSuffix n _).
    + apply Hrec. now apply under_app.
    + apply downloadFile_calls. now apply under_app.
  - intros [e|]; [apply calls_ret|exact IH].
Qed.

Lemma downloadFiles_calls (fuel : nat) : forall bucket path localDest root,
  under root localDest ->
  calls (download_event bucket root) (downloadFiles env fuel bucket path localDest).
Proof.
  induction fuel as [|fuel IH]; intros bucket path localDest root Hroot; simpl;
    (destruct (negb _); [apply calls_ret|]);
    (apply calls_bind; [now apply calls_call|intros _]);
    (apply calls_bind; [now apply calls_call|intros [names done]]);
    apply downloadFiles_loop_calls; try assumption; intros p d Hd.
  - apply calls_unfinished.
  - now apply IH.
Qed.

Lemma downloadFile_fetch (bucket path dest root : bytes) :
  inside root dest ->
  calls (fetch_event bucket root) (downloadFile env bucket path dest).
Proof.
  intros Hd. unfold downloadFile.
  destruct (strings.HasSuffix path _); [apply calls_ret|].
  apply calls_bind; [now apply calls_call|intros [src [e|]]]; [apply calls_ret|].
  apply calls_bind; [now apply calls_call|intros [e|]]; [apply calls_ret|].
  apply calls_io_Copy. intros b. now apply calls_call.
Qed.

Lemma downloadFiles_loop_fetch (recurse : bytes -> bytes -> M W (option error))
  (bucket path localDest root : bytes) (done : option error) (names : list bytes) :
  dir_inside root localDest ->
  Forall (fun name => hasDotDot name = false) names ->
  (forall p d, dir_inside root d -> calls (fetch_event bucket root) (recurse p d)) ->
  calls (fetch_event bucket root)
    (downloadFiles_loop env recurse bucket path localDest done names).
Proof.
  intros Hroot Hnames Hrec.
  induction Hnames as [|name names Hname _ IH]; cbn [downloadFiles_loop];
    [apply calls_ret|].
  apply calls_bind_lift. intros n Hn.
  assert (Hplain : hasDotDot n = false).
  { unfold strings.slice_from in Hn. destruct (_ && _)%bool; [|discriminate Hn].
    inversion Hn; subst. now apply hasDotDot_skipn. }
  destruct (beq n []); [exact IH|].
  apply calls_bind.
  - destruct (strings.HasSuffix n _) eqn:Es.
    + apply Hrec. destruct (HasSuffix_split _ Es) as (n0 & ->).
      apply dir_inside_dir; [assumption|].
      clear - Hplain. induction n0 as [|c n0 IH]; [reflexivity|].
      pose proof (IH (hasDotDot_tail _ _ Hplain)) as Ht.
      destruct n0 as [|d n0]; [reflexivity|]. cbn [app] in Hplain.
      change (hasDotDot (c :: d :: n0 ++ B "/"))
        with ((Ascii.eqb c "." && Ascii.eqb d ".") || hasDotDot (d :: n0 ++ B "/"))
        in Hplain.
      apply orb_false_elim in Hplain as [Hcd _].
      change (hasDotDot (c :: d :: n0))
        with ((Ascii.eqb c "." && Ascii.eqb d ".") || hasDotDot (d :: n0)).
      now rewrite Hcd, Ht.
    + apply downloadFile_fetch. now apply dir_inside_file.
  - intros [e|]; [apply calls_ret|exact IH].
Qed.

Lemma downloadFiles_fetch (fuel : nat) : forall bucket path localDest root,
  lists_plain env ->
  dir_inside root localDest ->
  calls (fetch_event bucket root) (downloadFiles env fuel bucket path localDest).
Proof.
  induction fuel as [|fuel IH]; intros bucket path localDest root Hplain Hroot;
    cbn [downloadFiles];
    (destruct (negb _); [apply calls_ret|]);
    (apply calls_bind; [apply calls_call; intros; now apply dir_inside_is_inside|intros _]);
    (apply calls_bind_call; [reflexivity|intros w]);
    pose proof (Hplain bucket path w) as Hn;
    destruct (fst (storage_Objects env bucket path w)) as [names done];
    cbn [fst] in Hn;
    apply downloadFiles_loop_fetch; try assumption; intros p d Hd.
  - apply calls_unfinished.
  - now apply IH.
Qed.

(** X11. [downloadFiles] stays where it is sent, as long as the bucket
    lists no name with two dots in a row (the code joins what follows the
    prefix in a listed name to [localDest] as it is, without a check).
    Then, for a [localDest] that ends with the separator, whatever else the
    bucket lists and however the calls end, it lists and reads the given
    bucket only, every directory and file it makes, creates or writes is
    [localDest] followed by a text without two dots in a row, so that it
    lies inside [localDest], it makes no other call, and it writes nothing
    to the response. *)
Theorem downloadFiles_stays_under_localDest (fuel : nat) (bucket path localDest : bytes)
  (s : State W) (o : outcome (option error)) (s' : State W) :
  lists_plain env ->
  strings.HasSuffix localDest (B "/") = true ->
  downloadFiles env fuel bucket path localDest s = (o, s') ->
  (exists t, trace s' = trace s ++ t /\ Forall (fetch_event bucket localDest) t)
  /\ header s' = header s /\ body s' = body s.
Proof.
  intros Hplain Hdest H.
  destruct (downloadFiles_fetch fuel bucket path localDest localDest Hplain
              (dir_inside_refl _ Hdest)) as [He Hs].
  split; [exact (He _ _ _ H)|exact (Hs _ _ _ H)].
Qed.

Lemma uploadFile_loop_calls (recurse : bytes -> bytes -> M W (option error))
  (bucket path localPath rp rl : bytes) (files : list FileInfo) :
  under (asDirectory rp) path ->
  under rl localPath ->
  (forall p l, under (asDirectory rp) (asDirectory p) -> under rl l ->
               calls (upload_event bucket rp rl) (recurse p l)) ->
  calls (upload_event bucket rp rl) (uploadFile_loop env recurse bucket path localPath files).
Proof.
  intros Hp Hl Hrec. induction files as [|file files IH]; simpl; [apply calls_ret|].
  destruct (IsDir file).
  - apply calls_bind.
    + apply Hrec; [|now apply under_app].
      rewrite app_assoc, asDirectory_sep, <- app_assoc. now apply under_app.
    + intros [e|]; [apply calls_ret|exact IH].
  - apply calls_bind; [apply calls_call; intros; now apply under_app|].
    intros [f [e|]]; [apply calls_ret|].
    apply calls_bind.
    + apply calls_io_Copy. intros b. apply calls_call. intros _.
      split; [reflexivity|now apply under_app].
    + intros [e|]; [apply calls_ret|].
      apply calls_bind.
      * apply calls_call. intros _. split; [reflexivity|now apply under_app].
      * intros [e|]; [apply calls_ret|exact IH].
Qed.

Lemma uploadFile_calls (fuel : nat) : forall bucket path localPath rp rl,
  under (asDirectory rp) (asDirectory path) ->
  under rl localPath ->
  calls (upload_event bucket rp rl) (uploadFile env fuel bucket path localPath).
Proof.
  induction fuel as [|fuel IH]; intros bucket path localPath rp rl Hp Hl;
    cbn [uploadFile];
    (apply calls_bind; [now apply calls_call|intros [files [e|]]]; [apply calls_ret|]);
    apply uploadFile_loop_calls; try assumption; intros p l Hp' Hl'.
  - apply calls_unfinished.
  - now apply IH.
Qed.


Lemma makePredictions_file_calls (inputPath outputPath ri ro : bytes) (file : FileInfo) :
  under ri inputPath -> under ro outputPath ->
  calls (predict_event ri ro) (makePredictions_file env inputPath outputPath file).
Proof.
  intros Hi Ho. unfold makePredictions_file.
  apply calls_bind; [apply calls_call; intros; now apply under_app|].
  intros [f [e|]]; [apply calls_ret|].
  destruct (formatInput f) as [finput [e|]]; [apply calls_ret|].
  apply calls_bind; [apply calls_call; intros; now split|].
  intros [resp [e|]]; [apply calls_ret|].
  destruct (formatOutput resp) as [foutput [e|]]; [apply calls_ret|].
  apply calls_bind; [apply calls_call; intros; now apply under_app|].
  intros [e|]; [apply calls_ret|].
  apply calls_bind; [|intros; apply calls_ret].
  apply calls_io_Copy. intros b. apply calls_call. intros. now apply under_app.
Qed.

Lemma makePredictions_loop_calls (recurse : bytes -> bytes -> M W (option error))
  (inputPath outputPath ri ro : bytes) (files : list FileInfo) :
  under ri inputPath -> under ro outputPath ->
  (forall i o, under ri i -> under ro o -> calls (predict_event ri ro) (recurse i o)) ->
  calls (predict_event ri ro) (makePredictions_loop env recurse inputPath outputPath files).
Proof.
  intros Hi Ho Hrec. induction files as [|file files IH]; simpl; [apply calls_ret|].
  destruct (IsDir file).
  - apply calls_bind; [apply Hrec; now apply under_app|].
    intros [e|]; [apply calls_ret|exact IH].
  - apply calls_bind; [now apply makePredictions_file_calls|].
    intros [err|]; [apply calls_ret|exact IH].
Qed.

Lemma makePredictions_calls (fuel : nat) : forall inputPath outputPath ri ro,
  under ri inputPath -> under ro outputPath ->
  calls (predict_event ri ro) (makePredictions env fuel inputPath outputPath).
Proof.
  induction fuel as [|fuel IH]; intros inputPath outputPath ri ro Hi Ho;
    cbn [makePredictions];
    (apply calls_bind; [now apply calls_call|intros [files [e|]]]; [apply calls_ret|]);
    (apply calls_bind; [now apply calls_call|intros _]);
    apply makePredictions_loop_calls; try assumption; intros i o Hi' Ho'.
  - apply calls_unfinished.
  - now apply IH.
Qed.


(** X14. [uploadFile] reads its target as a directory: a path without
    the separator at its end is uploaded to as the same path with the
    separator. *)
Theorem uploadFile_path_is_directory (fuel : nat) (bucket path localPath : bytes) :
  uploadFile env fuel bucket path localPath
  = uploadFile env fuel bucket (asDirectory path) localPath.
Proof.
  assert (E : (if negb (strings.HasSuffix (asDirectory path) (B "/"))
               then asDirectory path ++ B "/" else asDirectory path)
              = (if negb (strings.HasSuffix path (B "/")) then path ++ B "/" else path)).
  { exact (asDirectory_idem path). }
  destruct fuel; cbn [uploadFile]; now rewrite E.
Qed.

(** X15. Once the output file of an input file has been created,
    [makePredictions] goes on to the next entry whatever the write of the
    predictions gives: the error of that write is dropped. *)
Theorem makePredictions_file_drops_write_error (inputPath outputPath : bytes)
  (file : FileInfo) (s : State W) (o : outcome (option (option error))) (s' : State W)
  (t : list event) (content : bytes) :
  makePredictions_file env inputPath outputPath file s = (o, s') ->
  trace s' = trace s ++ t ->
  In (EvWriteFile (outputPath ++ OUTPUT_PREFIX ++ Name file) content) t ->
  o = Value None.
Proof.
  unfold makePredictions_file. rewrite bind_call.
  destruct (os_Open env _ (world s)) as [[f [e|]] w1]; cbn [fst snd].
  { intros H Ht Hin. inversion H; subst. cbn [trace] in Ht.
    apply app_inv_head in Ht. subst t. destruct Hin as [Hin|[]]. discriminate Hin. }
  destruct (formatInput f) as [finput [e|]].
  { intros H Ht Hin. inversion H; subst. cbn [trace] in Ht.
    apply app_inv_head in Ht. subst t. destruct Hin as [Hin|[]]. discriminate Hin. }
  rewrite bind_call. cbn [world trace header body].
  destruct (http_Post env _ _ _ w1) as [[resp [e|]] w2]; cbn [fst snd].
  { intros H Ht Hin. inversion H; subst. cbn [trace] in Ht.
    rewrite <- app_assoc in Ht. apply app_inv_head in Ht. subst t.
    destruct Hin as [Hin|[Hin|[]]]; discriminate Hin. }
  destruct (formatOutput resp) as [foutput [e|]].
  { intros H Ht Hin. inversion H; subst. cbn [trace] in Ht.
    rewrite <- app_assoc in Ht. apply app_inv_head in Ht. subst t.
    destruct Hin as [Hin|[Hin|[]]]; discriminate Hin. }
  rewrite bind_call. cbn [world trace header body].
  destruct (os_Create env _ w2) as [[e|] w3]; cbn [fst snd].
  { intros H Ht Hin. inversion H; subst. cbn [trace] in Ht.
    rewrite <- !app_assoc in Ht. apply app_inv_head in Ht. subst t.
    destruct Hin as [Hin|[Hin|[Hin|[]]]]; discriminate Hin. }
  intros H _ _. unfold io_Copy, NewReader in H. cbn [data failure] in H.
  destruct foutput as [|c foutput]; [now inversion H|].
  unfold bind at 1 in H. rewrite bind_call in H.
  destruct (fst (os_Write env _ _ _)); unfold ret in H; now inversion H.
Qed.

Lemma downloadFile_copies (bucket path dest : bytes) :
  emits copy_event (downloadFile env bucket path dest).
Proof.
  unfold downloadFile.
  destruct (strings.HasSuffix path _); [apply emits_ret|].
  apply emits_bind; [now apply emits_call|intros [src [e|]]]; [apply emits_ret|].
  apply emits_bind; [now apply emits_call|intros [e|]]; [apply emits_ret|].
  unfold io_Copy. destruct (data src); [apply emits_ret|].
  apply emits_bind; [now apply emits_call|].
  intros [e|]; apply emits_ret.
Qed.

Lemma downloadFile_returns (bucket path dest : bytes) (s : State W)
  (o : outcome (option error)) (s' : State W) :
  downloadFile env bucket path dest s = (o, s') -> exists err, o = Value err.
Proof.
  unfold downloadFile.
  destruct (strings.HasSuffix path _); [intros H; inversion H; eauto|].
  rewrite bind_call. destruct (storage_NewReader env _ _ _) as [[src [e1|]] w1];
    cbn [fst snd]; [intros H; inversion H; eauto|].
  rewrite bind_call. cbn [world trace header body].
  destruct (os_Create env _ w1) as [[e2|] w2]; cbn [fst snd];
    [intros H; inversion H; eauto|].
  unfold io_Copy. destruct (data src); [intros H; inversion H; eauto|].
  rewrite bind_call. cbn [world trace header body].
  destruct (fst (os_Write env _ _ _)); intros H; inversion H; eauto.
Qed.

Lemma downloadFiles_loop_flat (recurse : bytes -> bytes -> M W (option error))
  (bucket path localDest : bytes) (done : option error) (names : list bytes) :
  Forall (fun name => forall n, strings.slice_from name (len path) = Return n ->
                                strings.HasSuffix n (B "/") = false) names ->
  forall st o1 s1,
    downloadFiles_loop env recurse bucket path localDest done names st = (o1, s1) ->
    o1 <> Unfinished
    /\ exists t, trace s1 = trace st ++ t /\ Forall copy_event t.
Proof.
  induction 1 as [|name names Hname _ IH]; intros st o1 s1 H.
  - inversion H; subst. split; [discriminate|]. exists []. now rewrite app_nil_r.
  - cbn [downloadFiles_loop] in H. unfold bind at 1 in H.
    destruct (strings.slice_from name (len path)) as [n|m] eqn:En.
    + cbn [lift] in H. unfold ret at 1 in H.
      specialize (Hname n eq_refl).
      destruct (beq n []); [now apply IH|].
      rewrite Hname in H. unfold bind in H.
      destruct (downloadFile env bucket name (localDest ++ n) st) as [o2 s2] eqn:Ed.
      destruct (downloadFile_copies _ _ _ _ _ _ Ed) as (t0 & Ht0 & HP0).
      destruct (downloadFile_returns _ _ _ _ _ _ Ed) as ([e|] & ->).
      * inversion H; subst. split; [discriminate|]. now exists t0.
      * apply IH in H as [Ho (t & Ht & HP)]. split; [assumption|].
        exists (t0 ++ t). rewrite Ht, Ht0, app_assoc. split; [reflexivity|].
        now apply Forall_app.
    + cbn [lift] in H. unfold panic in H. inversion H; subst.
      split; [discriminate|]. exists []. now rewrite app_nil_r.
Qed.

(** X16. A listing without a directory entry is downloaded in one pass,
    whatever the recursion budget: after the directory [localDest] has been
    made and the bucket listed, [downloadFiles] only opens objects and
    creates and writes files.  No directory is made for an object whose
    name holds a separator after the prefix. *)
Theorem downloadFiles_without_directory_entries (fuel : nat)
  (bucket path localDest : bytes) (names : list bytes) (done : option error) (w : W)
  (s : State W) (o : outcome (option error)) (s' : State W) :
  strings.HasSuffix path (B "/") = true ->
  storage_Objects env bucket path (snd (os_MkdirAll env localDest (world s)))
  = ((names, done), w) ->
  Forall (fun name => forall n, strings.slice_from name (len path) = Return n ->
                                strings.HasSuffix n (B "/") = false) names ->
  downloadFiles env fuel bucket path localDest s = (o, s') ->
  o <> Unfinished
  /\ exists t,
       trace s' = trace s ++ EvMkdirAll localDest :: EvObjects bucket path :: t
       /\ Forall copy_event t.
Proof.
  intros Hpath Hlist Hnames H.
  assert (Hrun : exists recurse,
             downloadFiles env fuel bucket path localDest s
             = downloadFiles_loop env recurse bucket path localDest done names
                 (mkState w (trace s ++ [EvMkdirAll localDest; EvObjects bucket path])
                    (header s) (body s))).
  { destruct fuel; cbn [downloadFiles]; rewrite Hpath; cbn [negb];
      rewrite bind_call, bind_call; cbn [fst snd world trace header body];
      rewrite Hlist; cbn [fst snd]; rewrite <- app_assoc; eexists; reflexivity. }
  destruct Hrun as (recurse & Hrun). rewrite Hrun in H.
  apply (downloadFiles_loop_flat _ _ _ _ _ _ Hnames) in H as [Ho (t & Ht & HP)].
  split; [assumption|].
  exists t. cbn [trace] in Ht. rewrite Ht, <- app_assoc. now split.
Qed.

(** *** The same steps, with directory entries without a parent directory *)

Lemma makePredictions_file_infer (inputPath outputPath ri ro : bytes) (file : FileInfo) :
  dir_inside ri inputPath -> dir_inside ro outputPath -> hasDotDot (Name file) = false ->
  calls (infer_event ri ro) (makePredictions_file env inputPath outputPath file).
Proof.
  intros Hi Ho Hn. unfold makePredictions_file.
  apply calls_bind; [apply calls_call; intros; now apply dir_inside_file|].
  intros [f [e|]]; [apply calls_ret|].
  destruct (formatInput f) as [finput [e|]]; [apply calls_ret|].
  apply calls_bind; [apply calls_call; intros; now split|].
  intros [resp [e|]]; [apply calls_ret|].
  destruct (formatOutput resp) as [foutput [e|]]; [apply calls_ret|].
  apply calls_bind; [apply calls_call; intros; now apply dir_inside_prefixed|].
  intros [e|]; [apply calls_ret|].
  apply calls_bind; [|intros; apply calls_ret].
  apply calls_io_Copy. intros b. apply calls_call. intros. now apply dir_inside_prefixed.
Qed.

Lemma makePredictions_loop_infer (recurse : bytes -> bytes -> M W (option error))
  (inputPath outputPath ri ro : bytes) (files : list FileInfo) :
  dir_inside ri inputPath -> dir_inside ro outputPath ->
  Forall (fun f => hasDotDot (Name f) = false) files ->
  (forall i o, dir_inside ri i -> dir_inside ro o -> calls (infer_event ri ro) (recurse i o)) ->
  calls (infer_event ri ro) (makePredictions_loop env recurse inputPath outputPath files).
Proof.
  intros Hi Ho Hfiles Hrec.
  induction Hfiles as [|file files Hfile _ IH]; cbn [makePredictions_loop];
    [apply calls_ret|].
  destruct (IsDir file).
  - apply calls_bind; [apply Hrec; now apply dir_inside_dir|].
    intros [e|]; [apply calls_ret|exact IH].
  - apply calls_bind; [now apply makePredictions_file_infer|].
    intros [err|]; [apply calls_ret|exact IH].
Qed.

Lemma makePredictions_infer (fuel : nat) : forall inputPath outputPath ri ro,
  reads_plain env ->
  dir_inside ri inputPath -> dir_inside ro outputPath ->
  calls (infer_event ri ro) (makePredictions env fuel inputPath outputPath).
Proof.
  induction fuel as [|fuel IH]; intros inputPath outputPath ri ro Hplain Hi Ho;
    cbn [makePredictions];
    (apply calls_bind_call; [intros; now apply dir_inside_is_inside|intros w]);
    pose proof (Hplain inputPath w) as Hn;
    destruct (fst (os_ReadDir env inputPath w)) as [files [e|]];
    cbn [fst] in Hn; try apply calls_ret;
    (apply calls_bind; [apply calls_call; intros; now apply dir_inside_is_inside|intros _]);
    apply makePredictions_loop_infer; try assumption; intros i o Hi' Ho'.
  - apply calls_unfinished.
  - now apply IH.
Qed.

Lemma uploadFile_loop_store (recurse : bytes -> bytes -> M W (option error))
  (bucket path localPath rp rl : bytes) (files : list FileInfo) :
  under (asDirectory rp) path ->
  dir_inside rl localPath ->
  Forall (fun f => hasDotDot (Name f) = false) files ->
  (forall p l, under (asDirectory rp) (asDirectory p) -> dir_inside rl l ->
               calls (store_event bucket rp rl) (recurse p l)) ->
  calls (store_event bucket rp rl) (uploadFile_loop env recurse bucket path localPath files).
Proof.
  intros Hp Hl Hfiles Hrec.
  induction Hfiles as [|file files Hfile _ IH]; cbn [uploadFile_loop];
    [apply calls_ret|].
  destruct (IsDir file).
  - apply calls_bind.
    + apply Hrec; [|now apply dir_inside_dir].
      rewrite app_assoc, asDirectory_sep, <- app_assoc. now apply under_app.
    + intros [e|]; [apply calls_ret|exact IH].
  - apply calls_bind; [apply calls_call; intros; now apply dir_inside_file|].
    intros [f [e|]]; [apply calls_ret|].
    apply calls_bind.
    + apply calls_io_Copy. intros b. apply calls_call. intros _.
      split; [reflexivity|now apply under_app].
    + intros [e|]; [apply calls_ret|].
      apply calls_bind.
      * apply calls_call. intros _. split; [reflexivity|now apply under_app].
      * intros [e|]; [apply calls_ret|exact IH].
Qed.

Lemma uploadFile_store (fuel : nat) : forall bucket path localPath rp rl,
  reads_plain env ->
  under (asDirectory rp) (asDirectory path) ->
  dir_inside rl localPath ->
  calls (store_event bucket rp rl) (uploadFile env fuel bucket path localPath).
Proof.
  induction fuel as [|fuel IH]; intros bucket path localPath rp rl Hplain Hp Hl;
    cbn [uploadFile];
    (apply calls_bind_call; [intros; now apply dir_inside_is_inside|intros w]);
    pose proof (Hplain localPath w) as Hn;
    destruct (fst (os_ReadDir env localPath w)) as [files [e|]];
    cbn [fst] in Hn; try apply calls_ret;
    apply uploadFile_loop_store; try assumption; intros p l Hp' Hl'.
  - apply calls_unfinished.
  - now apply IH.
Qed.

End Confinement.

(** ** The handler as a whole *)

Section Handler.
Context {F : json.Float64}.
Context {W : Type}.
Variable env : Env W.

Lemma parameters_split (before after : list bytes) (name : bytes) :
  parameters = before ++ name :: after ->
  (before = [] /\ name = B "model")
  \/ (before = [B "model"] /\ name = B "input")
  \/ (before = [B "model"; B "input"] /\ name = B "output").
Proof.
  unfold parameters. intros Hp.
  destruct before as [|x1 [|x2 [|x3 before]]]; cbn [app] in Hp.
  - injection Hp as <- _. now left.
  - injection Hp as <- <- _. right. now left.
  - injection Hp as <- <- <- _. right. now right.
  - injection Hp as _ _ _ Hp. destruct before; discriminate Hp.
Qed.

(** X17. A request that is refused is answered at once: the handler
    replies with the status 400 and the message of the first parameter that
    is not accepted, and it makes no call at all, neither to the file
    system, nor to the store, nor to a process. *)
Theorem refused_request_is_answered_400 (fuel : nat) (r : Request) (e : error)
  (s : State W) :
  refused r e ->
  LoadAndPredict env fuel r s
  = (Value tt,
     mkState (world s) (trace s)
       (match header s with None => Some StatusBadRequest | h => h end)
       (body s ++ Error_ e ++ [LF])).
Proof.
  intros (before & name & after & Hp & Hok & (b & p & He)).
  unfold LoadAndPredict.
  destruct (parameters_split _ _ _ Hp) as [[-> ->]|[[-> ->]|[-> ->]]].
  - unfold bind at 1. rewrite He. cbn [lift ret]. apply reply_run.
  - destruct (Forall_inv Hok) as (b1 & p1 & H1).
    unfold bind at 1. rewrite H1. cbn [lift ret].
    unfold bind at 1. rewrite He. cbn [lift ret]. apply reply_run.
  - destruct (Forall_inv Hok) as (b1 & p1 & H1).
    destruct (Forall_inv (Forall_inv_tail Hok)) as (b2 & p2 & H2).
    unfold bind at 1. rewrite H1. cbn [lift ret].
    unfold bind at 1. rewrite H2. cbn [lift ret].
    unfold bind at 1. rewrite He. cbn [lift ret]. apply reply_run.
Qed.

(** *** The calls of the handler *)

Lemma download_not_failed_start (b d : bytes) (e : event) :
  download_event b d e -> ~ failed_start e.
Proof. destruct e; simpl; tauto. Qed.

Lemma started_not_failed_start (bi bo po : bytes) (e : event) :
  started_event bi bo po e -> ~ failed_start e.
Proof. unfold started_event. destruct e; simpl; tauto. Qed.

Lemma input_download_calls (fuel : nat) (bi pi : bytes) :
  calls (download_event bi LOCAL_INPUT_PATH)
    (if strings.HasSuffix pi (B "/") then
       downloadFiles env fuel bi pi LOCAL_INPUT_PATH
     else
       bind (lift (strings.slice_from pi (strings.LastIndex pi (B "/") + 1)))
         (fun n =>
            bind (call (fun _ => EvMkdirAll LOCAL_INPUT_PATH)
                    (os_MkdirAll env LOCAL_INPUT_PATH))
              (fun _ => downloadFile env bi pi (LOCAL_INPUT_PATH ++ n)))).
Proof.
  destruct (strings.HasSuffix pi _).
  - apply downloadFiles_calls, under_refl.
  - apply calls_bind; [apply calls_lift|intros n].
    apply calls_bind; [apply calls_call; intros; apply under_refl|intros _].
    apply downloadFile_calls, under_app, under_refl.
Qed.

Lemma calls_started (bi bo po : bytes) {A} (m : M W A) :
  calls (download_event bi LOCAL_INPUT_PATH) m
  \/ calls (predict_event LOCAL_INPUT_PATH LOCAL_OUTPUT_PATH) m
  \/ calls (upload_event bo po LOCAL_OUTPUT_PATH) m ->
  calls (started_event bi bo po) m.
Proof.
  intros [H|[H|H]]; (eapply calls_weaken; [|exact H]); intros e He;
    unfold started_event; tauto.
Qed.

Lemma LoadAndPredict_started_calls (fuel : nat) (err : option error)
  (bi pi bo po : bytes) :
  emits (started_event bi bo po) (LoadAndPredict_started env fuel err bi pi bo po).
Proof.
  unfold LoadAndPredict_started, reply.
  destruct err; [repeat emits_step|].
  apply emits_bind.
  { apply (calls_started bi bo po). left. apply input_download_calls. }
  intros [e|]; [repeat emits_step|].
  apply emits_bind.
  { apply (calls_started bi bo po). right. left.
    apply makePredictions_calls; apply under_refl. }
  intros [e|]; [repeat emits_step|].
  apply emits_bind.
  { apply (calls_started bi bo po). right. right.
    apply uploadFile_calls; apply under_refl. }
  intros _. repeat emits_step.
Qed.

Lemma emits_defer (P : event -> Prop) {A} (d : M W unit) (rest : M W A) :
  emits P d -> emits P rest -> emits P (defer d rest).
Proof.
  intros Hd Hr s o s' H. unfold defer in H.
  destruct (rest s) as [o1 s1] eqn:Er.
  destruct (Hr _ _ _ Er) as (t1 & Ht1 & HP1).
  assert (Hrun : o1 = Unfinished /\ s' = s1
                 \/ exists u s2, d s1 = (u, s2) /\ s' = s2).
  { destruct o1; [right|right|left; now inversion H];
      destruct (d s1) as [[u|m|] s2]; inversion H; subst; eauto. }
  destruct Hrun as [[_ ->]|(u & s2 & Ed & ->)]; [now exists t1|].
  destruct (Hd _ _ _ Ed) as (t2 & Ht2 & HP2).
  exists (t1 ++ t2). rewrite Ht2, Ht1, app_assoc. split; [reflexivity|].
  now apply Forall_app.
Qed.

Lemma Process_Kill_emits (P : event -> Prop) (p : option Process) :
  (forall q, P (EvKill q)) -> emits P (Process_Kill env p).
Proof.
  intros HP. destruct p as [p|]; simpl; [|apply emits_panic].
  apply emits_bind; [now apply emits_call|intros; apply emits_ret].
Qed.

Lemma startAndWaitTF_emits (P : event -> Prop) (cmd : Cmd) :
  (forall r, P (EvStart (Args cmd) r)) -> (forall p, P (EvStderr p)) ->
  emits P (startAndWaitTF env cmd).
Proof.
  intros H1 H2. unfold startAndWaitTF.
  apply emits_bind; [now apply emits_call|intros [p|e]]; [|apply emits_ret].
  apply emits_bind; [now apply emits_call|intros reads].
  destruct (copyAndCapture reads [] 0) as [[[o err] t]|];
    [destruct (t <? TF_TIMEOUT)%N|]; apply emits_ret.
Qed.

Lemma reply_emits_any (P : event -> Prop) (code : Z) (msg : bytes) :
  emits P (reply (W := W) code msg).
Proof. unfold reply. apply emits_bind; [apply emits_WriteHeader|intros; apply emits_Fprintln]. Qed.

(** The handler from the creation of the storage client on adds calls
    to the trace, whatever they are. *)
Lemma after_client_emits (fuel : nat) (bm pm bi pi bo po : bytes) (err : option error) :
  emits (fun _ => True)
    (match err with
     | Some _ => reply StatusInternalServerError (B "error when creating storage client")
     | None =>
         bind (downloadFiles env fuel bm pm (LOCAL_MODEL_PATH ++ MODEL_DUMMY_VERSION))
           (fun err =>
              match err with
              | Some _ =>
                  reply StatusInternalServerError (B "error when downloading model files")
              | None =>
                  bind (startAndWaitTF env tensorflow_model_server)
                    (fun x => match x with
                              | (cmd, err) =>
                                  defer (Process_Kill env (Process_ cmd))
                                    (LoadAndPredict_started env fuel err bi pi bo po)
                              end)
              end)
     end).
Proof.
  destruct err; [apply reply_emits_any|].
  apply emits_bind.
  - eapply emits_weaken; [|apply downloadFiles_emits]. trivial.
  - intros [e|]; [apply reply_emits_any|].
    apply emits_bind.
    + apply startAndWaitTF_emits; intros; exact I.
    + intros [cmd err]. apply emits_defer.
      * apply Process_Kill_emits. intros; exact I.
      * eapply emits_weaken; [|apply LoadAndPredict_started_emits]. trivial.
Qed.

Lemma fetch_model_handler (bm bi bo po : bytes) (e : event) :
  fetch_event bm LOCAL_MODEL_PATH e -> handler_event bm bi bo po e.
Proof. destruct e; simpl; try tauto; intros H; unfold staged; tauto. Qed.

Lemma fetch_input_handler (bm bi bo po : bytes) (e : event) :
  fetch_event bi LOCAL_INPUT_PATH e -> handler_event bm bi bo po e.
Proof. destruct e; simpl; try tauto; intros H; unfold staged; tauto. Qed.

Lemma infer_handler (bm bi bo po : bytes) (e : event) :
  infer_event LOCAL_INPUT_PATH LOCAL_OUTPUT_PATH e -> handler_event bm bi bo po e.
Proof. destruct e; simpl; try tauto; intros H; unfold staged; tauto. Qed.

Lemma store_handler (bm bi bo po : bytes) (e : event) :
  store_event bo po LOCAL_OUTPUT_PATH e -> handler_event bm bi bo po e.
Proof. destruct e; simpl; try tauto; intros H; unfold staged; tauto. Qed.

Lemma input_download_fetch (fuel : nat) (bi pi : bytes) :
  lists_plain env ->
  hasDotDot pi = false ->
  calls (fetch_event bi LOCAL_INPUT_PATH)
    (if strings.HasSuffix pi (B "/") then
       downloadFiles env fuel bi pi LOCAL_INPUT_PATH
     else
       bind (lift (strings.slice_from pi (strings.LastIndex pi (B "/") + 1)))
         (fun n =>
            bind (call (fun _ => EvMkdirAll LOCAL_INPUT_PATH)
                    (os_MkdirAll env LOCAL_INPUT_PATH))
              (fun _ => downloadFile env bi pi (LOCAL_INPUT_PATH ++ n)))).
Proof.
  intros Hplain Hpi. destruct (strings.HasSuffix pi _).
  - apply downloadFiles_fetch; [assumption|now apply dir_inside_refl].
  - apply calls_bind_lift. intros n Hn.
    assert (Hnp : hasDotDot n = false).
    { unfold strings.slice_from in Hn. destruct (_ && _)%bool; [|discriminate Hn].
      inversion Hn; subst. now apply hasDotDot_skipn. }
    apply calls_bind;
      [apply calls_call; intros; apply dir_inside_is_inside, dir_inside_refl; reflexivity|intros _].
    apply downloadFile_fetch. apply dir_inside_file; [now apply dir_inside_refl|assumption].
Qed.

Lemma LoadAndPredict_started_places (fuel : nat) (err : option error)
  (bm bi pi bo po : bytes) :
  lists_plain env -> reads_plain env -> hasDotDot pi = false ->
  emits (handler_event bm bi bo po) (LoadAndPredict_started env fuel err bi pi bo po).
Proof.
  intros Hl Hr Hpi. unfold LoadAndPredict_started.
  destruct err; [apply reply_emits_any|].
  apply emits_bind.
  { eapply emits_weaken; [apply (fetch_input_handler bm bi bo po)|].
    now apply input_download_fetch. }
  intros [e|]; [apply reply_emits_any|].
  apply emits_bind.
  { eapply emits_weaken; [apply (infer_handler bm bi bo po)|].
    apply makePredictions_infer; [assumption|now apply dir_inside_refl|now apply dir_inside_refl]. }
  intros [e|]; [apply reply_emits_any|].
  apply emits_bind.
  { eapply emits_weaken; [apply (store_handler bm bi bo po)|].
    apply uploadFile_store; [assumption|apply under_refl|now apply dir_inside_refl]. }
  intros _. apply emits_bind; [apply emits_WriteHeader|intros; apply emits_Fprintln].
Qed.

Lemma model_version_dir_inside :
  dir_inside LOCAL_MODEL_PATH (LOCAL_MODEL_PATH ++ MODEL_DUMMY_VERSION).
Proof.
  split; [reflexivity|].
  exists MODEL_DUMMY_VERSION. split; [reflexivity|]. split; [reflexivity|].
  right. exists (B "000000"), "/"%char. split; [reflexivity|discriminate].
Qed.

Lemma LoadAndPredict_places (fuel : nat) (r : Request) (bm pm bi pi bo po : bytes) :
  lists_plain env -> reads_plain env -> hasDotDot pi = false ->
  getParam r (B "model") = Return (bm, pm, None) ->
  getParam r (B "input") = Return (bi, pi, None) ->
  getParam r (B "output") = Return (bo, po, None) ->
  emits (handler_event bm bi bo po) (LoadAndPredict env fuel r).
Proof.
  intros Hl Hr Hpi Hm Hi Ho. unfold LoadAndPredict.
  rewrite Hm, bind_Return. cbv beta iota.
  rewrite Hi, bind_Return. cbv beta iota.
  rewrite Ho, bind_Return. cbv beta iota.
  apply emits_bind; [apply emits_call; intros; simpl; tauto|intros _].
  apply emits_bind; [apply emits_call; intros; simpl; tauto|intros _].
  apply emits_bind; [apply emits_call; intros; simpl; tauto|intros _].
  apply emits_bind; [apply emits_call; intros; exact I|intros [e|]];
    [apply reply_emits_any|].
  apply emits_bind.
  { eapply emits_weaken; [apply (fetch_model_handler bm bi bo po)|].
    apply downloadFiles_fetch; [assumption|apply model_version_dir_inside]. }
  intros [e|]; [apply reply_emits_any|].
  apply emits_bind.
  - apply startAndWaitTF_emits; intros; exact I || reflexivity.
  - intros [cmd err]. apply emits_defer.
    + apply Process_Kill_emits. intros; exact I.
    + now apply LoadAndPredict_started_places.
Qed.

(** X18. The calls of the handler, for a request whose three parameters
    are accepted, when no name out of its reach holds two dots in a row:
    neither a name that a bucket lists, nor an entry of a local directory,
    nor the path of the input in the request (the code joins these names to
    its directories as they are, without a check).  Then the handler
    removes its three staging directories and no other; every other path of
    the local file system that it makes, creates, writes, reads or opens is
    one of the three staging directories followed by a text without two
    dots in a row, so that it lies inside that directory; it lists and
    reads the bucket of the model and the bucket of the input only; it
    writes to the bucket of the output only, to objects whose names start
    with the output path read as a directory; the only process it starts is
    the Tensorflow server; and it posts to the prediction address of that
    server only. *)
Theorem handler_calls_stay_in_place (fuel : nat) (r : Request)
  (bm pm bi pi bo po : bytes) (s : State W) (out : outcome unit) (s' : State W) :
  lists_plain env ->
  reads_plain env ->
  hasDotDot pi = false ->
  getParam r (B "model") = Return (bm, pm, None) ->
  getParam r (B "input") = Return (bi, pi, None) ->
  getParam r (B "output") = Return (bo, po, None) ->
  LoadAndPredict env fuel r s = (out, s') ->
  exists t, trace s' = trace s ++ t /\ Forall (handler_event bm bi bo po) t.
Proof.
  intros Hl Hr Hpi Hm Hi Ho H.
  exact (LoadAndPredict_places fuel r bm pm bi pi bo po Hl Hr Hpi Hm Hi Ho _ _ _ H).
Qed.

(** X19. A request whose three parameters are accepted starts with a
    clean slate: the first calls of the handler remove the three staging
    directories, the model, the input and the output of the request before,
    and the storage client is created next, before anything is listed,
    downloaded or started. *)
Theorem staging_is_cleared_first (fuel : nat) (r : Request)
  (bm pm bi pi bo po : bytes) (s : State W) (out : outcome unit) (s' : State W) :
  getParam r (B "model") = Return (bm, pm, None) ->
  getParam r (B "input") = Return (bi, pi, None) ->
  getParam r (B "output") = Return (bo, po, None) ->
  LoadAndPredict env fuel r s = (out, s') ->
  exists t,
    trace s' = trace s ++ [EvRemoveAll LOCAL_MODEL_PATH; EvRemoveAll LOCAL_INPUT_PATH;
                           EvRemoveAll LOCAL_OUTPUT_PATH; EvNewClient] ++ t.
Proof.
  intros Hm Hi Ho. unfold LoadAndPredict.
  rewrite Hm, bind_Return. cbv beta iota.
  rewrite Hi, bind_Return. cbv beta iota.
  rewrite Ho, bind_Return. cbv beta iota.
  rewrite !bind_call. cbn [world trace header body]. intros H.
  apply (after_client_emits fuel bm _ bi pi bo po) in H as (t & Ht & _).
  exists t. rewrite Ht. cbn [trace]. now rewrite <- !app_assoc.
Qed.

(** *** The replies of the handler *)

Lemma answers_reply (r : Request) (code : Z) (msg : bytes) :
  reply_table r code msg -> answers r (reply (W := W) code msg).
Proof.
  intros Ht s out s' H _. rewrite reply_run in H. inversion H; subst.
  exists code, msg. split; [assumption|]. now split.
Qed.

Lemma answers_bind (r : Request) {A} (m : M W A) (f : A -> M W unit) :
  silent m -> (forall a, answers r (f a)) -> answers r (bind m f).
Proof.
  intros Sm Hf s out s' H Hout. unfold bind in H.
  destruct (m s) as [[a|msg|] s1] eqn:Em.
  - destruct (Sm _ _ _ Em) as [H1 H2].
    destruct (Hf a _ _ _ H Hout) as (code & msg & Ht & Hh & Hb).
    exists code, msg. split; [assumption|].
    rewrite H1 in Hh. rewrite H2 in Hb. now split.
  - inversion H; subst. discriminate.
  - inversion H; subst. discriminate.
Qed.

Lemma answers_defer_Kill (r : Request) (p : option Process) (rest : M W unit) :
  answers r rest -> answers r (defer (Process_Kill env p) rest).
Proof.
  intros Hr s out s' H Hout. unfold defer in H.
  destruct (rest s) as [o1 s1] eqn:Er.
  destruct p as [p|]; cbn [Process_Kill] in H.
  - rewrite bind_call in H. unfold ret in H.
    destruct o1 as [[]|m|]; inversion H; subst; try discriminate.
    destruct (Hr _ _ _ Er eq_refl) as (code & msg & Ht & Hh & Hb).
    exists code, msg. split; [assumption|]. now split.
  - unfold panic in H. destruct o1; inversion H; subst; discriminate.
Qed.

Lemma failure_reply (r : Request) (msg : bytes) :
  In msg failure_messages -> reply_table r StatusInternalServerError msg.
Proof. intros H. right. left. now split. Qed.

Ltac in_messages := apply failure_reply; unfold failure_messages; simpl; tauto.

Lemma LoadAndPredict_started_answers (r : Request) (fuel : nat) (err : option error)
  (bi pi bo po : bytes) :
  answers r (LoadAndPredict_started env fuel err bi pi bo po).
Proof.
  unfold LoadAndPredict_started.
  destruct err; [apply answers_reply; in_messages|].
  apply answers_bind; [apply input_download_calls|].
  intros [e|]; [apply answers_reply; in_messages|].
  apply answers_bind.
  { apply (makePredictions_calls env fuel _ _ _ _ (under_refl _) (under_refl _)). }
  intros [e|]; [apply answers_reply; in_messages|].
  apply answers_bind.
  { apply (uploadFile_calls env fuel bo po _ _ _ (under_refl _) (under_refl _)). }
  intros _. apply (answers_reply r StatusOK). right. right. now split.
Qed.

Lemma startAndWaitTF_silent (cmd : Cmd) : silent (startAndWaitTF env cmd).
Proof.
  intros s o s' H.
  destruct (startAndWaitTF_run env cmd s) as [(e & w & Hs)|(p & e & w & Hs)];
    rewrite Hs in H; inversion H; subst; now split.
Qed.

Lemma parameter_reply (r : Request) (name b p : bytes) (e : error) :
  In name parameters ->
  getParam r name = Return (b, p, Some e) ->
  reply_table r StatusBadRequest (Error_ e).
Proof. intros Hin H. left. split; [reflexivity|]. now exists name, b, p, e. Qed.

Lemma silent_call {A} (ev : A -> event) (op : W -> A * W) : silent (call ev op).
Proof. apply (calls_call (fun _ => True)). intros; exact I. Qed.

Lemma LoadAndPredict_answers (fuel : nat) (r : Request) :
  answers r (LoadAndPredict env fuel r).
Proof.
  unfold LoadAndPredict.
  destruct (getParam r (B "model")) as [[[bm pm] [e|]]|msg] eqn:Hm;
    [rewrite bind_Return; cbv beta iota| |].
  { apply answers_reply. apply (parameter_reply r (B "model") bm pm e); [|assumption].
    unfold parameters. simpl. tauto. }
  2:{ intros s out s' H Hout. rewrite bind_Panic in H. inversion H; subst. discriminate. }
  rewrite bind_Return. cbv beta iota.
  destruct (getParam r (B "input")) as [[[bi pi] [e|]]|msg] eqn:Hi;
    [rewrite bind_Return; cbv beta iota| |].
  { apply answers_reply. apply (parameter_reply r (B "input") bi pi e); [|assumption].
    unfold parameters. simpl. tauto. }
  2:{ intros s out s' H Hout. rewrite bind_Panic in H. inversion H; subst. discriminate. }
  rewrite bind_Return. cbv beta iota.
  destruct (getParam r (B "output")) as [[[bo po] [e|]]|msg] eqn:Ho;
    [rewrite bind_Return; cbv beta iota| |].
  { apply answers_reply. apply (parameter_reply r (B "output") bo po e); [|assumption].
    unfold parameters. simpl. tauto. }
  2:{ intros s out s' H Hout. rewrite bind_Panic in H. inversion H; subst. discriminate. }
  rewrite bind_Return. cbv beta iota.
  apply answers_bind; [apply silent_call|intros _].
  apply answers_bind; [apply silent_call|intros _].
  apply answers_bind; [apply silent_call|intros _].
  apply answers_bind; [apply silent_call|intros [e|]];
    [apply answers_reply; in_messages|].
  apply answers_bind.
  { apply (downloadFiles_calls env fuel _ _ _ _ (under_refl _)). }
  intros [e|]; [apply answers_reply; in_messages|].
  apply answers_bind; [apply startAndWaitTF_silent|intros [cmd err]].
  apply answers_defer_Kill, LoadAndPredict_started_answers.
Qed.

(** X20. Every run of the handler that returns has written one reply, a
    status and one line, and nothing else: 400 with the message of a
    parameter that [getParam] refuses, 500 with the message of the step
    that failed, or 200 with the message of completion. *)
Theorem handler_replies_once (fuel : nat) (r : Request) (s s' : State W) :
  LoadAndPredict env fuel r s = (Value tt, s') ->
  exists code msg, reply_table r code msg /\ replied code msg s s'.
Proof. intros H. exact (LoadAndPredict_answers fuel r _ _ _ H eq_refl). Qed.

(** *** A start that fails *)

Lemma start_checked_emits (m : M W unit) :
  emits (fun x => ~ failed_start x) m -> start_checked m.
Proof.
  intros Hm s out s' H. destruct (Hm _ _ _ H) as (t & Ht & HP).
  exists t. split; [assumption|now left].
Qed.

Lemma start_checked_bind {A} (P : event -> Prop) (m : M W A) (f : A -> M W unit) :
  (forall e, P e -> ~ failed_start e) ->
  calls P m -> (forall a, start_checked (f a)) -> start_checked (bind m f).
Proof.
  intros HP [Hm Sm] Hf s out s' H. unfold bind in H.
  destruct (m s) as [[a|msg|] s1] eqn:Em;
    destruct (Hm _ _ _ Em) as (t1 & Ht1 & HP1);
    assert (Hok : Forall (fun x => ~ failed_start x) t1)
      by (eapply Forall_impl; [|exact HP1]; exact HP).
  - destruct (Sm _ _ _ Em) as [Hh Hb].
    destruct (Hf a _ _ _ H) as (t & Ht & [Hall|(Hout & (Hrh & Hrb) & t0 & args & e & -> & H0)]).
    + exists (t1 ++ t). rewrite Ht, Ht1, app_assoc. split; [reflexivity|].
      left. now apply Forall_app.
    + exists (t1 ++ t0 ++ [EvStart args (inr e)]).
      rewrite Ht, Ht1, <- app_assoc. split; [reflexivity|].
      right. split; [assumption|].
      rewrite Hh in Hrh. rewrite Hb in Hrb. split; [now split|].
      exists (t1 ++ t0), args, e. rewrite app_assoc. split; [reflexivity|].
      now apply Forall_app.
  - inversion H; subst. exists t1. split; [assumption|now left].
  - inversion H; subst. exists t1. split; [assumption|now left].
Qed.

Lemma launch_start_checked (fuel : nat) (bi pi bo po : bytes) :
  start_checked
    (bind (startAndWaitTF env tensorflow_model_server)
       (fun x => match x with
                 | (cmd, err) =>
                     defer (Process_Kill env (Process_ cmd))
                       (LoadAndPredict_started env fuel err bi pi bo po)
                 end)).
Proof.
  intros s out s' H. unfold bind in H.
  destruct (startAndWaitTF_run env tensorflow_model_server s)
    as [(e & w & Hs)|(p & e & w & Hs)]; rewrite Hs in H; clear Hs.
  - unfold defer in H. cbn [LoadAndPredict_started] in H. rewrite reply_run in H.
    cbn [Process_ tensorflow_model_server Process_Kill] in H.
    unfold panic in H. inversion H; subst. cbn [trace header body].
    exists [EvStart (Args tensorflow_model_server) (inr e)]. split; [reflexivity|].
    right. split; [reflexivity|]. split; [now split|].
    exists [], (Args tensorflow_model_server), e. split; [reflexivity|constructor].
  - assert (He : emits (fun x => ~ failed_start x)
                   (defer (Process_Kill env (Some p))
                      (LoadAndPredict_started env fuel e bi pi bo po))).
    { apply emits_defer.
      - apply Process_Kill_emits. intros q. simpl. tauto.
      - eapply emits_weaken; [|apply LoadAndPredict_started_calls].
        apply started_not_failed_start. }
    cbn [Process_] in H. destruct (He _ _ _ H) as (t & Ht & HP). cbn [trace] in Ht.
    exists ([EvStart (Args tensorflow_model_server) (inl p); EvStderr p] ++ t).
    rewrite Ht, <- app_assoc. split; [reflexivity|]. left.
    apply Forall_app. split; [|assumption].
    repeat constructor; simpl; tauto.
Qed.

Lemma call_not_failed_start {A} (ev : A -> event) (op : W -> A * W) :
  (forall a, ~ failed_start (ev a)) -> calls (fun x => ~ failed_start x) (call ev op).
Proof. intros H. now apply calls_call. Qed.

Lemma LoadAndPredict_start_checked (fuel : nat) (r : Request) :
  start_checked (LoadAndPredict env fuel r).
Proof.
  unfold LoadAndPredict.
  apply (start_checked_bind (fun x => ~ failed_start x)); [tauto|apply calls_lift|].
  intros [[bm pm] [e|]];
    [apply start_checked_emits, reply_emits_any|].
  apply (start_checked_bind (fun x => ~ failed_start x)); [tauto|apply calls_lift|].
  intros [[bi pi] [e|]];
    [apply start_checked_emits, reply_emits_any|].
  apply (start_checked_bind (fun x => ~ failed_start x)); [tauto|apply calls_lift|].
  intros [[bo po] [e|]];
    [apply start_checked_emits, reply_emits_any|].
  apply (start_checked_bind (fun x => ~ failed_start x));
    [tauto|apply call_not_failed_start; simpl; tauto|intros _].
  apply (start_checked_bind (fun x => ~ failed_start x));
    [tauto|apply call_not_failed_start; simpl; tauto|intros _].
  apply (start_checked_bind (fun x => ~ failed_start x));
    [tauto|apply call_not_failed_start; simpl; tauto|intros _].
  apply (start_checked_bind (fun x => ~ failed_start x));
    [tauto|apply call_not_failed_start; simpl; tauto|intros [e|]];
    [apply start_checked_emits, reply_emits_any|].
  apply (start_checked_bind (download_event bm (LOCAL_MODEL_PATH ++ MODEL_DUMMY_VERSION)));
    [apply download_not_failed_start|apply downloadFiles_calls, under_refl|].
  intros [e|]; [apply start_checked_emits, reply_emits_any|].
  apply launch_start_checked.
Qed.

Lemma Exists_not_Forall {A} (P : A -> Prop) (l : list A) :
  Exists P l -> Forall (fun x => ~ P x) l -> False.
Proof.
  induction 1 as [x l Hx|x l _ IH]; intros Hall; inversion Hall; subst; tauto.
Qed.

(** X21. When the Tensorflow server cannot be started, the handler
    writes the reply 500, error when starting tensorflow, and then panics:
    the deferred call kills a process that does not exist.  The failed
    start is the last call of the run, and a run has no more than one. *)
Theorem failed_start_ends_in_panic (fuel : nat) (r : Request)
  (s : State W) (out : outcome unit) (s' : State W) (t : list event) :
  LoadAndPredict env fuel r s = (out, s') ->
  trace s' = trace s ++ t ->
  Exists failed_start t ->
  out = Panicking nil_dereference
  /\ replied StatusInternalServerError (B "error when starting tensorflow") s s'
  /\ exists t1 args e,
       t = t1 ++ [EvStart args (inr e)] /\ Forall (fun x => ~ failed_start x) t1.
Proof.
  intros H Ht Hex.
  destruct (LoadAndPredict_start_checked fuel r _ _ _ H) as (t' & Ht' & Hcase).
  rewrite Ht in Ht'. apply app_inv_head in Ht'. subst t'.
  destruct Hcase as [Hall|Hfail]; [|exact Hfail].
  exfalso. exact (Exists_not_Forall _ _ Hex Hall).
Qed.

End Handler.

(** ** The server that predicts file by file *)

Lemma LastIndex_from_bounds (sep s : bytes) : forall i last,
  sep <> [] ->
  (last < i)%Z ->
  (last <= strings.LastIndex_from i last s sep < Z.max i (i + len s))%Z.
Proof.
  induction s as [|c s IH]; intros i last Hsep Hl; cbn [strings.LastIndex_from].
  - unfold len. simpl. destruct sep; [congruence|lia].
  - unfold len in *. cbn [length]. rewrite Nat2Z.inj_succ.
    destruct (strings.HasPrefix (c :: s) sep).
    + specialize (IH (i + 1)%Z i Hsep). lia.
    + specialize (IH (i + 1)%Z last Hsep). lia.
Qed.

Lemma slice_after_LastIndex (s : bytes) :
  strings.slice_from s (strings.LastIndex s (B "/") + 1)
  = Return (skipn (Z.to_nat (strings.LastIndex s (B "/") + 1)) s).
Proof.
  unfold strings.slice_from, strings.LastIndex.
  pose proof (LastIndex_from_bounds (B "/") s 0 (-1) ltac:(discriminate) ltac:(lia)) as H.
  set (L := strings.LastIndex_from 0 (-1) s (B "/")) in *. clearbody L.
  assert (Hlen : (0 <= len s)%Z) by (unfold len; lia).
  assert (E : ((0 <=? L + 1) && (L + 1 <=? len s))%Z = true).
  { apply andb_true_intro. split; apply Z.leb_le; lia. }
  now rewrite E.
Qed.

(** Where the last separator of a text is. *)
Lemma LastIndex_from_SLASH (s : bytes) : forall i last,
  (~ In SLASH s /\ strings.LastIndex_from i last s (B "/") = last)
  \/ (exists a b, s = a ++ SLASH :: b /\ ~ In SLASH b
                  /\ strings.LastIndex_from i last s (B "/") = (i + len a)%Z).
Proof.
  induction s as [|c s IH]; intros i last.
  - left. split; [tauto|reflexivity].
  - cbn [strings.LastIndex_from]. rewrite HasPrefix_SLASH.
    destruct (Ascii.eqb c SLASH) eqn:Ec.
    + apply Ascii.eqb_eq in Ec. subst c.
      destruct (IH (i + 1)%Z i) as [[Hn ->]|(a & b & -> & Hb & ->)].
      * right. exists [], s. unfold len. simpl. repeat split; [assumption|lia].
      * right. exists (SLASH :: a), b. unfold len. cbn [length app].
        repeat split; [assumption|lia].
    + apply Ascii.eqb_neq in Ec.
      destruct (IH (i + 1)%Z last) as [[Hn ->]|(a & b & -> & Hb & ->)].
      * left. split; [|reflexivity]. intros [H|H]; [now apply Ec|now apply Hn].
      * right. exists (c :: a), b. unfold len. cbn [length app].
        repeat split; [assumption|lia].
Qed.

(** The two parts of a name, cut after its last separator. *)
Lemma cut_after_last_SLASH (n : bytes) :
  let k := Z.to_nat (strings.LastIndex n (B "/") + 1) in
  n = firstn k n ++ skipn k n
  /\ ~ In SLASH (skipn k n)
  /\ (firstn k n = [] \/ strings.HasSuffix (firstn k n) (B "/") = true)
  /\ (skipn k n = [] -> n = [] \/ strings.HasSuffix n (B "/") = true).
Proof.
  cbv zeta. unfold strings.LastIndex.
  destruct (LastIndex_from_SLASH n 0 (-1)) as [[Hn ->]|(a & b & -> & Hb & ->)].
  - change (Z.to_nat (-1 + 1)) with 0%nat. cbn [firstn skipn app].
    repeat split; [assumption|now left|now left].
  - replace (Z.to_nat (0 + len a + 1)) with (length (a ++ B "/")).
    2:{ unfold len. rewrite length_app. simpl. lia. }
    change (a ++ SLASH :: b) with (a ++ B "/" ++ b). rewrite app_assoc.
    rewrite firstn_app, skipn_app, Nat.sub_diag, firstn_all, skipn_all.
    cbn [firstn skipn app]. rewrite app_nil_r.
    repeat split; [assumption|right; apply HasSuffix_sep|].
    intros ->. right. rewrite app_nil_r. apply HasSuffix_sep.
Qed.

Lemma slice_to_LastIndex (s : bytes) :
  Streaming.slice_to s (strings.LastIndex s (B "/") + 1)
  = Return (firstn (Z.to_nat (strings.LastIndex s (B "/") + 1)) s).
Proof.
  unfold Streaming.slice_to, strings.LastIndex.
  pose proof (LastIndex_from_bounds (B "/") s 0 (-1) ltac:(discriminate) ltac:(lia)) as H.
  set (L := strings.LastIndex_from 0 (-1) s (B "/")) in *. clearbody L.
  assert (Hlen : (0 <= len s)%Z) by (unfold len; lia).
  assert (E : ((0 <=? L + 1) && (L + 1 <=? len s))%Z = true).
  { apply andb_true_intro. split; apply Z.leb_le; lia. }
  now rewrite E.
Qed.

Lemma isFile_proper (n : bytes) :
  isFile n = true ->
  proper_entry
    (Streaming.mkFilePath
       (firstn (Z.to_nat (strings.LastIndex n (B "/") + 1)) n)
       (skipn (Z.to_nat (strings.LastIndex n (B "/") + 1)) n)).
Proof.
  intros Hf. destruct (cut_after_last_SLASH n) as (_ & Hname & Hrel & Hempty).
  unfold proper_entry. cbn [Streaming.FileName Streaming.RelativePath].
  split; [|now split].
  intros E. unfold isFile in Hf. apply negb_true_iff, orb_false_iff in Hf as [H1 H2].
  destruct (Hempty E) as [->|H]; [discriminate H1|congruence].
Qed.

(** One turn of the loop of [listGcsFiles]. *)
Lemma listGcsFiles_loop_step (path name : bytes) (names : list bytes)
  (acc : list Streaming.filePath) (n : bytes) :
  strings.slice_from name (strings.LastIndex path (B "/") + 1) = Return n ->
  Streaming.listGcsFiles_loop path (name :: names) acc
  = Streaming.listGcsFiles_loop path names
      (if isFile n
       then acc ++ [Streaming.mkFilePath
                      (firstn (Z.to_nat (strings.LastIndex n (B "/") + 1)) n)
                      (skipn (Z.to_nat (strings.LastIndex n (B "/") + 1)) n)]
       else acc).
Proof.
  intros Hn. cbn [Streaming.listGcsFiles_loop]. rewrite Hn. unfold isFile.
  destruct (beq n [] || strings.HasSuffix n (B "/")); [reflexivity|].
  cbn [negb]. now rewrite slice_to_LastIndex, slice_after_LastIndex.
Qed.

Lemma listGcsFiles_loop_proper (path : bytes) (names : list bytes) :
  forall acc files,
    Streaming.listGcsFiles_loop path names acc = Return files ->
    Forall proper_entry acc -> Forall proper_entry files.
Proof.
  induction names as [|name names IH]; intros acc files H Hacc.
  - inversion H; now subst.
  - destruct (strings.slice_from name (strings.LastIndex path (B "/") + 1)) as [n|m] eqn:En.
    + rewrite (listGcsFiles_loop_step _ _ _ _ _ En) in H.
      apply IH in H; [assumption|].
      destruct (isFile n) eqn:Ef; [|assumption].
      apply Forall_app. split; [assumption|]. constructor; [|constructor].
      now apply isFile_proper.
    + cbn [Streaming.listGcsFiles_loop] in H. rewrite En in H. discriminate H.
Qed.

Lemma listGcsFiles_loop_names (path : bytes) (names : list bytes) :
  forall acc files,
    Streaming.listGcsFiles_loop path names acc = Return files ->
    map (fun f => Streaming.RelativePath f ++ Streaming.FileName f) files
    = map (fun f => Streaming.RelativePath f ++ Streaming.FileName f) acc
      ++ filter isFile
           (map (skipn (Z.to_nat (strings.LastIndex path (B "/") + 1))) names).
Proof.
  induction names as [|name names IH]; intros acc files H.
  - inversion H; subst. simpl. now rewrite app_nil_r.
  - destruct (strings.slice_from name (strings.LastIndex path (B "/") + 1)) as [n|m] eqn:En.
    + rewrite (listGcsFiles_loop_step _ _ _ _ _ En) in H.
      apply IH in H. rewrite H. clear H IH.
      assert (Hn : n = skipn (Z.to_nat (strings.LastIndex path (B "/") + 1)) name).
      { unfold strings.slice_from in En.
        destruct ((0 <=? _) && _)%Z; now inversion En. }
      cbn [map filter]. rewrite <- Hn.
      destruct (isFile n); [|reflexivity].
      rewrite map_app. cbn [map Streaming.RelativePath Streaming.FileName].
      destruct (cut_after_last_SLASH n) as (E & _). cbv zeta in E.
      rewrite <- E, <- app_assoc. reflexivity.
    + cbn [Streaming.listGcsFiles_loop] in H. rewrite En in H. discriminate H.
Qed.

Lemma listGcsFiles_loop_returns (path : bytes) (names : list bytes) :
  Forall (fun name => (strings.LastIndex path (B "/") + 1 <= len name)%Z) names ->
  forall acc, exists files, Streaming.listGcsFiles_loop path names acc = Return files.
Proof.
  induction 1 as [|name names Hname _ IH]; intros acc; [now exists acc|].
  assert (En : strings.slice_from name (strings.LastIndex path (B "/") + 1)
               = Return (skipn (Z.to_nat (strings.LastIndex path (B "/") + 1)) name)).
  { unfold strings.slice_from, strings.LastIndex in *.
    pose proof (LastIndex_from_bounds (B "/") path 0 (-1) ltac:(discriminate) ltac:(lia)) as Hb.
    set (L := strings.LastIndex_from 0 (-1) path (B "/")) in *. clearbody L.
    assert (E : ((0 <=? L + 1) && (L + 1 <=? len name))%Z = true).
    { apply andb_true_intro. split; apply Z.leb_le; lia. }
    now rewrite E. }
  rewrite (listGcsFiles_loop_step _ _ _ _ _ En). apply IH.
Qed.

Section Streamed.
Context {F : json.Float64}.
Context {W : Type}.
Variable env : Env W.

Lemma listGcsFiles_run (bucket path : bytes) (s : State W)
  (files : list Streaming.filePath) (err : option error) (s' : State W) :
  Streaming.listGcsFiles env bucket path s = (Value (files, err), s') ->
  trace s' = trace s ++ [EvObjects bucket path]
  /\ header s' = header s /\ body s' = body s
  /\ ((err <> None /\ files = [])
      \/ (err = None
          /\ Streaming.listGcsFiles_loop path
               (fst (fst (storage_Objects env bucket path (world s)))) []
             = Return files)).
Proof.
  unfold Streaming.listGcsFiles. rewrite bind_call.
  destruct (storage_Objects env bucket path (world s)) as [[names done] w]. cbn [fst snd].
  unfold bind.
  destruct (Streaming.listGcsFiles_loop path names []) as [fs|m]; cbn [lift ret panic].
  - destruct done as [e|]; intros H; inversion H; subst; cbn [trace header body];
      repeat split; [left; split; [discriminate|reflexivity]|right; now split].
  - intros H. inversion H.
Qed.

Lemma listGcsFiles_proper (bucket path : bytes) (s : State W)
  (files : list Streaming.filePath) (err : option error) (s' : State W) :
  Streaming.listGcsFiles env bucket path s = (Value (files, err), s') ->
  Forall proper_entry files.
Proof.
  intros H. apply listGcsFiles_run in H as (_ & _ & _ & [[_ ->]|[_ H]]); [constructor|].
  apply (listGcsFiles_loop_proper _ _ _ _ H). constructor.
Qed.

Lemma listGcsFiles_trace (bucket path : bytes) (s : State W)
  (o : outcome (list Streaming.filePath * option error)) (s' : State W) :
  Streaming.listGcsFiles env bucket path s = (o, s') ->
  trace s' = trace s ++ [EvObjects bucket path].
Proof.
  unfold Streaming.listGcsFiles. rewrite bind_call.
  destruct (storage_Objects env bucket path (world s)) as [[names done] w]. cbn [fst snd].
  unfold bind.
  destruct (Streaming.listGcsFiles_loop path names []) as [fs|m]; cbn [lift ret panic].
  - destruct done as [e|]; intros H; now inversion H.
  - intros H. now inversion H.
Qed.

(** X22. The entries [listGcsFiles] returns are files with their
    directories: the file name of an entry is not empty and holds no
    separator, and its relative path is empty or ends with a separator. *)
Theorem listGcsFiles_entries_are_files (bucket path : bytes) (s : State W)
  (files : list Streaming.filePath) (err : option error) (s' : State W) :
  Streaming.listGcsFiles env bucket path s = (Value (files, err), s') ->
  Forall proper_entry files.
Proof.
  apply listGcsFiles_proper.
Qed.

(** X23. What [listGcsFiles] lists without an error: the relative path
    and the file name of the entries, put together again, are the names the
    bucket yields, cut after the last separator of the prefix, in the order
    of the bucket, the root and the directories left out.  And a listing
    whose names are no shorter than the directory of the prefix never makes
    the function panic. *)
Theorem listGcsFiles_lists_the_files :
  (forall (bucket path : bytes) (s : State W) (files : list Streaming.filePath)
          (s' : State W),
      Streaming.listGcsFiles env bucket path s = (Value (files, None), s') ->
      map (fun f => Streaming.RelativePath f ++ Streaming.FileName f) files
      = filter isFile
          (map (skipn (Z.to_nat (strings.LastIndex path (B "/") + 1)))
             (fst (fst (storage_Objects env bucket path (world s))))))
  /\ (forall (bucket path : bytes) (s : State W),
         Forall (fun name => (strings.LastIndex path (B "/") + 1 <= len name)%Z)
           (fst (fst (storage_Objects env bucket path (world s)))) ->
         exists r, fst (Streaming.listGcsFiles env bucket path s) = Value r).
Proof.
  split.
  - intros bucket path s files s' H.
    apply listGcsFiles_run in H as (_ & _ & _ & [[H _]|[_ H]]); [now contradiction H|].
    now apply listGcsFiles_loop_names in H.
  - intros bucket path s Hnames.
    unfold Streaming.listGcsFiles. rewrite bind_call.
    destruct (storage_Objects env bucket path (world s)) as [[names done] w].
    cbn [fst snd] in *.
    destruct (listGcsFiles_loop_returns path names Hnames []) as (files & Hf).
    unfold bind. rewrite Hf. cbn [lift ret].
    destruct done; eexists; reflexivity.
Qed.

(** X24. [executePrediction] reports no error only when every step of
    it has gone without one, the last two included, which send the result
    to the store.  In a run from the state [s] that returns nil, the input
    object has been read in the world of [s], the request made of it has
    been posted in the world the read has left, the predictions of the
    answer have been written, in the world the request has left, to the
    object of the same relative name under the output path, and that
    object has been closed in the world the write has left: none of these
    calls has given an error, they are the calls of the run, in that order,
    and the world the close has left is the world at the end.  When the
    predictions are empty, nothing is written and the object is closed as
    it is. *)
Theorem executePrediction_success (inputBucket rootInputPath outputBucket outputPath : bytes)
  (input : Streaming.filePath) (s s' : State W) :
  Streaming.executePrediction env inputBucket rootInputPath outputBucket outputPath input s
  = (Value None, s') ->
  let source := rootInputPath ++ Streaming.RelativePath input ++ Streaming.FileName input in
  let object := outputPath ++ Streaming.RelativePath input ++ Streaming.FileName input in
  let read := storage_NewReader env inputBucket source (world s) in
  let finput := fst (formatInput (fst (fst read))) in
  let posted := http_Post env TF_URL TF_CONTENT_TYPE finput (snd read) in
  let foutput := fst (formatOutput (fst (fst posted))) in
  let written := storage_Write env outputBucket object foutput (snd posted) in
  let closed :=
    storage_Close env outputBucket object
      (match foutput with [] => snd posted | _ :: _ => snd written end) in
  snd (fst read) = None
  /\ snd (formatInput (fst (fst read))) = None
  /\ snd (fst posted) = None
  /\ snd (formatOutput (fst (fst posted))) = None
  /\ (foutput <> [] -> fst written = None)
  /\ fst closed = None
  /\ trace s' = trace s
                ++ [EvNewReader inputBucket source; EvPost TF_URL TF_CONTENT_TYPE finput]
                ++ match foutput with
                   | [] => []
                   | _ :: _ => [EvWriteObject outputBucket object foutput]
                   end
                ++ [EvCloseObject outputBucket object]
  /\ world s' = snd closed
  /\ header s' = header s
  /\ body s' = body s.
Proof.
  cbv zeta. unfold Streaming.executePrediction. cbv zeta. rewrite bind_call.
  destruct (storage_NewReader env _ _ (world s)) as [[src [e|]] w0]; cbn [fst snd];
    [intros H; inversion H|].
  destruct (formatInput src) as [finput [e|]]; cbn [fst snd]; [intros H; inversion H|].
  rewrite bind_call. cbn [world trace header body].
  destruct (http_Post env _ _ _ w0) as [[resp [e|]] w1]; cbn [fst snd];
    [intros H; inversion H|].
  destruct (formatOutput resp) as [foutput [e|]]; cbn [fst snd];
    [intros H; inversion H|].
  unfold io_Copy, NewReader. cbn [data failure].
  destruct foutput as [|c foutput].
  - unfold bind at 1. unfold ret at 1. rewrite bind_call. cbn [world trace header body].
    destruct (storage_Close env outputBucket _ w1) as [[e|] w3]; cbn [fst snd];
      intros H; inversion H; subst.
    cbn [trace world header body]. rewrite <- !app_assoc.
    repeat split; try reflexivity. intros Hne. now contradiction Hne.
  - unfold bind at 1. rewrite bind_call. cbn [world trace header body].
    destruct (storage_Write env outputBucket _ _ w1) as [[e|] w2]; cbn [fst snd];
      unfold ret at 1; [intros H; inversion H|].
    unfold ret at 1. rewrite bind_call. cbn [world trace header body].
    destruct (storage_Close env outputBucket _ w2) as [[e|] w3]; cbn [fst snd];
      intros H; inversion H; subst.
    cbn [trace world header body]. rewrite <- !app_assoc.
    repeat split; reflexivity.
Qed.

Lemma created_weaken (t : list event) : forall made made',
  incl made made' ->
  created_in_made_directories made t -> created_in_made_directories made' t.
Proof.
  induction t as [|e t IH]; intros made made' Hincl H; [exact I|].
  destruct e; cbn [created_in_made_directories] in *; try (eapply IH; eassumption).
  - eapply IH; [|eassumption]. intros x [->|Hx]; [now left|right; now apply Hincl].
  - destruct H as [(d & name & Hd & Hp & Hn) H]. split.
    + exists d, name. repeat split; try assumption. now apply Hincl.
    + eapply IH; eassumption.
Qed.

Lemma downloadFiles_loop_created (bucket path localDest : bytes)
  (files : list Streaming.filePath) :
  Forall proper_entry files ->
  forall s o s',
    Streaming.downloadFiles_loop env bucket path localDest files s = (o, s') ->
    exists t, trace s' = trace s ++ t /\ created_in_made_directories [] t.
Proof.
  induction 1 as [|l files Hl _ IH]; intros s o s' H.
  - inversion H; subst. exists []. now rewrite app_nil_r.
  - cbn [Streaming.downloadFiles_loop] in H.
    rewrite bind_call, bind_call in H. cbn [world trace header body] in H.
    destruct (storage_NewReader env _ _ _) as [[src [e|]] w1]; cbn [fst snd] in H.
    { inversion H; subst. cbn [trace]. rewrite <- app_assoc.
      eexists. split; [reflexivity|]. exact I. }
    rewrite bind_call in H. cbn [world trace header body] in H.
    assert (Hc : exists d name,
               In d [localDest ++ Streaming.RelativePath l]
               /\ localDest ++ Streaming.RelativePath l ++ Streaming.FileName l = d ++ name
               /\ ~ In SLASH name).
    { exists (localDest ++ Streaming.RelativePath l), (Streaming.FileName l).
      destruct Hl as (_ & Hn & _). repeat split; [now left|now rewrite app_assoc|assumption]. }
    destruct (os_Create env _ w1) as [[e|] w2]; cbn [fst snd] in H.
    { inversion H; subst. cbn [trace]. rewrite <- !app_assoc.
      eexists. split; [reflexivity|]. cbn [app created_in_made_directories]. now split. }
    unfold io_Copy in H. destruct (data src) as [|c content].
    { unfold bind at 1 in H. unfold ret at 1 in H. destruct (failure src) as [e|].
      - inversion H; subst. cbn [trace]. rewrite <- !app_assoc.
        eexists. split; [reflexivity|]. cbn [app created_in_made_directories]. now split.
      - apply IH in H as (t & Ht & Hcr). cbn [trace] in Ht. rewrite <- !app_assoc in Ht.
        eexists. split; [exact Ht|]. cbn [app created_in_made_directories].
        split; [assumption|]. eapply created_weaken; [|exact Hcr]. intros x []. }
    unfold bind at 1 in H. rewrite bind_call in H.
    cbn [world trace header body] in H.
    destruct (os_Write env _ _ w2) as [[e|] w3]; cbn [fst snd] in H; unfold ret at 1 in H.
    { inversion H; subst. cbn [trace]. rewrite <- !app_assoc.
      eexists. split; [reflexivity|]. cbn [app created_in_made_directories]. now split. }
    unfold ret at 1 in H.
    destruct (failure src) as [e|].
    { inversion H; subst. cbn [trace]. rewrite <- !app_assoc.
      eexists. split; [reflexivity|]. cbn [app created_in_made_directories]. now split. }
    apply IH in H as (t & Ht & Hcr). cbn [trace] in Ht. rewrite <- !app_assoc in Ht.
    eexists. split; [exact Ht|]. cbn [app created_in_made_directories].
    split; [assumption|]. eapply created_weaken; [|exact Hcr]. intros x [].
Qed.

(** X25. The second [downloadFiles] makes the directory of every file
    before it creates the file: in every run, each file created is a name
    without a separator in a directory made earlier in the run. *)
Theorem downloadFiles_makes_directories_first (bucket path localDest : bytes)
  (s : State W) (o : outcome (option error)) (s' : State W) :
  Streaming.downloadFiles env bucket path localDest s = (o, s') ->
  exists t, trace s' = trace s ++ t /\ created_in_made_directories [] t.
Proof.
  unfold Streaming.downloadFiles.
  destruct (negb _).
  { intros H. inversion H; subst. exists []. now rewrite app_nil_r. }
  unfold bind.
  destruct (Streaming.listGcsFiles env bucket path s) as [o1 s1] eqn:El.
  pose proof (listGcsFiles_trace _ _ _ _ _ El) as Ht1.
  destruct o1 as [[files err]|m|].
  - pose proof (listGcsFiles_proper _ _ _ _ _ _ El) as Hfiles.
    destruct err as [e|].
    + intros H. inversion H; subst. now exists [EvObjects bucket path].
    + intros H. destruct (downloadFiles_loop_created _ _ _ _ Hfiles _ _ _ H)
        as (t & Ht & Hcr).
      exists (EvObjects bucket path :: t). rewrite Ht, Ht1, <- app_assoc. now split.
  - intros H. inversion H; subst. now exists [EvObjects bucket path].
  - intros H. inversion H; subst. now exists [EvObjects bucket path].
Qed.

Lemma executePrediction_calls (ib root ob op path : bytes) (input : Streaming.filePath) :
  under (asDirectory op) path ->
  calls (stream_event ib ob op) (Streaming.executePrediction env ib root ob path input).
Proof.
  intros Hp. unfold Streaming.executePrediction.
  apply calls_bind; [now apply calls_call|intros [src [e|]]]; [apply calls_ret|].
  destruct (formatInput src) as [finput [e|]]; [apply calls_ret|].
  apply calls_bind; [apply calls_call; intros; now split|].
  intros [resp [e|]]; [apply calls_ret|].
  destruct (formatOutput resp) as [foutput [e|]]; [apply calls_ret|].
  apply calls_bind.
  { apply calls_io_Copy. intros b. apply calls_call. intros _.
    split; [reflexivity|now apply under_app]. }
  intros [e|]; [apply calls_ret|].
  apply calls_bind.
  { apply calls_call. intros _. split; [reflexivity|now apply under_app]. }
  intros [e|]; apply calls_ret.
Qed.

Lemma listGcsFiles_calls (P : event -> Prop) (bucket path : bytes) :
  P (EvObjects bucket path) -> calls P (Streaming.listGcsFiles env bucket path).
Proof.
  intros HP. unfold Streaming.listGcsFiles.
  apply calls_bind; [now apply calls_call|intros [names done]].
  apply calls_bind; [apply calls_lift|intros files].
  destruct done; apply calls_ret.
Qed.

Lemma streamed_makePredictions_calls (inputBucket inputPath outputBucket outputPath : bytes) :
  calls (stream_event inputBucket outputBucket outputPath)
    (Streaming.makePredictions env inputBucket inputPath outputBucket outputPath).
Proof.
  unfold Streaming.makePredictions.
  apply calls_bind; [now apply listGcsFiles_calls|intros [inputs [e|]]]; [apply calls_ret|].
  apply calls_bind; [apply calls_lift|intros root].
  induction inputs as [|input inputs IH]; cbn [Streaming.makePredictions_loop];
    [apply calls_ret|].
  apply calls_bind; [apply executePrediction_calls, under_refl|].
  intros [e|]; [apply calls_ret|exact IH].
Qed.

(** X26. The second [makePredictions] keeps nothing on the local disk
    and stays between the two buckets: it lists and reads the bucket of the
    input only, it posts to the prediction address of the local Tensorflow
    server only, it writes and closes objects of the bucket of the output
    only, under the output path read as a directory, it makes no other
    call, and it writes nothing to the response. *)
Theorem streamed_predictions_stay_in_place (inputBucket inputPath outputBucket
  outputPath : bytes) (s : State W) (o : outcome (option error)) (s' : State W) :
  Streaming.makePredictions env inputBucket inputPath outputBucket outputPath s = (o, s') ->
  (exists t, trace s' = trace s ++ t
             /\ Forall (stream_event inputBucket outputBucket outputPath) t)
  /\ header s' = header s /\ body s' = body s.
Proof.
  intros H.
  destruct (streamed_makePredictions_calls inputBucket inputPath outputBucket outputPath)
    as [He Hs].
  split; [exact (He _ _ _ H)|exact (Hs _ _ _ H)].
Qed.

(** *** The second handler *)

Lemma streamed_downloadFiles_silent (bucket path localDest : bytes) :
  silent (Streaming.downloadFiles env bucket path localDest).
Proof.
  enough (Hc : calls (fun _ => True) (Streaming.downloadFiles env bucket path localDest))
    by exact (proj2 Hc).
  unfold Streaming.downloadFiles. destruct (negb _); [apply calls_ret|].
  apply calls_bind; [now apply listGcsFiles_calls|intros [files [e|]]]; [apply calls_ret|].
  induction files as [|l files IH]; cbn [Streaming.downloadFiles_loop]; [apply calls_ret|].
  apply calls_bind; [now apply calls_call|intros _].
  apply calls_bind; [now apply calls_call|intros [src [e|]]]; [apply calls_ret|].
  apply calls_bind; [now apply calls_call|intros [e|]]; [apply calls_ret|].
  apply calls_bind; [apply calls_io_Copy; intros; now apply calls_call|].
  intros [e|]; [apply calls_ret|exact IH].
Qed.

(** X27. The second server answers 200 only when the predictions are
    done.  A run of its handler that writes the status 200 to a fresh
    response returns, and it has gone this way: from the first state [s]
    the request has got through [streamed_launch] (its three parameters
    read, the model directory removed, the model downloaded and the server
    started with the process [p]) to the state [s1]; there
    [makePredictions], called for the input and the output of the request,
    has returned no error and left the state [s2]; the reply has been
    written and [p] killed, which gives the last state.  A failure of the
    upload of a result, which [makePredictions] returns, is never answered
    with 200. *)
Theorem second_server_answers_200_after_predictions (r : Request)
  (s : State W) (out : outcome unit) (s' : State W) :
  Streaming.LoadAndPredict env r s = (out, s') ->
  header s = None ->
  header s' = Some StatusOK ->
  out = Value tt
  /\ exists bi pi bo po p s1 s2,
       streamed_launch env r s bi pi bo po p s1
       /\ Streaming.makePredictions env bi pi bo po s1 = (Value None, s2)
       /\ trace s' = trace s2 ++ [EvKill p]
       /\ body s' = body s ++ B "predictions completed" ++ [LF]
       /\ world s' = snd (exec_Kill env p (world s2)).
Proof.
  intros H Hs Hs'. unfold Streaming.LoadAndPredict in H.
  destruct (getParam r (B "model")) as [[[bm pm] [e|]]|msg] eqn:Gm;
    [exfalso; rewrite bind_Return, reply_run in H; inversion H; subst;
     cbn [header] in Hs'; rewrite Hs in Hs'; discriminate Hs'
    |rewrite bind_Return in H
    |exfalso; rewrite bind_Panic in H; inversion H; subst; congruence].
  cbv zeta in H.
  change (if negb (strings.HasSuffix pm (B "/")) then pm ++ B "/" else pm)
    with (asDirectory pm) in H.
  destruct (getParam r (B "input")) as [[[bi pi] [e|]]|msg] eqn:Gi;
    [exfalso; rewrite bind_Return, reply_run in H; inversion H; subst;
     cbn [header] in Hs'; rewrite Hs in Hs'; discriminate Hs'
    |rewrite bind_Return in H
    |exfalso; rewrite bind_Panic in H; inversion H; subst; congruence].
  destruct (getParam r (B "output")) as [[[bo po] [e|]]|msg] eqn:Go;
    [exfalso; rewrite bind_Return, reply_run in H; inversion H; subst;
     cbn [header] in Hs'; rewrite Hs in Hs'; discriminate Hs'
    |rewrite bind_Return in H
    |exfalso; rewrite bind_Panic in H; inversion H; subst; congruence].
  pose proof (call_run (fun _ => EvRemoveAll LOCAL_MODEL_PATH)
                (os_RemoveAll env LOCAL_MODEL_PATH) s) as Ca.
  set (sa := mkState _ _ _ _) in Ca.
  pose proof (call_run (fun _ => EvNewClient) (storage_NewClient env) sa) as Cb.
  set (sb := mkState _ _ _ _) in Cb.
  assert (Hb : header sb = None /\ body sb = body s) by (split; [exact Hs|reflexivity]).
  destruct Hb as [Hhb Hbb]. clearbody sa sb.
  unfold bind at 1 in H. rewrite Ca in H.
  unfold bind at 1 in H. rewrite Cb in H.
  destruct (fst (storage_NewClient env (world sa))) as [e|] eqn:Ec.
  { exfalso. rewrite reply_run in H. inversion H; subst s'.
    cbn [header] in Hs'. rewrite Hhb in Hs'. discriminate Hs'. }
  unfold bind at 1 in H.
  destruct (Streaming.downloadFiles env bm (asDirectory pm)
              (LOCAL_MODEL_PATH ++ MODEL_DUMMY_VERSION) sb) as [[[e|]|msg|] s0] eqn:Ed;
    destruct (streamed_downloadFiles_silent _ _ _ _ _ _ Ed) as [Hh0 Hb0].
  { exfalso. rewrite reply_run in H. inversion H; subst s'.
    cbn [header] in Hs'. rewrite Hh0, Hhb in Hs'. discriminate Hs'. }
  2: { exfalso. inversion H; subst. congruence. }
  2: { exfalso. inversion H; subst. congruence. }
  unfold bind at 1 in H.
  destruct (startAndWaitTF_run env tensorflow_model_server s0)
    as [(e & w & Hst)|(p & e & w & Hst)]; rewrite Hst in H.
  - exfalso. unfold defer in H. rewrite reply_run in H.
    cbn [Process_ tensorflow_model_server Process_Kill] in H. unfold panic in H.
    inversion H; subst. cbn [header] in Hs'. rewrite Hh0, Hhb in Hs'. discriminate Hs'.
  - unfold defer in H. cbn [Process_ Process_Kill] in H.
    destruct e as [e|].
    { exfalso. rewrite reply_run, bind_call in H. unfold ret in H.
      inversion H; subst. cbn [header] in Hs'. rewrite Hh0, Hhb in Hs'.
      discriminate Hs'. }
    unfold bind at 1 in H.
    match type of Hst with _ = (_, ?st) => set (s1 := st) in * end.
    assert (H1 : header s1 = None /\ body s1 = body s).
    { subst s1. cbn [header body]. split; congruence. }
    destruct H1 as [Hh1 Hb1]. clearbody s1.
    destruct (Streaming.makePredictions env bi pi bo po s1) as [[[e|]|msg|] s2] eqn:Ep;
      destruct (proj2 (streamed_makePredictions_calls bi pi bo po) _ _ _ Ep) as [Hh2 Hb2].
    + exfalso. rewrite reply_run, bind_call in H. unfold ret in H.
      inversion H; subst. cbn [header] in Hs'. rewrite Hh2, Hh1 in Hs'.
      discriminate Hs'.
    + change (bind (WriteHeader StatusOK) (fun _ => Fprintln (B "predictions completed")))
        with (reply (W := W) StatusOK (B "predictions completed")) in H.
      rewrite reply_run, bind_call in H. unfold ret in H.
      inversion H; subst out s'. split; [reflexivity|].
      exists bi, pi, bo, po, p, s1, s2.
      split.
      { exists bm, pm, (fst (os_RemoveAll env LOCAL_MODEL_PATH (world s))), sa, sb, s0.
        repeat (split; [assumption|]). exact Hst. }
      split; [exact Ep|]. cbn [trace body world].
      split; [reflexivity|]. split; [now rewrite Hb2, Hb1|reflexivity].
    + exfalso. rewrite bind_call in H. unfold ret in H. inversion H; subst.
      cbn [header] in Hs'. congruence.
    + exfalso. inversion H; subst. congruence.
Qed.

End Streamed.

(** ** Worked examples *)

(** The log of the deployment shows the marker in its second read, after
    three seconds. *)
Lemma tidy_lists_plain : lists_plain tidy.
Proof.
  intros bucket prefix w. cbn [tidy storage_Objects].
  destruct (Mem.Objects bucket prefix w) as [[names err] w']. cbn [fst].
  apply Forall_forall. intros name Hin. apply filter_In in Hin as [_ Hn].
  now apply negb_true_iff in Hn.
Qed.

Lemma tidy_reads_plain : reads_plain tidy.
Proof.
  intros path w. cbn [tidy os_ReadDir].
  destruct (Mem.ReadDir path w) as [[entries err] w']. cbn [fst].
  apply Forall_forall. intros f Hin. apply filter_In in Hin as [_ Hn].
  now apply negb_true_iff in Hn.
Qed.

Lemma copyAndCapture_success_witness :
  exists pre r post,
    Mem.ready_log = pre ++ r :: post
    /\ strings.Contains (chunk r) READY_MARKER = true
    /\ Forall (fun x => strings.Contains (chunk x) READY_MARKER = false
                        /\ readErr x = None) pre
    /\ B "Running gRPC ModelServer at 0.0.0.0:8500 ..."
         ++ B "Exporting HTTP/REST API at:localhost:8501 ..."
       = [] ++ concat (map chunk pre) ++ chunk r
    /\ (0 + N.of_nat (length pre) < 3)%N.
Proof.
  apply (copyAndCapture_success Mem.ready_log [] 0
           (B "Running gRPC ModelServer at 0.0.0.0:8500 ..."
              ++ B "Exporting HTTP/REST API at:localhost:8501 ...") 3).
  vm_compute. reflexivity.
Defined.

Lemma startAndWaitTF_ready_witness :
  let s := Mem.start (Mem.deployment [] (inl (mkProcess 7)) Mem.ready_log) in
  exists p pre r post,
    fst (exec_Start Mem.env (Args tensorflow_model_server) (world s)) = inl p
    /\ fst (exec_Stderr Mem.env p
              (snd (exec_Start Mem.env (Args tensorflow_model_server) (world s))))
       = pre ++ r :: post
    /\ strings.Contains (chunk r) READY_MARKER = true
    /\ (length pre < 29)%nat
    /\ mkCmd (Args tensorflow_model_server) (Some (mkProcess 7))
       = mkCmd (Args tensorflow_model_server) (Some p)
    /\ trace (snd (startAndWaitTF Mem.env tensorflow_model_server s))
       = trace s ++ [EvStart (Args tensorflow_model_server) (inl p); EvStderr p].
Proof.
  cbv zeta.
  apply (startAndWaitTF_ready Mem.env tensorflow_model_server
           (mkCmd (Args tensorflow_model_server) (Some (mkProcess 7)))
           (Mem.start (Mem.deployment [] (inl (mkProcess 7)) Mem.ready_log))).
  vm_compute. reflexivity.
Defined.

Lemma formatInput_rejects_blank_line_witness :
  exists err,
    formatInput (F := Dec64.float64)
      (NewReader (js "{'x':1}" ++ [LF] ++ B "  " ++ [LF]))
    = ([], Some err).
Proof.
  apply (formatInput_rejects_blank_line (F := Dec64.float64)
           (js "{'x':1}" ++ [LF] ++ B "  " ++ [LF]) [js "{'x':1}"; B "  "] (B "  ")).
  - split; [|left; reflexivity].
    repeat constructor; vm_compute; intuition discriminate.
  - right. left. reflexivity.
  - repeat constructor.
Defined.

Lemma formatInput_carriage_returns_witness :
  formatInput (F := Dec64.float64)
    (NewReader (unlines (map (fun l => l ++ [CR]) [js "{'x':1}"; js "{'x':2}"])))
  = formatInput (F := Dec64.float64) (NewReader (unlines [js "{'x':1}"; js "{'x':2}"])).
Proof.
  apply (formatInput_carriage_returns (F := Dec64.float64) [js "{'x':1}"; js "{'x':2}"]).
  - repeat constructor; vm_compute; intuition discriminate.
  - repeat constructor; vm_compute; reflexivity.
Defined.

Lemma transcoder_error_leaves_no_text_witness :
  fst (formatInput (F := Dec64.float64) (NewReader (B "{"))) = [].
Proof.
  apply (proj1 (transcoder_error_leaves_no_text (F := Dec64.float64))
           (NewReader (B "{")) _ SyntaxError).
  vm_compute. reflexivity.
Defined.

Lemma transcoder_reports_read_failure_witness :
  let r := mkReader (js "{'x':1}") (Some (External (B "connection reset by peer"))) in
  formatOutput (F := Dec64.float64) r = ([], Some (External (B "connection reset by peer")))
  /\ exists err, formatInput (F := Dec64.float64) r = ([], Some err).
Proof.
  cbv zeta.
  apply (transcoder_reports_read_failure (F := Dec64.float64)
           (mkReader (js "{'x':1}") (Some (External (B "connection reset by peer"))))).
  reflexivity.
Defined.

Lemma downloadFiles_stays_under_localDest_witness :
  let s := Mem.start (Mem.deployment [] (inl (mkProcess 7)) Mem.ready_log) in
  let run := downloadFiles tidy 3 (B "data") (B "model/")
               (LOCAL_MODEL_PATH ++ MODEL_DUMMY_VERSION) s in
  (exists t, trace (snd run) = trace s ++ t
             /\ Forall (fetch_event (B "data") (LOCAL_MODEL_PATH ++ MODEL_DUMMY_VERSION)) t)
  /\ header (snd run) = header s /\ body (snd run) = body s.
Proof.
  cbv zeta.
  apply (downloadFiles_stays_under_localDest tidy 3 (B "data") (B "model/")
           (LOCAL_MODEL_PATH ++ MODEL_DUMMY_VERSION)
           (Mem.start (Mem.deployment [] (inl (mkProcess 7)) Mem.ready_log))
           (fst (downloadFiles tidy 3 (B "data") (B "model/")
                   (LOCAL_MODEL_PATH ++ MODEL_DUMMY_VERSION)
                   (Mem.start (Mem.deployment [] (inl (mkProcess 7)) Mem.ready_log))))).
  - exact tidy_lists_plain.
  - reflexivity.
  - apply surjective_pairing.
Defined.



(** On a full disk the write of the predictions fails, and the file is
    taken for done all the same. *)
Lemma makePredictions_file_drops_write_error_witness :
  let path := B "/tmp/output/prediction_a.jsonl" in
  let content := js "{'y':1}" ++ [LF] ++ js "{'y':2}" ++ [LF] in
  let run := makePredictions_file (F := Dec64.float64) full_disk
               LOCAL_INPUT_PATH LOCAL_OUTPUT_PATH (mkFileInfo (B "a.jsonl") false)
               (Mem.start two_inputs) in
  In (EvWriteFile path content) (trace (snd run))
  /\ (forall w, fst (os_Write full_disk path content w) <> None)
  /\ fst run = Value None.
Proof.
  cbv zeta. split; [vm_compute; find_event|]. split; [discriminate|].
  eapply (makePredictions_file_drops_write_error (F := Dec64.float64) full_disk
           LOCAL_INPUT_PATH LOCAL_OUTPUT_PATH (mkFileInfo (B "a.jsonl") false)
           (Mem.start two_inputs)
           _ _
           [EvOpen (B "/tmp/input/a.jsonl");
            EvPost TF_URL TF_CONTENT_TYPE (js "{'instances':[{'x':1},{'x':2}]}");
            EvCreate (B "/tmp/output/prediction_a.jsonl");
            EvWriteFile (B "/tmp/output/prediction_a.jsonl")
              (js "{'y':1}" ++ [LF] ++ js "{'y':2}" ++ [LF])]
           (js "{'y':1}" ++ [LF] ++ js "{'y':2}" ++ [LF])).
  - apply surjective_pairing.
  - vm_compute. reflexivity.
  - vm_compute. find_event.
Defined.

Lemma downloadFiles_without_directory_entries_witness :
  let s := Mem.start (Mem.deployment [] (inl (mkProcess 7)) Mem.ready_log) in
  let run := downloadFiles Mem.env 0 (B "data") (B "model/")
               (LOCAL_MODEL_PATH ++ MODEL_DUMMY_VERSION) s in
  fst run <> Unfinished
  /\ exists t,
       trace (snd run)
       = trace s ++ EvMkdirAll (LOCAL_MODEL_PATH ++ MODEL_DUMMY_VERSION)
                 :: EvObjects (B "data") (B "model/") :: t
       /\ Forall copy_event t.
Proof.
  cbv zeta.
  apply (downloadFiles_without_directory_entries Mem.env 0 (B "data") (B "model/")
           (LOCAL_MODEL_PATH ++ MODEL_DUMMY_VERSION)
           [B "model/saved_model.pb"] None
           (snd (Mem.MkdirAll (LOCAL_MODEL_PATH ++ MODEL_DUMMY_VERSION)
                   (Mem.deployment [] (inl (mkProcess 7)) Mem.ready_log)))
           (Mem.start (Mem.deployment [] (inl (mkProcess 7)) Mem.ready_log))).
  - reflexivity.
  - reflexivity.
  - repeat constructor. intros n H. vm_compute in H. inversion H. reflexivity.
  - apply surjective_pairing.
Defined.

(** A request whose model is no address of a bucket. *)
Lemma refused_request_is_answered_400_witness :
  let w := Mem.deployment [] (inl (mkProcess 7)) Mem.ready_log in
  LoadAndPredict (F := Dec64.float64) Mem.env 5
    (Mem.request "data/model" "gs://data/in/" "gs://data/out") (Mem.start w)
  = (Value tt,
     mkState w [] (Some StatusBadRequest)
       (B "'model' bad formatted: location must start with 'gs://'" ++ [LF])).
Proof.
  cbv zeta.
  apply (refused_request_is_answered_400 (F := Dec64.float64) Mem.env 5
           (Mem.request "data/model" "gs://data/in/" "gs://data/out")
           (errors_New (B "'model' bad formatted: location must start with 'gs://'"))
           (Mem.start (Mem.deployment [] (inl (mkProcess 7)) Mem.ready_log))).
  exists [], (B "model"), [B "input"; B "output"].
  split; [reflexivity|]. split; [constructor|].
  exists [], []. reflexivity.
Defined.

Lemma handler_calls_stay_in_place_witness :
  let s := Mem.start (Mem.deployment [] (inl (mkProcess 7)) Mem.ready_log) in
  let r := Mem.request "gs://data/model" "gs://data/in/" "gs://results/out" in
  let run := LoadAndPredict (F := Dec64.float64) tidy 5 r s in
  exists t, trace (snd run) = trace s ++ t
            /\ Forall (handler_event (B "data") (B "data") (B "results") (B "out")) t.
Proof.
  cbv zeta.
  apply (handler_calls_stay_in_place (F := Dec64.float64) tidy 5
           (Mem.request "gs://data/model" "gs://data/in/" "gs://results/out")
           (B "data") (B "model") (B "data") (B "in/") (B "results") (B "out")
           (Mem.start (Mem.deployment [] (inl (mkProcess 7)) Mem.ready_log))
           (fst (LoadAndPredict (F := Dec64.float64) tidy 5
                   (Mem.request "gs://data/model" "gs://data/in/" "gs://results/out")
                   (Mem.start (Mem.deployment [] (inl (mkProcess 7)) Mem.ready_log))))).
  - exact tidy_lists_plain.
  - exact tidy_reads_plain.
  - reflexivity.
  - reflexivity.
  - reflexivity.
  - reflexivity.
  - apply surjective_pairing.
Defined.

Lemma staging_is_cleared_first_witness :
  let s := Mem.start (Mem.deployment [] (inl (mkProcess 7)) Mem.ready_log) in
  let r := Mem.request "gs://data/model" "gs://data/in/" "gs://results/out" in
  let run := LoadAndPredict (F := Dec64.float64) Mem.env 5 r s in
  exists t,
    trace (snd run)
    = trace s ++ [EvRemoveAll LOCAL_MODEL_PATH; EvRemoveAll LOCAL_INPUT_PATH;
                  EvRemoveAll LOCAL_OUTPUT_PATH; EvNewClient] ++ t.
Proof.
  cbv zeta.
  apply (staging_is_cleared_first (F := Dec64.float64) Mem.env 5
           (Mem.request "gs://data/model" "gs://data/in/" "gs://results/out")
           (B "data") (B "model") (B "data") (B "in/") (B "results") (B "out")
           (Mem.start (Mem.deployment [] (inl (mkProcess 7)) Mem.ready_log))
           (fst (LoadAndPredict (F := Dec64.float64) Mem.env 5
                   (Mem.request "gs://data/model" "gs://data/in/" "gs://results/out")
                   (Mem.start (Mem.deployment [] (inl (mkProcess 7)) Mem.ready_log))))).
  - reflexivity.
  - reflexivity.
  - reflexivity.
  - apply surjective_pairing.
Defined.

Lemma handler_replies_once_witness :
  let s := Mem.start (Mem.deployment [] (inl (mkProcess 7)) Mem.ready_log) in
  let r := Mem.request "gs://data/model" "gs://data/in/" "gs://results/out" in
  let run := LoadAndPredict (F := Dec64.float64) Mem.env 5 r s in
  exists code msg, reply_table r code msg /\ replied code msg s (snd run).
Proof.
  cbv zeta.
  apply (handler_replies_once (F := Dec64.float64) Mem.env 5
           (Mem.request "gs://data/model" "gs://data/in/" "gs://results/out")
           (Mem.start (Mem.deployment [] (inl (mkProcess 7)) Mem.ready_log))).
  match goal with
  | |- ?run = _ => rewrite (surjective_pairing run) at 1
  end.
  f_equal; vm_compute; reflexivity.
Defined.

(** A server that cannot be started. *)
Lemma failed_start_ends_in_panic_witness :
  let s := Mem.start (Mem.deployment [] (inr (External (B "executable file not found")))
                        Mem.ready_log) in
  let r := Mem.request "gs://data/model" "gs://data/in/" "gs://results/out" in
  let run := LoadAndPredict (F := Dec64.float64) Mem.env 5 r s in
  fst run = Panicking nil_dereference
  /\ replied StatusInternalServerError (B "error when starting tensorflow") s (snd run)
  /\ exists t1 args e,
       trace (snd run) = t1 ++ [EvStart args (inr e)]
       /\ Forall (fun x => ~ failed_start x) t1.
Proof.
  cbv zeta.
  apply (failed_start_ends_in_panic (F := Dec64.float64) Mem.env 5
           (Mem.request "gs://data/model" "gs://data/in/" "gs://results/out")
           (Mem.start (Mem.deployment [] (inr (External (B "executable file not found")))
                         Mem.ready_log))).
  - apply surjective_pairing.
  - reflexivity.
  - vm_compute. repeat first [apply Exists_cons_hd; exact I | apply Exists_cons_tl].
Defined.

Lemma listGcsFiles_entries_are_files_witness :
  Forall proper_entry
    [Streaming.mkFilePath [] (B "1.jsonl"); Streaming.mkFilePath (B "old/") (B "2.jsonl")].
Proof.
  apply (listGcsFiles_entries_are_files Mem.env (B "data") (B "in/")
           (Mem.start (Mem.set_objects (Mem.deployment [] (inl (mkProcess 7)) Mem.ready_log)
                         [(B "data", B "in/", []);
                          (B "data", B "in/1.jsonl", Mem.two_lines);
                          (B "data", B "in/old/", []);
                          (B "data", B "in/old/2.jsonl", Mem.two_lines)]))
           _ None
           (snd (Streaming.listGcsFiles Mem.env (B "data") (B "in/")
                   (Mem.start (Mem.set_objects
                                 (Mem.deployment [] (inl (mkProcess 7)) Mem.ready_log)
                                 [(B "data", B "in/", []);
                                  (B "data", B "in/1.jsonl", Mem.two_lines);
                                  (B "data", B "in/old/", []);
                                  (B "data", B "in/old/2.jsonl", Mem.two_lines)]))))).
  match goal with
  | |- ?run = _ => rewrite (surjective_pairing run) at 1
  end.
  f_equal; vm_compute; reflexivity.
Defined.

Lemma listGcsFiles_lists_the_files_witness :
  let s := Mem.start (Mem.set_objects (Mem.deployment [] (inl (mkProcess 7)) Mem.ready_log)
                        [(B "data", B "in/", []);
                         (B "data", B "in/1.jsonl", Mem.two_lines);
                         (B "data", B "in/old/", []);
                         (B "data", B "in/old/2.jsonl", Mem.two_lines)]) in
  map (fun f => Streaming.RelativePath f ++ Streaming.FileName f)
    [Streaming.mkFilePath [] (B "1.jsonl"); Streaming.mkFilePath (B "old/") (B "2.jsonl")]
  = filter isFile
      (map (skipn (Z.to_nat (strings.LastIndex (B "in/") (B "/") + 1)))
         (fst (fst (storage_Objects Mem.env (B "data") (B "in/") (world s))))).
Proof.
  cbv zeta.
  apply (proj1 (listGcsFiles_lists_the_files Mem.env) (B "data") (B "in/")
           (Mem.start (Mem.set_objects (Mem.deployment [] (inl (mkProcess 7)) Mem.ready_log)
                         [(B "data", B "in/", []);
                          (B "data", B "in/1.jsonl", Mem.two_lines);
                          (B "data", B "in/old/", []);
                          (B "data", B "in/old/2.jsonl", Mem.two_lines)]))
           _
           (snd (Streaming.listGcsFiles Mem.env (B "data") (B "in/")
                   (Mem.start (Mem.set_objects
                                 (Mem.deployment [] (inl (mkProcess 7)) Mem.ready_log)
                                 [(B "data", B "in/", []);
                                  (B "data", B "in/1.jsonl", Mem.two_lines);
                                  (B "data", B "in/old/", []);
                                  (B "data", B "in/old/2.jsonl", Mem.two_lines)]))))).
  match goal with
  | |- ?run = _ => rewrite (surjective_pairing run) at 1
  end.
  f_equal; vm_compute; reflexivity.
Defined.

Lemma executePrediction_success_witness :
  let s := Mem.start (Mem.deployment [] (inl (mkProcess 7)) Mem.ready_log) in
  let run := Streaming.executePrediction (F := Dec64.float64) Mem.env
               (B "data") (B "in/") (B "results") (B "out/")
               (Streaming.mkFilePath [] (B "1.jsonl")) s in
  let source := B "in/" ++ [] ++ B "1.jsonl" in
  let object := B "out/" ++ [] ++ B "1.jsonl" in
  let read := storage_NewReader Mem.env (B "data") source (world s) in
  let finput := fst (formatInput (F := Dec64.float64) (fst (fst read))) in
  let posted := http_Post Mem.env TF_URL TF_CONTENT_TYPE finput (snd read) in
  let foutput := fst (formatOutput (F := Dec64.float64) (fst (fst posted))) in
  let written := storage_Write Mem.env (B "results") object foutput (snd posted) in
  let closed :=
    storage_Close Mem.env (B "results") object
      (match foutput with [] => snd posted | _ :: _ => snd written end) in
  snd (fst read) = None
  /\ snd (formatInput (F := Dec64.float64) (fst (fst read))) = None
  /\ snd (fst posted) = None
  /\ snd (formatOutput (F := Dec64.float64) (fst (fst posted))) = None
  /\ (foutput <> [] -> fst written = None)
  /\ fst closed = None
  /\ trace (snd run)
     = trace s
       ++ [EvNewReader (B "data") source; EvPost TF_URL TF_CONTENT_TYPE finput]
       ++ match foutput with
          | [] => []
          | _ :: _ => [EvWriteObject (B "results") object foutput]
          end
       ++ [EvCloseObject (B "results") object]
  /\ world (snd run) = snd closed
  /\ header (snd run) = header s
  /\ body (snd run) = body s.
Proof.
  cbv zeta.
  apply (executePrediction_success (F := Dec64.float64) Mem.env
           (B "data") (B "in/") (B "results") (B "out/")
           (Streaming.mkFilePath [] (B "1.jsonl"))
           (Mem.start (Mem.deployment [] (inl (mkProcess 7)) Mem.ready_log))).
  match goal with
  | |- ?run = _ => rewrite (surjective_pairing run) at 1
  end.
  f_equal; vm_compute; reflexivity.
Defined.

Lemma downloadFiles_makes_directories_first_witness :
  let s := Mem.start (Mem.deployment [] (inl (mkProcess 7)) Mem.ready_log) in
  let run := Streaming.downloadFiles Mem.env (B "data") (B "model/")
               (LOCAL_MODEL_PATH ++ MODEL_DUMMY_VERSION) s in
  exists t, trace (snd run) = trace s ++ t /\ created_in_made_directories [] t.
Proof.
  cbv zeta.
  apply (downloadFiles_makes_directories_first Mem.env (B "data") (B "model/")
           (LOCAL_MODEL_PATH ++ MODEL_DUMMY_VERSION)
           (Mem.start (Mem.deployment [] (inl (mkProcess 7)) Mem.ready_log))
           (fst (Streaming.downloadFiles Mem.env (B "data") (B "model/")
                   (LOCAL_MODEL_PATH ++ MODEL_DUMMY_VERSION)
                   (Mem.start (Mem.deployment [] (inl (mkProcess 7)) Mem.ready_log))))).
  apply surjective_pairing.
Defined.

Lemma streamed_predictions_stay_in_place_witness :
  let s := Mem.start (Mem.deployment [] (inl (mkProcess 7)) Mem.ready_log) in
  let run := Streaming.makePredictions (F := Dec64.float64) Mem.env
               (B "data") (B "in/") (B "results") (B "out") s in
  (exists t, trace (snd run) = trace s ++ t
             /\ Forall (stream_event (B "data") (B "results") (B "out")) t)
  /\ header (snd run) = header s /\ body (snd run) = body s.
Proof.
  cbv zeta.
  apply (streamed_predictions_stay_in_place (F := Dec64.float64) Mem.env
           (B "data") (B "in/") (B "results") (B "out")
           (Mem.start (Mem.deployment [] (inl (mkProcess 7)) Mem.ready_log))
           (fst (Streaming.makePredictions (F := Dec64.float64) Mem.env
                   (B "data") (B "in/") (B "results") (B "out")
                   (Mem.start (Mem.deployment [] (inl (mkProcess 7)) Mem.ready_log))))).
  apply surjective_pairing.
Defined.

Lemma second_server_answers_200_after_predictions_witness :
  let s := Mem.start (Mem.deployment [] (inl (mkProcess 7)) Mem.ready_log) in
  let r := Mem.request "gs://data/model" "gs://data/in/" "gs://results/out" in
  let run := Streaming.LoadAndPredict (F := Dec64.float64) Mem.env r s in
  fst run = Value tt
  /\ exists bi pi bo po p s1 s2,
       streamed_launch Mem.env r s bi pi bo po p s1
       /\ Streaming.makePredictions (F := Dec64.float64) Mem.env bi pi bo po s1
          = (Value None, s2)
       /\ trace (snd run) = trace s2 ++ [EvKill p]
       /\ body (snd run) = body s ++ B "predictions completed" ++ [LF]
       /\ world (snd run) = snd (exec_Kill Mem.env p (world s2)).
Proof.
  cbv zeta.
  apply (second_server_answers_200_after_predictions (F := Dec64.float64) Mem.env
           (Mem.request "gs://data/model" "gs://data/in/" "gs://results/out")
           (Mem.start (Mem.deployment [] (inl (mkProcess 7)) Mem.ready_log))
           _
           (snd (Streaming.LoadAndPredict (F := Dec64.float64) Mem.env
                   (Mem.request "gs://data/model" "gs://data/in/" "gs://results/out")
                   (Mem.start (Mem.deployment [] (inl (mkProcess 7)) Mem.ready_log))))).
  - apply surjective_pairing.
  - reflexivity.
  - vm_compute. reflexivity.
Defined.
